(** * print-engine: a shallow embedding of the layout and serial pipeline

    The development follows the Python sources module by module:
    - [Py]            the built-ins the code leans on ([str.strip],
                      [str.lower], [str.zfill], [int], [str], [x or d],
                      exceptions);
    - [Units]         [app/utils/units.py];
    - [Serial]        [_parse_series_start] and [_series_value] of
                      [app/services/pdf_writer.py];
    - [FontRegistry]  [app/services/font_registry.py];
    - [OutlinedText]  [app/services/outlined_text.py];
    - [Hash]          SHA-256, which [app/utils/hash.py] takes from
                      [hashlib];
    - [Json], [TemplateCache]  [json.dumps] as [compute_template_id]
                      calls it, and [app/services/template.py];
    - [Render]        the mode selection of [app/services/render.py];
    - [PdfWriter]     [write_final_pdf] and [_draw_overlay];
    - [Canvas]        how a sequence of canvas calls is read;
    - [FontTables]    the loops over a font's [name] and [kern] tables;
    - [Config]        [app/config.py], with [int] on a string;
    - [Normalize]     [app/services/normalize.py] over a file system;
    - [Main]          the fonts endpoint of [app/main.py];
    - [Samples]       concrete inputs.
    The properties follow the definitions.

    Python floats are IEEE binary64 numbers and are modelled by Rocq's
    primitive floats, so every concrete evaluation below is bit-exact.
    Python [str] values are modelled by [string]; a character is a code
    point below 256.  Files, fonts and the PDF libraries are outside
    the program: what they answer is a field of a record ([world],
    [FontRegistry.env], [OutlinedText.font]), and a call that can
    raise answers a [result]. *)

From Stdlib Require Import ZArith List String Ascii Bool Lia Floats.
From Stdlib Require Import DecimalString Permutation OrderedTypeEx.
From Stdlib Require Import DecimalZ Sorted.
Import ListNotations.

Set Warnings "-inexact-float,-register-all".
Local Open Scope string_scope.
Local Open Scope list_scope.

(* ================================================================== *)
(** ** Python built-ins *)

Module Py.

(** Exceptions are values; only the class and the message matter. *)
Inductive exn : Type :=
| ValueError (msg : string)
| RuntimeError (msg : string)
| TypeError (msg : string)
| OtherError (msg : string).

Inductive result (A : Type) : Type :=
| Ok (a : A)
| Raise (e : exn).
Arguments Ok {A} a.
Arguments Raise {A} e.

Definition bind {A B} (m : result A) (k : A -> result B) : result B :=
  match m with
  | Ok a => k a
  | Raise e => Raise e
  end.

(** [try: m  except Exception: h] *)
Definition try_except {A} (m : result A) (h : exn -> result A) : result A :=
  match m with
  | Ok a => Ok a
  | Raise e => h e
  end.

Definition returns {A} (m : result A) : Prop :=
  exists a, m = Ok a.

(** [str.isspace] on one character (code points below 256). *)
Definition isspace (c : ascii) : bool :=
  let n := nat_of_ascii c in
  (((9 <=? n) && (n <=? 13)) || ((28 <=? n) && (n <=? 32))
   || (n =? 133) || (n =? 160))%nat.

Definition isdigit (c : ascii) : bool :=
  let n := nat_of_ascii c in ((48 <=? n) && (n <=? 57))%nat.

(** [str.lower] on one character: ASCII capitals and the Latin-1
    capitals (all of 0xC0-0xDE but the multiplication sign). *)
Definition lower_char (c : ascii) : ascii :=
  let n := nat_of_ascii c in
  if (((65 <=? n) && (n <=? 90))
      || ((192 <=? n) && (n <=? 222) && negb (n =? 215)))%nat
  then ascii_of_nat (n + 32) else c.

Fixpoint lower (s : string) : string :=
  match s with
  | EmptyString => EmptyString
  | String c s' => String (lower_char c) (lower s')
  end.

Fixpoint lstrip (s : string) : string :=
  match s with
  | EmptyString => EmptyString
  | String c s' => if isspace c then lstrip s' else s
  end.

(** [rstrip], by one pass from the right: a character is kept when
    something unstripped follows it or it is not a space. *)
Fixpoint rstrip (s : string) : string :=
  match s with
  | EmptyString => EmptyString
  | String c s' =>
      match rstrip s' with
      | EmptyString => if isspace c then EmptyString else String c EmptyString
      | r => String c r
      end
  end.

Definition strip (s : string) : string := rstrip (lstrip s).

(** [x or d] on strings: the empty string is falsy. *)
Definition or_str (x d : string) : string :=
  match x with EmptyString => d | _ => x end.

(** [x or d] on an optional string ([None] and [""] are falsy). *)
Definition opt_or_str (x : option string) (d : string) : string :=
  match x with Some s => or_str s d | None => d end.

(** [x or d] on lists: the empty list is falsy, and so is [None]. *)
Definition or_list {A} (x : option (list A)) (d : list A) : list A :=
  match x with
  | Some (a :: l) => a :: l
  | _ => d
  end.

(** Truth value of a float: anything but a zero (a NaN is truthy). *)
Definition truthy (x : float) : bool := negb (PrimFloat.eqb x 0%float).

(** [x or 0.0] on floats. *)
Definition or_zero (x : float) : float := if truthy x then x else 0%float.

(** [str(n)] for an integer. *)
Definition str_of_int (n : Z) : string :=
  NilZero.string_of_int (Z.to_int n).

Definition digit_value (c : ascii) : Z := (Z.of_nat (nat_of_ascii c) - 48)%Z.

(** [int(s)] on a run of decimal digits. *)
Definition int_of_digits (s : list ascii) : Z :=
  fold_left (fun acc c => (10 * acc + digit_value c)%Z) s 0%Z.

Fixpoint zeros (n : nat) : string :=
  match n with
  | O => EmptyString
  | S n' => String "0" (zeros n')
  end.

(** [s.zfill(width)]: pad with zeros on the left, after a sign if
    there is one; a string already [width] long is returned as it is. *)
Definition zfill (s : string) (width : nat) : string :=
  let n := String.length s in
  if (width <=? n)%nat then s
  else
    match s with
    | String c s' =>
        if (Ascii.eqb c "+" || Ascii.eqb c "-")%bool
        then String c (zeros (width - n) ++ s')
        else zeros (width - n) ++ s
    | EmptyString => zeros (width - n)
    end.

(** [x in xs] for a string and a list, set or tuple of strings. *)
Definition mem (x : string) (xs : list string) : bool :=
  existsb (String.eqb x) xs.

(** [s.startswith(p)] *)
Definition startswith (s p : string) : bool := String.prefix p s.

(** [sub in s] *)
Fixpoint contains (s sub : string) : bool :=
  String.prefix sub s
  || match s with
     | EmptyString => false
     | String _ s' => contains s' sub
     end.

(** [s.partition(c)], without the separator: what stands before the
    first [c], and what stands after it (all of [s] and [""] when
    there is no [c]). *)
Fixpoint partition (c : ascii) (s : string) : string * string :=
  match s with
  | EmptyString => (EmptyString, EmptyString)
  | String a s' =>
      if Ascii.eqb a c then (EmptyString, s')
      else let '(h, t) := partition c s' in (String a h, t)
  end.

(** [s[n:]] *)
Fixpoint drop (n : nat) (s : string) : string :=
  match n, s with
  | O, _ => s
  | S n', String _ s' => drop n' s'
  | S _, EmptyString => EmptyString
  end.

Fixpoint takeWhile {A} (p : A -> bool) (l : list A) : list A :=
  match l with
  | [] => []
  | a :: l' => if p a then a :: takeWhile p l' else []
  end.

End Py.

Import Py.

Declare Scope py_scope.
Delimit Scope py_scope with py.
Notation "x <- m ;; k" := (Py.bind m (fun x => k))
  (at level 61, m at next level, right associativity) : py_scope.
Notation "' pat <- m ;; k" := (Py.bind m (fun x => match x with pat => k end))
  (at level 61, pat pattern, m at next level, right associativity) : py_scope.
Local Open Scope py_scope.

(* ================================================================== *)
(** ** Unit conversion *)

Module Units.

(** Modelled from the spec: [app/utils/units.py] is not part of the
    sources at hand; section 4.1 gives
    [mm_to_pt(mm) = mm * POINTS_PER_MM] with [POINTS_PER_MM = 72/25.4]. *)
Definition POINTS_PER_MM : float := (72 / 25.4)%float.

Definition mm_to_pt (mm : float) : float := (mm * POINTS_PER_MM)%float.

End Units.

(* ================================================================== *)
(** ** Serial generator *)

Module Serial.

(** [re.search(r"(\d+)$", s)]: the leftmost non-empty run of digits
    that reaches a place where [$] matches.  Without [re.MULTILINE],
    [$] matches at the end of the string and also just before a
    newline that is the last character.  A string that ends in a
    newline has no digit at its end, so the run, if any, ends just
    before that newline.  The result is the start offset of the
    match and the matched group. *)
Definition search_trailing_digits (s : string) : option (nat * list ascii) :=
  let r := rev (list_ascii_of_string s) in
  let body :=
    match r with
    | c :: r' => if Ascii.eqb c "010" then r' else r
    | [] => r
    end in
  match takeWhile isdigit body with
  | [] => None
  | run => Some ((List.length body - List.length run)%nat, rev run)
  end.

(** [s[:n]] *)
Definition slice_to (n : nat) (s : string) : string :=
  string_of_list_ascii (firstn n (list_ascii_of_string s)).

Definition _parse_series_start (start : string) : result (string * Z * nat) :=
  match search_trailing_digits start with
  | None => Raise (ValueError "Series must end with a numeric part")
  | Some (match_start, number_part) =>
      let prefix_part := slice_to match_start start in
      Ok (prefix_part, int_of_digits number_part, List.length number_part)
  end.

Definition _series_value (prefix : string) (base : Z) (width : nat) (i : Z)
  : string :=
  let n := (base + i)%Z in
  prefix ++ zfill (str_of_int n) width.

End Serial.


(* ================================================================== *)
(** ** Font registry *)

Module FontRegistry.

Definition _PDF_CORE_FONTS : list string :=
  [ "Courier"; "Courier-Bold"; "Courier-Oblique"; "Courier-BoldOblique";
    "Helvetica"; "Helvetica-Bold"; "Helvetica-Oblique";
    "Helvetica-BoldOblique";
    "Times-Roman"; "Times-Bold"; "Times-Italic"; "Times-BoldItalic";
    "Symbol"; "ZapfDingbats" ].

(** One dictionary of the registry. *)
Record entry : Type := mk_entry {
  family : string;
  source : string;
  path : option string;
  embeddable : bool
}.

(** What the file system and fontTools answer for one font file:
    its path, [_font_family_from_file] and [_font_embeddable] (both
    catch every exception themselves). *)
Record font_file : Type := mk_font_file {
  ff_path : string;
  ff_family : option string;
  ff_embeddable : bool
}.

(** The world outside the module: the font files [_iter_font_files]
    finds, the names ReportLab has registered
    ([pdfmetrics.getRegisteredFontNames()]), and whether
    [pdfmetrics.registerFont(RLTTFont(family, path))] succeeds. *)
Record env : Type := mk_env {
  font_files : list font_file;
  registered_names : list string;
  register_font : string -> string -> result unit
}.

(** The key of [out.sort(key=...)]. *)
Definition sort_key (e : entry) : string := lower (or_str (family e) "").

(** Stable insertion for [list.sort]: an entry goes after the
    entries whose key is not larger. *)
Fixpoint insert_sorted (e : entry) (l : list entry) : list entry :=
  match l with
  | [] => [e]
  | x :: l' =>
      if String.ltb (sort_key e) (sort_key x) then e :: l
      else x :: insert_sorted e l'
  end.

Definition sort_entries (l : list entry) : list entry :=
  fold_left (fun acc e => insert_sorted e acc) l [].

(** The first loop of [get_font_registry]: state is [(out, seen)]. *)
Definition add_core (st : list entry * list string) (name : string)
  : list entry * list string :=
  let '(out, seen) := st in
  let key := lower name in
  if mem key seen then st
  else (out ++ [mk_entry name "pdf-core" None false], key :: seen).

(** The second loop. *)
Definition add_file (st : list entry * list string) (p : font_file)
  : list entry * list string :=
  let '(out, seen) := st in
  match ff_family p with
  | None => st
  | Some EmptyString => st
  | Some fam =>
      let key := lower fam in
      if mem key seen then st
      else (out ++ [mk_entry fam "system" (Some (ff_path p)) (ff_embeddable p)],
            key :: seen)
  end.

Definition get_font_registry (files : list font_file) : list entry :=
  let st := fold_left add_core _PDF_CORE_FONTS ([], []) in
  let st := fold_left add_file files st in
  sort_entries (fst st).

Definition resolve_font_family (w : env) (requested_family : string)
  : result (string * string * bool) :=
  let requested := strip (or_str requested_family "") in
  match requested with
  | EmptyString => Ok ("Helvetica", "pdf-core", false)
  | _ =>
      let registry := get_font_registry (font_files w) in
      let registered := registered_names w in
      if mem requested registered || mem requested _PDF_CORE_FONTS then
        Ok (requested,
            (if mem requested _PDF_CORE_FONTS then "pdf-core" else "registered"),
            negb (mem requested _PDF_CORE_FONTS))
      else
        let hit :=
          find (fun f => String.eqb (lower (or_str (family f) ""))
                                    (lower requested)) registry in
        match hit with
        | None => Ok ("Helvetica", "pdf-core", false)
        | Some hit =>
            let path := strip (opt_or_str (path hit) "") in
            let embeddable := embeddable hit in
            match path, embeddable with
            | String _ _, true =>
                try_except
                  (_ <- register_font w (family hit) path ;;
                   Ok (family hit, source hit, true))
                  (fun _ => Ok ("Helvetica", or_str (source hit) "system", false))
            | _, _ =>
                Ok ("Helvetica", or_str (source hit) "unknown", false)
            end
        end
  end.

End FontRegistry.

(* ================================================================== *)
(** ** Glyph outline engine *)

Module OutlinedText.

Local Open Scope float_scope.

(** What a [RecordingPen] holds once [Qu2CuPen] has replayed a glyph
    into it: fontTools' pen vocabulary. *)
Inductive pen_op : Type :=
| PenMoveTo (x y : float)
| PenLineTo (x y : float)
| PenCurveTo (x1 y1 x2 y2 x3 y3 : float)
| PenClosePath
| PenOther (name : string).

(** [Op = Tuple[str, Tuple[float, ...]]] *)
Inductive op : Type :=
| MoveTo (x y : float)
| LineTo (x y : float)
| CurveTo (x1 y1 x2 y2 x3 y3 : float)
| Close.

(** The loaded [TTFont], as far as the engine reads it:
    [font["head"].unitsPerEm], [getBestCmap()], the recorded cubic
    outline of a glyph of [font["glyf"]] ([None]: no such glyph),
    [font["hmtx"].metrics] and the pairs of [_build_kern_pairs]. *)
Record font : Type := mk_font {
  unitsPerEm : float;
  cmap : ascii -> option string;
  glyph_outline : string -> option (list pen_op);
  hmtx : string -> option (Z * Z);
  kern_pairs : string -> string -> option float
}.

Record bbox : Type := mk_bbox {
  min_x : float; min_y : float; max_x : float; max_y : float;
  w : float; h : float
}.

Definition ZERO_BBOX : bbox := mk_bbox 0 0 0 0 0 0.

(** The running bounding box, [(min_x, min_y, max_x, max_y)]. *)
Definition extent : Type := (float * float * float * float)%type.

Definition EMPTY_EXTENT : extent :=
  (infinity, infinity, neg_infinity, neg_infinity).

Definition _acc_pt (e : extent) (x y : float) : extent :=
  let '(mnx, mny, mxx, mxy) := e in
  let mnx := if x <? mnx then x else mnx in
  let mny := if y <? mny then y else mny in
  let mxx := if mxx <? x then x else mxx in
  let mxy := if mxy <? y then y else mxy in
  (mnx, mny, mxx, mxy).

(** [scale = float(font_size_pt) / units_per_em], after the guard. *)
Definition outline_scale (f : font) (font_size_pt : float) : result float :=
  let units_per_em := unitsPerEm f in
  if units_per_em <=? 0 then Raise (ValueError "INVALID_FONT_UNITS_PER_EM")
  else Ok (font_size_pt / units_per_em).

(** The body of [for op, pts in cubic_rec.value]: one recorded
    operation, placed at the cursor and scaled. *)
Definition place_op (cursor_x_units scale : float)
           (acc : list op * extent) (o : pen_op) : list op * extent :=
  let '(raw_ops, e) := acc in
  match o with
  | PenMoveTo x y =>
      let px := (cursor_x_units + x) * scale in
      let py := y * scale in
      (raw_ops ++ [MoveTo px py], _acc_pt e px py)
  | PenLineTo x y =>
      let px := (cursor_x_units + x) * scale in
      let py := y * scale in
      (raw_ops ++ [LineTo px py], _acc_pt e px py)
  | PenCurveTo x1 y1 x2 y2 x3 y3 =>
      let p0 := (cursor_x_units + x1) * scale in
      let p1 := y1 * scale in
      let p2 := (cursor_x_units + x2) * scale in
      let p3 := y2 * scale in
      let p4 := (cursor_x_units + x3) * scale in
      let p5 := y3 * scale in
      (raw_ops ++ [CurveTo p0 p1 p2 p3 p4 p5],
       _acc_pt (_acc_pt (_acc_pt e p0 p1) p2 p3) p4 p5)
  | PenClosePath => (raw_ops ++ [Close], e)
  | PenOther _ => acc
  end.

(** The state the loop over the characters carries. *)
Record loop_state : Type := mk_state {
  raw_ops : list op;
  advances_pt : list float;
  cursor_x_units : float;
  prev_glyph_name : option string;
  ext : extent
}.

Definition INITIAL_STATE : loop_state :=
  mk_state [] [] 0 None EMPTY_EXTENT.

(** [float(n)] for an integer below 2^63 in size (a font's advance
    width is an unsigned 16-bit number). *)
Definition float_of_int (z : Z) : float :=
  let m := PrimFloat.of_uint63 (Uint63.of_Z (Z.abs z)) in
  if (z <? 0)%Z then - m else m.

(** The body of [for ch in str(text or "")]. *)
Definition glyph_step (f : font) (scale : float) (st : loop_state) (ch : ascii)
  : result loop_state :=
  let glyph_name := opt_or_str (cmap f ch) ".notdef" in
  let cursor :=
    match prev_glyph_name st with
    | Some prev =>
        cursor_x_units st
        + match kern_pairs f prev glyph_name with Some k => k | None => 0 end
    | None => cursor_x_units st
    end in
  let aw := match hmtx f glyph_name with Some (aw, _) => aw | None => 0%Z end in
  ttglyph <-
    match glyph_outline f glyph_name with
    | Some g => Ok g
    | None =>
        match glyph_outline f ".notdef" with
        | Some g => Ok g
        | None => Raise (OtherError "KeyError: .notdef")
        end
    end ;;
  let '(ops, e) := fold_left (place_op cursor scale) ttglyph (raw_ops st, ext st) in
  Ok (mk_state ops
               (advances_pt st ++ [float_of_int aw * scale])
               (cursor + float_of_int aw)
               (Some glyph_name)
               e).

Fixpoint glyph_loop (f : font) (scale : float) (st : loop_state)
         (text : list ascii) : result loop_state :=
  match text with
  | [] => Ok st
  | ch :: text' =>
      st' <- glyph_step f scale st ch ;;
      glyph_loop f scale st' text'
  end.

(** The second loop: shift by the box minimum, then to the anchor. *)
Definition normalise_op (base_x base_y mnx mny : float) (o : op) : op :=
  match o with
  | MoveTo x y => MoveTo (base_x + (x - mnx)) (base_y + (y - mny))
  | LineTo x y => LineTo (base_x + (x - mnx)) (base_y + (y - mny))
  | CurveTo x1 y1 x2 y2 x3 y3 =>
      CurveTo (base_x + (x1 - mnx)) (base_y + (y1 - mny))
              (base_x + (x2 - mnx)) (base_y + (y2 - mny))
              (base_x + (x3 - mnx)) (base_y + (y3 - mny))
  | Close => Close
  end.

(** Everything after the loop over the characters. *)
Definition finish (st : loop_state) (x_pt y_pt : float)
  : list op * bbox * list float :=
  let '(mnx, mny, mxx, mxy) := ext st in
  match raw_ops st with
  | [] => ([], ZERO_BBOX, advances_pt st)
  | _ =>
      if mnx =? infinity then ([], ZERO_BBOX, advances_pt st)
      else
        (map (normalise_op x_pt y_pt mnx mny) (raw_ops st),
         mk_bbox mnx mny mxx mxy (mxx - mnx) (mxy - mny),
         advances_pt st)
  end.

Definition outline_text_ops_pt_with_metrics
           (f : font) (text : string) (font_size_pt x_pt y_pt : float)
  : result (list op * bbox * list float) :=
  scale <- outline_scale f font_size_pt ;;
  st <- glyph_loop f scale INITIAL_STATE (list_ascii_of_string text) ;;
  Ok (finish st x_pt y_pt).

Definition outline_text_ops_pt
           (f : font) (text : string) (font_size_pt x_pt y_pt : float)
  : result (list op) :=
  ' (ops, _, _) <- outline_text_ops_pt_with_metrics f text font_size_pt x_pt y_pt ;;
  Ok ops.

End OutlinedText.

(* ================================================================== *)
(** ** SHA-256 ([hashlib], behind [app/utils/hash.py]) *)

Module Hash.
Local Open Scope Z_scope.

Definition WORD : Z := 2 ^ 32.

Definition add32 (x y : Z) : Z := (x + y) mod WORD.

Definition rotr (n x : Z) : Z :=
  Z.lor (Z.shiftr x n) ((Z.shiftl x (32 - n)) mod WORD).

Definition ch (x y z : Z) : Z :=
  Z.lxor (Z.land x y) (Z.land (Z.lxor x (WORD - 1)) z).

Definition maj (x y z : Z) : Z :=
  Z.lxor (Z.lxor (Z.land x y) (Z.land x z)) (Z.land y z).

Definition big_sigma0 (x : Z) : Z :=
  Z.lxor (Z.lxor (rotr 2 x) (rotr 13 x)) (rotr 22 x).

Definition big_sigma1 (x : Z) : Z :=
  Z.lxor (Z.lxor (rotr 6 x) (rotr 11 x)) (rotr 25 x).

Definition small_sigma0 (x : Z) : Z :=
  Z.lxor (Z.lxor (rotr 7 x) (rotr 18 x)) (Z.shiftr x 3).

Definition small_sigma1 (x : Z) : Z :=
  Z.lxor (Z.lxor (rotr 17 x) (rotr 19 x)) (Z.shiftr x 10).

(** The first primes, by trial division against those found so far. *)
Fixpoint primes_from (fuel : nat) (n : Z) (found : list Z) (want : nat) : list Z :=
  match fuel, want with
  | O, _ | _, O => rev found
  | S fuel', S want' =>
      if existsb (fun p => n mod p =? 0) found
      then primes_from fuel' (n + 1) found want
      else primes_from fuel' (n + 1) (n :: found) want'
  end.

Definition first_primes (k : nat) : list Z := primes_from 400 2 [] k.

(** Integer cube root, by bisection over [lo, hi). *)
Fixpoint icbrt_between (fuel : nat) (n lo hi : Z) : Z :=
  match fuel with
  | O => lo
  | S fuel' =>
      if hi - lo <=? 1 then lo
      else
        let mid := (lo + hi) / 2 in
        if mid * mid * mid <=? n then icbrt_between fuel' n mid hi
        else icbrt_between fuel' n lo mid
  end.

Definition icbrt (n : Z) : Z := icbrt_between 200 n 0 (2 ^ 40).

(** The round constants: the first 32 bits of the fractional parts of
    the cube roots of the first 64 primes. *)
Definition K : list Z :=
  Eval vm_compute in map (fun p => icbrt (p * 2 ^ 96) mod WORD) (first_primes 64).

(** The initial hash value: the same of the square roots of the
    first 8 primes. *)
Definition H0 : list Z :=
  Eval vm_compute in map (fun p => Z.sqrt (p * 2 ^ 64) mod WORD) (first_primes 8).

Definition byte_of_ascii (c : ascii) : Z := Z.of_nat (nat_of_ascii c).

(** [n] as [len] big-endian bytes. *)
Fixpoint be_bytes (len : nat) (n : Z) : list Z :=
  match len with
  | O => []
  | S len' => be_bytes len' (n / 256) ++ [n mod 256]
  end.

Definition pad (msg : list Z) : list Z :=
  let l := Z.of_nat (List.length msg) in
  let k := (55 - l) mod 64 in
  msg ++ [128] ++ repeat 0 (Z.to_nat k) ++ be_bytes 8 (8 * l).

Fixpoint words_of_bytes (fuel : nat) (bs : list Z) : list Z :=
  match fuel, bs with
  | S fuel', a :: b :: c :: d :: bs' =>
      (((a * 256 + b) * 256 + c) * 256 + d) :: words_of_bytes fuel' bs'
  | _, _ => []
  end.

Fixpoint blocks_of (fuel : nat) (ws : list Z) : list (list Z) :=
  match fuel, ws with
  | _, [] | O, _ => []
  | S fuel', _ => firstn 16 ws :: blocks_of fuel' (skipn 16 ws)
  end.

(** The message schedule, kept most recent word first. *)
Fixpoint schedule (n : nat) (rev_w : list Z) : list Z :=
  match n with
  | O => rev rev_w
  | S n' =>
      let w2 := nth 1 rev_w 0 in
      let w7 := nth 6 rev_w 0 in
      let w15 := nth 14 rev_w 0 in
      let w16 := nth 15 rev_w 0 in
      let w := add32 (add32 (small_sigma1 w2) w7) (add32 (small_sigma0 w15) w16) in
      schedule n' (w :: rev_w)
  end.

Definition state : Type := (Z * Z * Z * Z * Z * Z * Z * Z)%type.

Definition round (s : state) (kw : Z * Z) : state :=
  let '(a, b, c, d, e, f, g, h) := s in
  let '(k, w) := kw in
  let t1 := add32 (add32 (add32 h (big_sigma1 e)) (add32 (ch e f g) k)) w in
  let t2 := add32 (big_sigma0 a) (maj a b c) in
  (add32 t1 t2, a, b, c, add32 d t1, e, f, g).

Definition compress (s : state) (block : list Z) : state :=
  let w := schedule 48 (rev block) in
  let '(a, b, c, d, e, f, g, h) := fold_left round (combine K w) s in
  let '(a0, b0, c0, d0, e0, f0, g0, h0) := s in
  (add32 a0 a, add32 b0 b, add32 c0 c, add32 d0 d,
   add32 e0 e, add32 f0 f, add32 g0 g, add32 h0 h).

Definition initial_state : state :=
  (nth 0 H0 0, nth 1 H0 0, nth 2 H0 0, nth 3 H0 0,
   nth 4 H0 0, nth 5 H0 0, nth 6 H0 0, nth 7 H0 0).

Definition hex_digit (n : Z) : ascii :=
  if n <? 10 then ascii_of_nat (Z.to_nat (48 + n))
  else ascii_of_nat (Z.to_nat (87 + n)).

Fixpoint hex_of_word (digits : nat) (n : Z) (acc : string) : string :=
  match digits with
  | O => acc
  | S d => hex_of_word d (n / 16) (String (hex_digit (n mod 16)) acc)
  end.

(** [hashlib.sha256(data).hexdigest()] *)
Definition sha256_hexdigest (data : list Z) : string :=
  let bytes := pad data in
  let ws := words_of_bytes (List.length bytes) bytes in
  let '(a, b, c, d, e, f, g, h) :=
    fold_left compress (blocks_of (List.length ws) ws) initial_state in
  fold_right (fun w acc => hex_of_word 8 w acc) "" [a; b; c; d; e; f; g; h].

(** [sha256_hex] of [app/utils/hash.py], on the bytes of a string. *)
Definition sha256_hex (data : string) : string :=
  sha256_hexdigest (map byte_of_ascii (list_ascii_of_string data)).

End Hash.

(* ================================================================== *)
(** ** JSON values and [json.dumps] *)

Module Json.

(** What [model_dump()] and [json.loads] produce. A [dict] keeps its
    insertion order: it is a list of items. *)
Inductive json : Type :=
| JNull
| JBool (b : bool)
| JInt (z : Z)
| JFloat (x : float)
| JStr (s : string)
| JList (l : list json)
| JDict (items : list (string * json)).

Definition DQUOTE : string := String "034" EmptyString.

Definition escape_char (c : ascii) : string :=
  let n := nat_of_ascii c in
  if (n =? 34)%nat then "\" ++ DQUOTE
  else if (n =? 92)%nat then "\\"
  else if (n =? 10)%nat then "\n"
  else if (n =? 13)%nat then "\r"
  else if (n =? 9)%nat then "\t"
  else if (n =? 8)%nat then "\b"
  else if (n =? 12)%nat then "\f"
  else if ((32 <=? n) && (n <=? 126))%nat then String c EmptyString
  else "\u" ++ Hash.hex_of_word 4 (Z.of_nat n) EmptyString.

(** [json.encoder.py_encode_basestring_ascii] *)
Fixpoint escape_body (s : string) : string :=
  match s with
  | EmptyString => EmptyString
  | String c s' => escape_char c ++ escape_body s'
  end.

Definition encode_string (s : string) : string :=
  DQUOTE ++ escape_body s ++ DQUOTE.

(** [separator.join(parts)] *)
Fixpoint join (sep : string) (parts : list string) : string :=
  match parts with
  | [] => EmptyString
  | [p] => p
  | p :: rest => p ++ sep ++ join sep rest
  end.

(** [sorted(items)] of [sort_keys=True], as an insertion sort on the
    key.  The keys of a dict are distinct: no two items tie, and the
    values are never compared. *)
Fixpoint insert_item {A} (it : string * A) (l : list (string * A))
  : list (string * A) :=
  match l with
  | [] => [it]
  | x :: l' =>
      if String.ltb (fst it) (fst x) then it :: l
      else x :: insert_item it l'
  end.

Definition sort_items {A} (l : list (string * A)) : list (string * A) :=
  fold_right insert_item [] l.

(** [d.get(k)] *)
Fixpoint lookup {A} (k : string) (items : list (string * A)) : option A :=
  match items with
  | [] => None
  | (k', v) :: items' => if String.eqb k k' then Some v else lookup k items'
  end.

Section Dumps.

(** [float.__repr__], the interpreter's shortest round-tripping
    decimal: taken as given. *)
Variable float_repr : float -> string.

(** [json.encoder.floatstr] *)
Definition floatstr (x : float) : string :=
  if negb (PrimFloat.eqb x x) then "NaN"
  else if PrimFloat.eqb x infinity then "Infinity"
  else if PrimFloat.eqb x neg_infinity then "-Infinity"
  else float_repr x.

Definition render_item (it : string * string) : string :=
  encode_string (fst it) ++ ":" ++ snd it.

(** [json.dumps(v, sort_keys=True, separators=(",", ":"))].  The
    items of a dict are encoded and then sorted on their key; the
    encoder sorts first and encodes next, which is the same list
    since only the keys are compared. *)
Fixpoint dumps (v : json) : string :=
  match v with
  | JNull => "null"
  | JBool true => "true"
  | JBool false => "false"
  | JInt z => str_of_int z
  | JFloat x => floatstr x
  | JStr s => encode_string s
  | JList l =>
      "[" ++ join ","
               ((fix each (l : list json) : list string :=
                   match l with
                   | [] => []
                   | x :: l' => dumps x :: each l'
                   end) l)
          ++ "]"
  | JDict items =>
      "{" ++ join ","
               (map render_item
                    (sort_items
                       ((fix each (l : list (string * json))
                           : list (string * string) :=
                           match l with
                           | [] => []
                           | (k, x) :: l' => (k, dumps x) :: each l'
                           end) items)))
          ++ "}"
  end.

End Dumps.

(** [a == b] on JSON values of equal types: lists are compared in
    order, dicts as maps (as many items, and every key of [a] is
    bound in [b] to an equal value). *)
Fixpoint py_eq (a b : json) {struct a} : Prop :=
  match a, b with
  | JNull, JNull => True
  | JBool x, JBool y => x = y
  | JInt x, JInt y => x = y
  | JFloat x, JFloat y => x = y
  | JStr x, JStr y => x = y
  | JList la, JList lb =>
      (fix each (la lb : list json) : Prop :=
         match la, lb with
         | [], [] => True
         | x :: la', y :: lb' => py_eq x y /\ each la' lb'
         | _, _ => False
         end) la lb
  | JDict ia, JDict ib =>
      List.length ia = List.length ib /\
      (fix each (ia : list (string * json)) : Prop :=
         match ia with
         | [] => True
         | (k, x) :: ia' =>
             match lookup k ib with
             | Some y => py_eq x y
             | None => False
             end /\ each ia'
         end) ia
  | _, _ => False
  end.

(** A dict binds a key once, at every depth. *)
Fixpoint well_formed (v : json) : Prop :=
  match v with
  | JList l =>
      (fix each (l : list json) : Prop :=
         match l with
         | [] => True
         | x :: l' => well_formed x /\ each l'
         end) l
  | JDict items =>
      NoDup (map fst items) /\
      (fix each (l : list (string * json)) : Prop :=
         match l with
         | [] => True
         | (_, x) :: l' => well_formed x /\ each l'
         end) items
  | _ => True
  end.

End Json.

(* ================================================================== *)
(** ** Template cache *)

Module TemplateCache.

Import Json.

Section Id.

Variable float_repr : float -> string.

(** The [payload] dict of [compute_template_id], in the order the
    literal lists its keys. *)
Definition payload (svg_hash : string) (object_mm series : json)
           (custom_fonts overlays : option (list json))
           (render_mode : string) : json :=
  JDict [ ("svg_hash", JStr svg_hash);
          ("object_mm", object_mm);
          ("series", series);
          ("custom_fonts", JList (or_list custom_fonts []));
          ("overlays", JList (or_list overlays []));
          ("render_mode", JStr render_mode) ].

(** [sha256_hex(json.dumps(...).encode("utf-8"))]: the dump is
    ASCII, one byte a character. *)
Definition template_id_of_payload (p : json) : string :=
  Hash.sha256_hex (dumps float_repr p).

Definition compute_template_id (svg_hash : string) (object_mm series : json)
           (custom_fonts overlays : option (list json))
           (render_mode : string) : string :=
  template_id_of_payload
    (payload svg_hash object_mm series custom_fonts overlays render_mode).

End Id.

End TemplateCache.

(* ================================================================== *)
(** ** Render mode selection *)

Module Render.



End Render.

(* ================================================================== *)
(** ** Layout and composition *)

Module PdfWriter.

Import Units Serial.
Local Open Scope float_scope.

Definition A4_WIDTH_MM : float := 210.
Definition A4_HEIGHT_MM : float := 297.
Definition OBJECTS_PER_PAGE : Z := 4.
Definition BASELINE_CORRECTION_MM : float := 0.

(** *** The template and its parts ([app/schemas.py], [Template]) *)

Module ObjectBoxMm.
Record t : Type := mk {
  x : option float;
  y : option float;
  x_mm : option float;
  y_mm : option float;
  w : option float;
  h : option float;
  alignment : option string;
  rotation_deg : option float;
  keep_proportions : option bool;
  cut_margin_mm : option float
}.
(** [{}] *)
Definition empty : t := mk None None None None None None None None None None.
End ObjectBoxMm.

Module SeriesConfig.
Record t : Type := mk {
  start : string;
  count : Z;
  anchor_space : string;
  font_family : string;
  font_size_mm : float;
  per_letter_font_size_mm : option (list float);
  x_mm : option float;
  y_mm : option float;
  letter_spacing_mm : float;
  rotation_deg : float;
  color : string
}.
End SeriesConfig.

Module CustomFont.
Record t : Type := mk {
  family : string;
  data_url : string;
  mime : string
}.
End CustomFont.

(** [OverlayConfig = OverlayImageConfig | OverlaySvgConfig] *)
Inductive overlay : Type :=
| OverlayImage (data_url mime : string)
               (x_mm y_mm w_mm h_mm rotation_deg : float)
| OverlaySvg (type : string) (x_mm y_mm scale rotation_deg : float)
             (svg_s3_key : string).

Record Template : Type := mk_template {
  template_id : string;
  background_pdf_path : string;
  object_box_mm : ObjectBoxMm.t;
  series_config : SeriesConfig.t;
  custom_fonts : list CustomFont.t;
  overlays : list overlay;
  render_mode : string
}.

(** *** The world outside

    Fonts, files and the libraries that read them.  Each field is
    what the named calls answer; a failure is the exception they
    raise. *)
Record world : Type := mk_world {
  (** the font registry's own world *)
  fonts : FontRegistry.env;
  (** [base64.b64decode(payload.encode("ascii"))] *)
  b64decode : string -> result string;
  (** the temporary file, fontTools' conversion and
      [pdfmetrics.registerFont(RLTTFont(family, path))] for the
      bytes of a custom font with its mime hint *)
  register_ttfont : string -> string -> string -> result unit;
  (** the background: the SVG conversion when the path ends in
      [.svg], the file and [%PDF-] checks, [_pdf_page_size_pt] *)
  background_page_size : string -> result (float * float);
  (** [svg_to_pdf_cached_original_size] and [_pdf_page_size_pt]
      for the key of an SVG overlay *)
  overlay_page_size : string -> result (float * float);
  (** [cairosvg.svg2pdf] and [_pdf_page_size_pt] for the bytes of
      an inline SVG overlay *)
  inline_svg_page_size : string -> result (float * float);
  (** [ImageReader(io.BytesIO(raw_bytes))] *)
  read_image : string -> result unit;
  (** [colors.HexColor] for a [#...] string, [colors.toColor]
      otherwise; [None] when they raise *)
  to_color : string -> option string
}.

(** *** The canvas

    ReportLab's canvas is written to and never read back: it is the
    sequence of the calls made on it. *)
Inductive form : Type :=
| BackgroundForm
| OverlayForm (svg_s3_key : string)
| InlineSvgForm (raw_bytes : string).

Inductive text_op : Type :=
| SetTextOrigin (x y : float)
| SetFont (name : string) (size : float)
| SetFillColor (c : string)
| TextOut (ch : ascii)
| MoveCursor (dx dy : float).

Inductive canvas_op : Type :=
| SaveState
| RestoreState
(** [p = beginPath(); p.rect(x, y, w, h); clipPath(p, stroke=0, fill=0)] *)
| ClipRect (x y w h : float)
| Translate (dx dy : float)
| Rotate (deg : float)
| Scale (sx sy : float)
| DoForm (f : form)
| DrawImage (raw_bytes : string) (x y w h : float)
| DrawText (t : list text_op)
| ShowPage
| Save.

(** *** Helpers of the module *)

Definition _decode_data_url (wd : world) (data_url : string)
  : result (string * string) :=
  let s := or_str data_url "" in
  if negb (startswith s "data:") then Raise (ValueError "Invalid data_url")
  else
    let '(header, payload) := partition "," s in
    match payload with
    | EmptyString => Raise (ValueError "Invalid data_url")
    | _ =>
        let mime :=
          if startswith header "data:"
          then fst (partition ";" (drop 5 header)) else "" in
        let is_base64 := contains header ";base64" in
        if is_base64 then
          raw <- b64decode wd payload ;;
          Ok (raw, mime)
        else Ok (payload, mime)
    end.

(** The loop of [_register_custom_fonts]; the state is the set
    [registered]. *)
Definition register_custom_font (wd : world) (registered : list string)
           (f : CustomFont.t) : result (list string) :=
  let family := strip (or_str (CustomFont.family f) "") in
  let data_url := strip (or_str (CustomFont.data_url f) "") in
  match family, data_url with
  | EmptyString, _ | _, EmptyString => Ok registered
  | _, _ =>
      if mem family registered then Ok registered
      else
        ' (raw_bytes, _) <- _decode_data_url wd data_url ;;
        let hint_mime := lower (strip (or_str (CustomFont.mime f) "")) in
        _ <- register_ttfont wd family raw_bytes hint_mime ;;
        Ok (family :: registered)
  end.

Fixpoint _register_custom_fonts (wd : world) (registered : list string)
         (custom_fonts : list CustomFont.t) : result (list string) :=
  match custom_fonts with
  | [] => Ok registered
  | f :: rest =>
      registered' <- register_custom_font wd registered f ;;
      _register_custom_fonts wd registered' rest
  end.

Definition _page_size_pt : float * float :=
  (mm_to_pt A4_WIDTH_MM, mm_to_pt A4_HEIGHT_MM).

(** The slot sizes the source passes in are not read: the object's
    size is [object_mm.w/h] alone. *)
Definition _object_size_pt (object_mm : ObjectBoxMm.t)
  : result (float * float) :=
  match ObjectBoxMm.w object_mm, ObjectBoxMm.h object_mm with
  | Some w_mm, Some h_mm =>
      let w_pt := mm_to_pt w_mm in
      let h_pt := mm_to_pt h_mm in
      if (w_pt <=? 0) || (h_pt <=? 0)
      then Raise (ValueError "object_mm.w and object_mm.h must be > 0")
      else Ok (w_pt, h_pt)
  | _, _ => Raise (ValueError "object_mm.w and object_mm.h are required")
  end.

(** [float(n)] for a slot index. *)
Definition float_of_index (n : Z) : float := OutlinedText.float_of_int n.

(** [mode == "exact_mm"] *)
Definition is_exact_mm (mode : string) : bool := String.eqb mode "exact_mm".

(** The mode [write_final_pdf] reads off the template. *)
Definition template_mode (t : Template) : string :=
  or_str (strip (or_str (render_mode t) "")) "legacy".

Definition transform_ops_of_rotation (rot : float) : list canvas_op :=
  if truthy rot then [Rotate rot] else [].

Definition _draw_overlay (wd : world) (ov : overlay)
           (object_x_pt object_y_pt object_h_pt : float)
  : result (list canvas_op) :=
  match ov with
  | OverlaySvg type x_mm y_mm scale rotation_deg svg_s3_key =>
      let overlay_type := lower (strip (or_str type "")) in
      let svg_s3_key := strip (or_str svg_s3_key "") in
      match svg_s3_key with
      | String _ _ =>
          if String.eqb overlay_type "svg" then
            let rot := or_zero rotation_deg in
            if scale <=? 0 then Ok []
            else
              ' (ov_w_pt, ov_h_pt) <- overlay_page_size wd svg_s3_key ;;
              if (ov_w_pt <=? 0) || (ov_h_pt <=? 0)
              then Raise (ValueError "INVALID_OVERLAY_SVG")
              else
                let x_pt := object_x_pt + mm_to_pt x_mm in
                let y_top_pt := object_y_pt + (object_h_pt - mm_to_pt y_mm) in
                let y_bottom_pt := y_top_pt - ov_h_pt in
                let cx := ov_w_pt / 2 in
                let cy := ov_h_pt / 2 in
                Ok ([SaveState; Translate x_pt y_bottom_pt; Translate cx cy]
                      ++ transform_ops_of_rotation rot
                      ++ [Scale scale scale; Translate (- cx) (- cy);
                          DoForm (OverlayForm svg_s3_key); RestoreState])
          else Ok []     (* no data_url in an SVG overlay *)
      | EmptyString => Ok []
      end
  | OverlayImage data_url mime x_mm y_mm w_mm h_mm rotation_deg =>
      let data_url := strip (or_str data_url "") in
      match data_url with
      | EmptyString => Ok []
      | _ =>
          let mime := lower (strip (or_str mime "")) in
          let rot := or_zero rotation_deg in
          let w_pt := mm_to_pt w_mm in
          let h_pt := mm_to_pt h_mm in
          let x_pt := object_x_pt + mm_to_pt x_mm in
          let y_bottom_pt := object_y_pt + (object_h_pt - mm_to_pt y_mm - h_pt) in
          ' (raw_bytes, mime_from_url) <- _decode_data_url wd data_url ;;
          let effective_mime := or_str mime (or_str mime_from_url "") in
          let head :=
            [SaveState; Translate x_pt (y_bottom_pt + h_pt)]
              ++ transform_ops_of_rotation rot
              ++ [Translate 0 (- h_pt)] in
          if contains effective_mime "svg" then
            ' (ov_w_pt, ov_h_pt) <- inline_svg_page_size wd raw_bytes ;;
            if (ov_w_pt <=? 0) || (ov_h_pt <=? 0)
            then Raise (ValueError "INVALID_OVERLAY_SVG")
            else
              let scale_x := w_pt / ov_w_pt in
              let scale_y := h_pt / ov_h_pt in
              Ok (head ++ [Scale scale_x scale_y;
                           DoForm (InlineSvgForm raw_bytes); RestoreState])
          else
            _ <- read_image wd raw_bytes ;;
            Ok (head ++ [DrawImage raw_bytes 0 0 w_pt h_pt; RestoreState])
      end
  end.

(** [for ov in overlays: _draw_overlay(...)] *)
Fixpoint draw_overlays (wd : world) (ovs : list overlay)
         (object_x_pt object_y_pt object_h_pt : float)
  : result (list canvas_op) :=
  match ovs with
  | [] => Ok []
  | ov :: rest =>
      ops <- _draw_overlay wd ov object_x_pt object_y_pt object_h_pt ;;
      ops' <- draw_overlays wd rest object_x_pt object_y_pt object_h_pt ;;
      Ok (ops ++ ops')
  end.

(** *** [write_final_pdf] *)

(** The list [per_letter_sizes_mm]: the entries that are numbers
    above zero, in their order. *)
Definition per_letter_sizes (raw : option (list float)) : option (list float) :=
  match raw with
  | None => None
  | Some l => Some (filter (fun n => 0 <? n) l)
  end.

(** [size_mm] of the glyph at index [i]. *)
Definition glyph_size_mm (per_letter_sizes_mm : option (list float))
           (font_size_mm : float) (i : nat) : float :=
  match per_letter_sizes_mm with
  | Some (a :: l) =>
      match nth_error (a :: l) i with
      | Some v => v
      | None => font_size_mm
      end
  | _ => font_size_mm
  end.

Definition cut_margin_mm_of (object_box_cfg : ObjectBoxMm.t) : float :=
  let cut_margin_mm :=
    match ObjectBoxMm.cut_margin_mm object_box_cfg with
    | Some v => v
    | None => 0
    end in
  if cut_margin_mm <? 0 then 0 else cut_margin_mm.

(** What [write_final_pdf] has in hand when the loops start. *)
Record locals : Type := mk_locals {
  mode : string;
  count : Z;
  resolved_font_family : string;
  font_size_mm : float;
  font_size_pt : float;
  per_letter_sizes_mm : option (list float);
  prefix : string;
  base : Z;
  width : nat;
  page_w_pt : float;
  page_h_pt : float;
  svg_w_pt : float;
  svg_h_pt : float;
  slot_w_pt : float;
  cut_margin_mm : float;
  cut_margin_pt : float;
  slot_h_pt : float;
  slot_h_mm : float;
  total_pages : Z
}.

(** Everything up to the loops. *)
Definition prepare (wd : world) (t : Template) : result locals :=
  let series_cfg := series_config t in
  let count := SeriesConfig.count series_cfg in
  if (count <=? 0)%Z then Raise (ValueError "series.count must be > 0")
  else
    registered <-
      _register_custom_fonts wd (FontRegistry.registered_names (fonts wd))
                             (custom_fonts t) ;;
    let requested_font_family :=
      strip (or_str (SeriesConfig.font_family series_cfg) "") in
    ' (resolved_font_family, _, _) <-
      FontRegistry.resolve_font_family
        (FontRegistry.mk_env (FontRegistry.font_files (fonts wd)) registered
                             (FontRegistry.register_font (fonts wd)))
        requested_font_family ;;
    let font_size_mm := SeriesConfig.font_size_mm series_cfg in
    if font_size_mm <=? 0 then Raise (ValueError "series.font_size_mm must be > 0")
    else
      let per_letter_sizes_mm :=
        per_letter_sizes (SeriesConfig.per_letter_font_size_mm series_cfg) in
      ' (prefix, base, width) <-
        _parse_series_start (SeriesConfig.start series_cfg) ;;
      let '(page_w_pt, page_h_pt) := _page_size_pt in
      ' (svg_w_pt, svg_h_pt) <-
        background_page_size wd (background_pdf_path t) ;;
      let font_size_pt := mm_to_pt font_size_mm in
      let slot_w_pt := page_w_pt in
      let mode := template_mode t in
      let object_box_cfg := object_box_mm t in
      let cut_margin_mm := cut_margin_mm_of object_box_cfg in
      let cut_margin_pt := mm_to_pt cut_margin_mm in
      let slot_h_pt :=
        if is_exact_mm mode
        then (page_h_pt - (3 * cut_margin_pt)) / 4
        else page_h_pt / 4 in
      let slot_h_mm := slot_h_pt / mm_to_pt 1 in
      let total_pages := ((count + (OBJECTS_PER_PAGE - 1)) / OBJECTS_PER_PAGE)%Z in
      Ok (mk_locals mode count resolved_font_family font_size_mm font_size_pt
                    per_letter_sizes_mm prefix base width page_w_pt page_h_pt
                    svg_w_pt svg_h_pt slot_w_pt cut_margin_mm cut_margin_pt
                    slot_h_pt slot_h_mm total_pages).

(** The slot's origin: [(slot_x_pt, slot_y_pt, slot_y_top_pt)]. *)
Definition slot_origin (L : locals) (slot_index : Z) : float * float * float :=
  if is_exact_mm (mode L) then
    let slot_x_mm := 0 in
    let slot_y_mm := float_of_index slot_index * (slot_h_mm L + cut_margin_mm L) in
    let slot_x_pt := mm_to_pt slot_x_mm in
    let slot_y_top_pt := mm_to_pt slot_y_mm in
    let slot_y_pt := page_h_pt L - slot_y_top_pt - slot_h_pt L in
    (slot_x_pt, slot_y_pt, slot_y_top_pt)
  else
    let slot_x_pt := 0 in
    let slot_y_pt := page_h_pt L - (float_of_index (slot_index + 1) * slot_h_pt L) in
    let slot_y_top_pt := page_h_pt L - slot_y_pt - slot_h_pt L in
    (slot_x_pt, slot_y_pt, slot_y_top_pt).

(** [alignment] as both branches read it. *)
Definition alignment_of (object_box_cfg : ObjectBoxMm.t) : string :=
  lower (strip (opt_or_str (ObjectBoxMm.alignment object_box_cfg) "center")).

(** [x_mm = cfg.get("x_mm")], falling back on [cfg.get("x")]. *)
Definition x_mm_of (object_box_cfg : ObjectBoxMm.t) : option float :=
  match ObjectBoxMm.x_mm object_box_cfg with
  | Some v => Some v
  | None => ObjectBoxMm.x object_box_cfg
  end.

Definition y_mm_of (object_box_cfg : ObjectBoxMm.t) : option float :=
  match ObjectBoxMm.y_mm object_box_cfg with
  | Some v => Some v
  | None => ObjectBoxMm.y object_box_cfg
  end.

(** [object_x_pt] of the [exact_mm] branch. *)
Definition exact_object_x_pt (object_box_cfg : ObjectBoxMm.t)
           (slot_x_pt slot_w_pt page_w_pt object_w_pt : float) : float :=
  let x_mm := x_mm_of object_box_cfg in
  let x_offset_pt := match x_mm with Some v => mm_to_pt v | None => 0 end in
  let aligned :=
    let alignment := alignment_of object_box_cfg in
    let base_x :=
      if String.eqb alignment "left" then slot_x_pt
      else if String.eqb alignment "right" then slot_x_pt + slot_w_pt - object_w_pt
      else slot_x_pt + (slot_w_pt - object_w_pt) / 2 in
    base_x + x_offset_pt in
  match x_mm with
  | Some v =>
      if v =? 0 then
        let alignment := alignment_of object_box_cfg in
        if String.eqb alignment "right" then
          let page_left_pt := 0 in
          (page_left_pt + page_w_pt) - object_w_pt
        else
          let page_left_pt := 0 in
          page_left_pt
      else aligned
  | None => aligned
  end.

(** [(object_x_pt, object_y_pt)] *)
Definition object_origin (L : locals) (object_box_cfg : ObjectBoxMm.t)
           (slot_x_pt slot_y_pt slot_y_top_pt object_w_pt object_h_pt : float)
  : float * float :=
  if is_exact_mm (mode L) then
    let object_x_pt :=
      exact_object_x_pt object_box_cfg slot_x_pt (slot_w_pt L) (page_w_pt L)
                        object_w_pt in
    let y_offset_pt :=
      match y_mm_of object_box_cfg with Some v => mm_to_pt v | None => 0 end in
    let object_y_pt := (page_h_pt L - slot_y_top_pt) - object_h_pt - y_offset_pt in
    (object_x_pt, object_y_pt)
  else
    (slot_x_pt + (slot_w_pt L - object_w_pt) / 2,
     slot_y_pt + (slot_h_pt L - object_h_pt) / 2).

(** From [canvas.saveState()] to [canvas.restoreState()]: the clip
    and the background form.  [DEBUG_DRAW_OBJECT_BOX] is [False]: its
    branch draws nothing. *)
Definition background_ops (L : locals) (object_box_cfg : ObjectBoxMm.t)
           (slot_x_pt slot_y_pt object_x_pt object_y_pt object_w_pt object_h_pt
              scale_x scale_y : float) : list canvas_op :=
  [SaveState]
    ++ (if is_exact_mm (mode L)
        then [ClipRect slot_x_pt slot_y_pt (slot_w_pt L) (slot_h_pt L)]
        else [ClipRect object_x_pt object_y_pt object_w_pt object_h_pt])
    ++ (if is_exact_mm (mode L) then
          let rotation_deg :=
            match ObjectBoxMm.rotation_deg object_box_cfg with
            | Some v => v
            | None => 0
            end in
          [Translate (object_x_pt + (object_w_pt / 2))
                     (object_y_pt + (object_h_pt / 2));
           Rotate rotation_deg;
           Scale scale_x scale_y;
           Translate (- svg_w_pt L / 2) (- svg_h_pt L / 2)]
        else
          [Translate object_x_pt object_y_pt; Scale scale_x scale_y])
    ++ [DoForm BackgroundForm; RestoreState].

(** The loop over the characters of the serial. *)
Fixpoint glyph_ops (L : locals) (advance_pt : float) (i : nat)
         (serial : list ascii) : list text_op :=
  match serial with
  | [] => []
  | ch :: rest =>
      let size_mm := glyph_size_mm (per_letter_sizes_mm L) (font_size_mm L) i in
      let size_pt := mm_to_pt size_mm in
      [SetFont (resolved_font_family L) size_pt; TextOut ch]
        ++ (if truthy advance_pt then [MoveCursor advance_pt 0] else [])
        ++ glyph_ops L advance_pt (S i) rest
  end.

(** From the check of the anchor to the [restoreState] that follows
    [drawText]. *)
Definition series_ops (wd : world) (L : locals) (series_cfg : SeriesConfig.t)
           (object_x_pt object_y_pt object_h_pt : float) (serial_index : Z)
  : result (list canvas_op * (float * float)) :=
  let anchor_space := lower (strip (or_str (SeriesConfig.anchor_space series_cfg) "")) in
  match SeriesConfig.x_mm series_cfg, SeriesConfig.y_mm series_cfg with
  | Some x_mm_series, Some y_mm_series =>
      if negb (String.eqb anchor_space "object_mm") then
        Raise (ValueError
                 "series placement invalid: requires anchor_space=object_mm and x_mm/y_mm")
      else
        let pdf_x_pt := object_x_pt + mm_to_pt x_mm_series in
        let pdf_y_pt :=
          object_y_pt
          + (object_h_pt - mm_to_pt (y_mm_series + BASELINE_CORRECTION_MM)) in
        let series_rotation_deg := or_zero (SeriesConfig.rotation_deg series_cfg) in
        let letter_spacing_mm := or_zero (SeriesConfig.letter_spacing_mm series_cfg) in
        let series_color_raw := strip (or_str (SeriesConfig.color series_cfg) "#000000") in
        let fill_color :=
          match to_color wd series_color_raw with
          | Some c => c
          | None => "black"
          end in
        let serial := _series_value (prefix L) (base L) (width L) serial_index in
        let advance_pt := mm_to_pt letter_spacing_mm in
        let text_obj :=
          [SetTextOrigin 0 0;
           SetFont (resolved_font_family L) (font_size_pt L);
           SetFillColor fill_color]
            ++ glyph_ops L advance_pt 0 (list_ascii_of_string serial) in
        Ok ([SaveState; Translate pdf_x_pt pdf_y_pt]
              ++ (if negb (series_rotation_deg =? 0)
                  then [Rotate series_rotation_deg] else [])
              ++ [DrawText text_obj; RestoreState],
            (pdf_x_pt, pdf_y_pt))
  | _, _ =>
      Raise (ValueError
               "series placement invalid: requires anchor_space=object_mm and x_mm/y_mm")
  end.

(** The diagnostics recorded for the first object: its size, origin
    and scale factors, and the anchor of the serial, in points. *)
Record engine_metrics : Type := mk_metrics {
  object_pt : float * float;
  object_origin_pt : float * float;
  scale : float * float;
  series_pdf_pt : float * float
}.

(** The body of the inner loop for a slot that is filled: what it
    draws, and the diagnostics of this object. *)
Definition fill_slot (wd : world) (t : Template) (L : locals)
           (slot_index serial_index : Z)
  : result (list canvas_op * engine_metrics) :=
  let object_box_cfg := object_box_mm t in
  let '(slot_x_pt, slot_y_pt, slot_y_top_pt) := slot_origin L slot_index in
  ' (object_w_pt, object_h_pt) <- _object_size_pt (object_box_mm t) ;;
  if negb (is_exact_mm (mode L))
     && ((slot_w_pt L <? object_w_pt) || (slot_h_pt L <? object_h_pt))
  then Raise (ValueError "Object size exceeds slot size")
  else
    let '(object_x_pt, object_y_pt) :=
      object_origin L object_box_cfg slot_x_pt slot_y_pt slot_y_top_pt
                    object_w_pt object_h_pt in
    if (svg_w_pt L <=? 0) || (svg_h_pt L <=? 0)
    then Raise (ValueError "SVG-PDF MediaBox must be > 0")
    else
      let scale_x := object_w_pt / svg_w_pt L in
      let scale_y := object_h_pt / svg_h_pt L in
      let bg :=
        background_ops L object_box_cfg slot_x_pt slot_y_pt object_x_pt
                       object_y_pt object_w_pt object_h_pt scale_x scale_y in
      ov <- draw_overlays wd (overlays t) object_x_pt object_y_pt object_h_pt ;;
      ' (txt, pdf_pt) <-
        series_ops wd L (series_config t) object_x_pt object_y_pt object_h_pt
                   serial_index ;;
      Ok (bg ++ ov ++ txt,
          mk_metrics (object_w_pt, object_h_pt) (object_x_pt, object_y_pt)
                     (scale_x, scale_y) pdf_pt).

(** The state the loops carry. *)
Record loop_state : Type := mk_loop_state {
  serial_index : Z;
  canvas : list canvas_op;
  metrics : option engine_metrics
}.

(** The body of [for slot_index in range(OBJECTS_PER_PAGE)]. *)
Definition slot_step (wd : world) (t : Template) (L : locals)
           (st : loop_state) (slot_index : Z) : result loop_state :=
  if (count L <=? serial_index st)%Z then Ok st
  else
    ' (ops, m) <- fill_slot wd t L slot_index (serial_index st) ;;
    let serial_index' := (serial_index st + 1)%Z in
    Ok (mk_loop_state serial_index' (canvas st ++ ops)
                      (if (serial_index' =? 1)%Z then Some m else metrics st)).

(** [for x in xs: st = body(st, x)], stopping at the first exception. *)
Fixpoint for_each {S A} (body : S -> A -> result S) (xs : list A) (st : S)
  : result S :=
  match xs with
  | [] => Ok st
  | x :: xs' =>
      st' <- body st x ;;
      for_each body xs' st'
  end.

(** [range(n)] *)
Definition range (n : Z) : list Z := map Z.of_nat (seq 0 (Z.to_nat n)).

(** The body of [for _page in range(total_pages)]. *)
Definition page_step (wd : world) (t : Template) (L : locals)
           (st : loop_state) (_page : Z) : result loop_state :=
  st' <- for_each (slot_step wd t L) (range OBJECTS_PER_PAGE) st ;;
  Ok (mk_loop_state (serial_index st') (canvas st' ++ [ShowPage]) (metrics st')).

(** [(total_pages, canvas, engine_metrics)]: the path of the output
    file is the one passed in and is left out. *)
Definition write_final_pdf (wd : world) (t : Template)
  : result (Z * list canvas_op * option engine_metrics) :=
  L <- prepare wd t ;;
  st <- for_each (page_step wd t L) (range (total_pages L))
                 (mk_loop_state 0 [] None) ;;
  Ok (total_pages L, canvas st ++ [Save], metrics st).

End PdfWriter.

(* ================================================================== *)
(** ** Reading a canvas

    What a sequence of canvas calls means for the questions asked
    below: which clip is in force when a call draws, and which serials
    a sequence prints. *)

Module Canvas.

Import PdfWriter.

Definition rect : Type := (float * float * float * float)%type.

(** The graphics state, as far as clipping goes: the rectangles the
    current clip is the intersection of, and the clips that
    [saveState] has put aside. *)
Record gstate : Type := mk_gstate {
  clip : list rect;
  saved : list (list rect)
}.

(** A fresh page. *)
Definition INITIAL : gstate := mk_gstate [] [].

Definition step (g : gstate) (op : canvas_op) : gstate :=
  match op with
  | SaveState => mk_gstate (clip g) (clip g :: saved g)
  | RestoreState =>
      match saved g with
      | c :: rest => mk_gstate c rest
      | [] => g
      end
  | ClipRect x y w h => mk_gstate ((x, y, w, h) :: clip g) (saved g)
  | ShowPage => INITIAL
  | _ => g
  end.

Definition run (g : gstate) (ops : list canvas_op) : gstate :=
  fold_left step ops g.

(** Every call with the clip in force when it is made. *)
Fixpoint clips_from (g : gstate) (ops : list canvas_op)
  : list (canvas_op * list rect) :=
  match ops with
  | [] => []
  | op :: rest => (op, clip g) :: clips_from (step g op) rest
  end.

(** The calls that paint an overlay. *)
Definition is_overlay_draw (op : canvas_op) : bool :=
  match op with
  | DoForm (OverlayForm _) | DoForm (InlineSvgForm _) | DrawImage _ _ _ _ _ => true
  | _ => false
  end.

(** The characters a text object puts out. *)
Fixpoint text_of (t : list text_op) : string :=
  match t with
  | [] => EmptyString
  | TextOut ch :: rest => String ch (text_of rest)
  | _ :: rest => text_of rest
  end.

(** The strings a sequence of calls prints, in order. *)
Fixpoint drawn_text (ops : list canvas_op) : list string :=
  match ops with
  | [] => []
  | DrawText t :: rest => text_of t :: drawn_text rest
  | _ :: rest => drawn_text rest
  end.

(** What the slot [slot] of page [page] holds: the object of index
    [4 * page + slot] when the series reaches that far, nothing
    otherwise. *)
Definition slot_drawing (wd : world) (t : Template) (L : locals)
           (page slot : Z) : list canvas_op :=
  let i := (OBJECTS_PER_PAGE * page + slot)%Z in
  if (i <? count L)%Z then
    match fill_slot wd t L slot i with
    | Ok (ops, _) => ops
    | Raise _ => []
    end
  else [].

Definition page_drawing (wd : world) (t : Template) (L : locals)
           (page : Z) : list canvas_op :=
  flat_map (slot_drawing wd t L page) (range OBJECTS_PER_PAGE) ++ [ShowPage].

(** The whole document in raster order: page after page, slot
    after slot. *)
Definition document (wd : world) (t : Template) (L : locals) : list canvas_op :=
  flat_map (page_drawing wd t L) (range (total_pages L)) ++ [Save].

(** No clip is in force, and none is waiting to be restored. *)
Definition unclipped (g : gstate) : Prop :=
  clip g = [] /\ Forall (fun c => c = []) (saved g).

(** A call that neither clips nor places the background. *)
Definition after_background (op : canvas_op) : bool :=
  match op with
  | ClipRect _ _ _ _ | DoForm BackgroundForm => false
  | _ => true
  end.





End Canvas.

(* ================================================================== *)
(** ** Reading a font's tables

    [_font_family_from_file] of [app/services/font_registry.py] and
    [_build_kern_pairs] of [app/services/outlined_text.py]: the two
    loops over what fontTools has parsed. *)

Module FontTables.

(** One record of the [name] table: its [nameID] and [platformID]
    ([None] when the attribute is missing), what [rec.toUnicode()]
    answers and what [str(rec.string, errors="ignore")] answers. *)
Record name_record : Type := mk_name_record {
  nameID : option Z;
  platformID : option Z;
  toUnicode : result string;
  string_ignore : result string
}.

(** [a == n] for an attribute that may be missing. *)
Definition attr_is (a : option Z) (n : Z) : bool :=
  match a with Some v => (v =? n)%Z | None => false end.

(** The two nested [try] blocks: the value of a record, or [None]
    where the loop goes on to the next record. *)
Definition record_value (rec : name_record) : option string :=
  match toUnicode rec with
  | Ok value => Some value
  | Raise _ =>
      match string_ignore rec with
      | Ok value => Some value
      | Raise _ => None
      end
  end.

(** [for rec in names: ...], with [best] carried along; the [break]
    is the branch that does not go on. *)
Fixpoint family_loop (names : list name_record) (best : option string)
  : option string :=
  match names with
  | [] => best
  | rec :: rest =>
      if negb (attr_is (nameID rec) 1) then family_loop rest best
      else
        match record_value rec with
        | None => family_loop rest best
        | Some EmptyString => family_loop rest best
        | Some value =>
            if attr_is (platformID rec) 3 then Some value
            else family_loop rest (Some value)
        end
  end.

(** The font file as fontTools reads it: [FTFont(path)] may raise,
    and so may [font["name"]]. *)
Definition _font_family_from_file (font : result (result (list name_record)))
  : option string :=
  match font with
  | Ok (Ok names) => family_loop names None
  | _ => None
  end.

(** One subtable of the [kern] table: [coverage] (0 when missing)
    and the items of [kernTable] (none when missing). *)
Record kern_subtable : Type := mk_kern_subtable {
  coverage : Z;
  kernTable : list (string * string * Z)
}.

(** [dict[tuple[str, str], float]] *)
Definition pairs : Type := string -> string -> option float.

(** [pairs[(left, right)] = value] *)
Definition set_pair (p : pairs) (left_name right_name : string) (value : float)
  : pairs :=
  fun l r =>
    if String.eqb l left_name && String.eqb r right_name then Some value else p l r.

Definition add_item (p : pairs) (item : string * string * Z) : pairs :=
  let '(left_name, right_name, val) := item in
  if (val =? 0)%Z then p
  else set_pair p left_name right_name (OutlinedText.float_of_int val).

Definition add_subtable (p : pairs) (st : kern_subtable) : pairs :=
  if (Z.land (coverage st) 1 =? 0)%Z then p
  else fold_left add_item (kernTable st) p.

(** The table: [None] when the font has no [kern] table, a failure
    when reading it raises. *)
Definition _build_kern_pairs (kern : result (option (list kern_subtable))) : pairs :=
  match kern with
  | Ok (Some kernTables) => fold_left add_subtable kernTables (fun _ _ => None)
  | _ => fun _ _ => None
  end.

End FontTables.

(* ================================================================== *)
(** ** Settings ([app/config.py]) *)

Module Config.

(** *** [int(s)] for a string

    Base 10: white space around, an optional sign, and digits that
    single underscores may separate.  The white space [int] skips is
    not that of [str.strip]: the separators 0x1C-0x1F are not
    skipped. *)
Definition int_isspace (c : ascii) : bool :=
  let n := nat_of_ascii c in
  (((9 <=? n) && (n <=? 13)) || (n =? 32) || (n =? 133) || (n =? 160))%nat.

Fixpoint skip_spaces (l : list ascii) : list ascii :=
  match l with
  | c :: l' => if int_isspace c then skip_spaces l' else l
  | [] => []
  end.

Definition int_strip (l : list ascii) : list ascii :=
  rev (skip_spaces (rev (skip_spaces l))).

(** The digits of [digit (_? digit)*], [None] for anything else. *)
Fixpoint digit_run (l : list ascii) : option (list ascii) :=
  match l with
  | [] => None
  | c :: rest =>
      if isdigit c then
        match rest with
        | [] => Some [c]
        | u :: rest' =>
            if Ascii.eqb u "_" then option_map (cons c) (digit_run rest')
            else option_map (cons c) (digit_run rest)
        end
      else None
  end.

(** [sys.int_info.default_max_str_digits] *)
Definition INT_MAX_STR_DIGITS : nat := 4300.

(** The two failures are both [ValueError]; their messages quote
    the literal and are cut short here. *)
Definition int_of_str (s : string) : result Z :=
  let body := int_strip (list_ascii_of_string s) in
  let '(negative, rest) :=
    match body with
    | c :: r =>
        if Ascii.eqb c "-" then (true, r)
        else if Ascii.eqb c "+" then (false, r)
        else (false, body)
    | [] => (false, body)
    end in
  match digit_run rest with
  | Some ds =>
      if (INT_MAX_STR_DIGITS <? List.length ds)%nat
      then Raise (ValueError "Exceeds the limit (4300 digits) for integer string conversion")
      else Ok (if negative then (- int_of_digits ds)%Z else int_of_digits ds)
  | None => Raise (ValueError "invalid literal for int() with base 10")
  end.

(** [try: m  except ValueError as e: h] *)
Definition except_ValueError {A} (m : result A) (h : string -> result A) : result A :=
  match m with
  | Raise (ValueError msg) => h msg
  | _ => m
  end.

(** *** The module *)

(** [os.getenv] *)
Definition environ : Type := string -> option string.

Definition env (getenv : environ) (key : string) (default : option string)
           (required : bool) : result string :=
  match getenv key with
  | Some (String c v) => Ok (String c v)
  | _ =>
      if required
      then Raise (RuntimeError ("Missing required env var: " ++ key))
      else Ok (match default with None => "" | Some d => d end)
  end.

Record Settings : Type := mk_settings {
  APP_ENV : string;
  SERVICE_PORT : Z;
  INTERNAL_API_KEY : string;
  S3_BUCKET : string;
  S3_REGION : string;
  S3_ENDPOINT : string;
  S3_ACCESS_KEY_ID : string;
  S3_SECRET_ACCESS_KEY : string
}.

Definition load_settings (getenv : environ) : result Settings :=
  app_env <- env getenv "APP_ENV" (Some "development") false ;;
  port <- env getenv "PORT" None false ;;
  service_port_raw <-
    match port with
    | EmptyString => env getenv "SERVICE_PORT" (Some "9000") false
    | _ => Ok port
    end ;;
  service_port <-
    except_ValueError (int_of_str service_port_raw)
                      (fun _ => Raise (RuntimeError "SERVICE_PORT must be an integer")) ;;
  internal_api_key <- env getenv "INTERNAL_API_KEY" None true ;;
  s3_bucket <- env getenv "S3_BUCKET" None true ;;
  s3_region <- env getenv "S3_REGION" None true ;;
  s3_endpoint <- env getenv "S3_ENDPOINT" (Some "") false ;;
  s3_access_key_id <- env getenv "S3_ACCESS_KEY_ID" None true ;;
  s3_secret_access_key <- env getenv "S3_SECRET_ACCESS_KEY" None true ;;
  Ok (mk_settings app_env service_port internal_api_key s3_bucket s3_region
                  s3_endpoint s3_access_key_id s3_secret_access_key).

(** The variables [load_settings] cannot do without. *)
Definition REQUIRED : list string :=
  ["INTERNAL_API_KEY"; "S3_BUCKET"; "S3_REGION"; "S3_ACCESS_KEY_ID";
   "S3_SECRET_ACCESS_KEY"].

End Config.

(* ================================================================== *)
(** ** SVG to PDF, cached ([app/services/normalize.py])

    The file system is a map from paths to files and directories; it
    is threaded through the function.  S3 and cairosvg are the
    world's. *)

Module Normalize.

Definition SVG_TO_PDF_VERSION : string := "orig_v1".

(** [cache_dir]: no caller passes one, it is always the default. *)
Definition CACHE_DIR : string := "tmp/templates".

Inductive node : Type :=
| File (content : string)
| Directory.

Definition fs : Type := string -> option node.

Definition put (st : fs) (path : string) (n : option node) : fs :=
  fun q => if String.eqb q path then n else st q.

(** [download_s3_object_bytes(settings, key)], and
    [cairosvg.svg2pdf(bytestring=..., write_to=...)]: whether it
    returns, and what it has left in the file it was to write
    ([None]: nothing).  The flag tells it whether the file can be
    written at all. *)
Record world : Type := mk_world {
  download_s3_object_bytes : string -> result string;
  svg2pdf : string -> bool -> result unit * option string
}.

Definition OSError (msg : string) : exn := OtherError msg.

Definition is_dir (st : fs) (path : string) : bool :=
  match st path with Some Directory => true | _ => false end.

Definition _read_svg_bytes (w : world) (st : fs) (svg_s3_key : string)
  : result string :=
  match st svg_s3_key with
  | Some (File content) => Ok content
  | _ => download_s3_object_bytes w svg_s3_key
  end.

(** [_ensure_dir]: the parents of the cache directory are taken to
    be directories. *)
Definition _ensure_dir (st : fs) (path : string) : fs :=
  match st path with
  | None => put st path (Some Directory)
  | Some _ => st
  end.

(** [path.exists()] for a path of the cache directory. *)
Definition path_exists (st : fs) (path : string) : bool :=
  is_dir st CACHE_DIR && match st path with Some _ => true | None => false end.

(** [with open(path, "rb") as f: head = f.read(5)] *)
Definition read_head (st : fs) (path : string) : result string :=
  if is_dir st CACHE_DIR then
    match st path with
    | Some (File content) => Ok (substring 0 5 content)
    | Some Directory => Raise (OSError "IsADirectoryError")
    | None => Raise (OSError "FileNotFoundError")
    end
  else Raise (OSError "NotADirectoryError").

(** [try: path.unlink(missing_ok=True)  except OSError: pass] *)
Definition unlink_quietly (st : fs) (path : string) : fs :=
  if is_dir st CACHE_DIR then
    match st path with
    | Some (File _) => put st path None
    | _ => st
    end
  else st.

(** Whether a file can be created or replaced at [path]. *)
Definition writable (st : fs) (path : string) : bool :=
  is_dir st CACHE_DIR && negb (is_dir st path).

Definition cached_path (svg_hash : string) : string :=
  CACHE_DIR ++ "/" ++ svg_hash ++ "_" ++ SVG_TO_PDF_VERSION ++ ".pdf".

(** From [cairosvg.svg2pdf] to the end. *)
Definition convert (w : world) (st : fs) (svg_bytes svg_hash cached_pdf_path : string)
  : result (string * string) * fs :=
  let can_write := writable st cached_pdf_path in
  let '(outcome, written) := svg2pdf w svg_bytes can_write in
  let st :=
    match written with
    | Some content =>
        if can_write then put st cached_pdf_path (Some (File content)) else st
    | None => st
    end in
  match outcome with
  | Raise e => (Raise e, st)
  | Ok _ =>
      let head :=
        match read_head st cached_pdf_path with
        | Ok head => head
        | Raise _ => ""
        end in
      if negb (String.eqb head "%PDF-") then
        (Raise (RuntimeError "INVALID_SVG_TO_PDF_OUTPUT: expected PDF"),
         unlink_quietly st cached_pdf_path)
      else (Ok (svg_hash, cached_pdf_path), st)
  end.

Definition svg_to_pdf_cached_original_size (w : world) (st : fs) (svg_s3_key : string)
  : result (string * string) * fs :=
  match _read_svg_bytes w st svg_s3_key with
  | Raise e => (Raise e, st)
  | Ok svg_bytes =>
      let svg_hash := Hash.sha256_hex svg_bytes in
      let st := _ensure_dir st CACHE_DIR in
      let cached_pdf_path := cached_path svg_hash in
      if path_exists st cached_pdf_path then
        match read_head st cached_pdf_path with
        | Ok head =>
            if String.eqb head "%PDF-" then (Ok (svg_hash, cached_pdf_path), st)
            else convert w (unlink_quietly st cached_pdf_path)
                         svg_bytes svg_hash cached_pdf_path
        | Raise _ =>
            convert w (unlink_quietly st cached_pdf_path)
                    svg_bytes svg_hash cached_pdf_path
        end
      else convert w st svg_bytes svg_hash cached_pdf_path
  end.

End Normalize.

(* ================================================================== *)
(** ** The fonts endpoint ([app/main.py]) *)

Module Main.

(** What an endpoint answers: a body, or the [HTTPException] it
    raises. *)
Inductive http (A : Type) : Type :=
| Response (body : A)
| HTTPException (status_code : Z) (detail : string).
Arguments Response {A} body.
Arguments HTTPException {A} status_code detail.

(** [fonts_endpoint]: the registry is the one [get_font_registry]
    built from the font files it found when first called. *)
Definition fonts_endpoint (INTERNAL_API_KEY : string)
           (files : list FontRegistry.font_file) (x_internal_key : string)
  : http (list (string * string)) :=
  if negb (String.eqb x_internal_key INTERNAL_API_KEY)
  then HTTPException 401 "Unauthorized"
  else
    let fonts := FontRegistry.get_font_registry files in
    Response
      (map (fun f => (or_str (FontRegistry.family f) "",
                      or_str (FontRegistry.source f) "unknown"))
           (filter (fun f =>
                      match strip (or_str (FontRegistry.family f) "") with
                      | EmptyString => false
                      | _ => true
                      end) fonts)).

End Main.

(* ================================================================== *)
(** ** Sample inputs *)

Module Samples.
Import PdfWriter.

Definition NEWLINE : string := String "010" EmptyString.

(** A machine with no font file and nothing registered. *)
Definition bare_fonts : FontRegistry.env :=
  FontRegistry.mk_env [] [] (fun _ _ => Ok tt).

(** A world whose files are all in place: a 100pt x 100pt
    background, 10pt x 10pt overlays. *)
Definition plain_world : world :=
  mk_world bare_fonts
           (fun s => Ok s)
           (fun _ _ _ => Ok tt)
           (fun _ => Ok (100, 100)%float)
           (fun _ => Ok (10, 10)%float)
           (fun _ => Ok (10, 10)%float)
           (fun _ => Ok tt)
           (fun _ => None).

(** [{w: 50, h: 30, x_mm: 0, alignment: a}] *)
Definition box_at_zero (a : string) : ObjectBoxMm.t :=
  ObjectBoxMm.mk None None (Some 0%float) None (Some 50%float) (Some 30%float)
                 (Some a) None None None.

(** The series of the end-to-end scenario: AB007, three of them. *)
Definition series_ab007 (per_letter : option (list float)) : SeriesConfig.t :=
  SeriesConfig.mk "AB007" 3 "object_mm" "Helvetica" 5 per_letter
                  (Some 2%float) (Some 2%float) 0 0 "#000000".

Definition png_overlay : overlay :=
  OverlayImage "data:image/png;base64,AAAA" "image/png" 1 1 5 5 0.

(** [repr] on the numbers of the sample. *)
Definition sample_float_repr (x : float) : string :=
  if (x =? 50)%float then "50.0"
  else if (x =? 30)%float then "30.0" else "0.0".

Definition sample_object_mm : Json.json :=
  Json.JDict [("w", Json.JFloat 50); ("h", Json.JFloat 30); ("alignment", Json.JStr "left")].

Definition sample_object_mm_reordered : Json.json :=
  Json.JDict [("alignment", Json.JStr "left"); ("h", Json.JFloat 30); ("w", Json.JFloat 50)].

Definition sample_series : Json.json :=
  Json.JDict [("start", Json.JStr "AB007"); ("count", Json.JInt 3)].


Definition template_of (box : ObjectBoxMm.t) (series : SeriesConfig.t)
           (ovs : list overlay) (mode : string) : Template :=
  mk_template "t" "bg.pdf" box series [] ovs mode.

Definition sample_job (mode : string) : Template :=
  template_of (box_at_zero "left") (series_ab007 None) [png_overlay] mode.

End Samples.

(* ================================================================== *)
(** * Properties *)

(** ** Strings *)

Section StringFacts.

Lemma or_str_empty_r (s : string) : or_str s "" = s.
Proof. now destruct s. Qed.

Lemma lstrip_head (s : string) (c : ascii) (r : string) :
  lstrip s = String c r -> isspace c = false.
Proof.
  induction s as [| a s IH]; simpl; [discriminate |].
  destruct (isspace a) eqn:Ha; [assumption |].
  intros H. injection H as -> _. assumption.
Qed.

Lemma rstrip_cons_nonspace (c : ascii) (r : string) :
  isspace c = false -> rstrip (String c r) = String c (rstrip r).
Proof. intros H. simpl. rewrite H. now destruct (rstrip r). Qed.

Lemma rstrip_idempotent (s : string) : rstrip (rstrip s) = rstrip s.
Proof.
  induction s as [| c s IH]; simpl; [reflexivity |].
  destruct (rstrip s) as [| a r] eqn:Hr.
  - destruct (isspace c) eqn:Hc; simpl; [reflexivity | now rewrite Hc].
  - change (rstrip (String c (String a r))) with
      (match rstrip (String a r) with
       | EmptyString => if isspace c then EmptyString else String c EmptyString
       | x => String c x
       end).
    now rewrite IH.
Qed.

Lemma strip_idempotent (s : string) : strip (strip s) = strip s.
Proof.
  unfold strip. destruct (lstrip s) as [| c r] eqn:Hl; [reflexivity |].
  pose proof (lstrip_head _ _ _ Hl) as Hc.
  rewrite (rstrip_cons_nonspace _ _ Hc). simpl lstrip. rewrite Hc.
  rewrite (rstrip_cons_nonspace _ _ Hc). now rewrite rstrip_idempotent.
Qed.

Lemma mem_In (x : string) (xs : list string) : mem x xs = true <-> In x xs.
Proof.
  unfold mem. rewrite existsb_exists. split.
  - intros [y [Hy He]]. apply String.eqb_eq in He. now subst.
  - intros H. exists x. split; [assumption | apply String.eqb_refl].
Qed.

End StringFacts.

(** ** Font resolution *)

Section FontFacts.
Import FontRegistry.

Lemma In_insert_sorted (e x : entry) (l : list entry) :
  In x (insert_sorted e l) <-> x = e \/ In x l.
Proof.
  induction l as [| y l IH]; simpl.
  - intuition.
  - destruct (String.ltb (sort_key e) (sort_key y)); simpl; rewrite ?IH; intuition.
Qed.

Lemma In_sort_entries_acc (l acc : list entry) (x : entry) :
  In x (fold_left (fun acc e => insert_sorted e acc) l acc) <-> In x l \/ In x acc.
Proof.
  revert acc. induction l as [| e l IH]; intros acc; simpl.
  - intuition.
  - rewrite IH, In_insert_sorted. intuition.
Qed.

Lemma In_sort_entries (l : list entry) (x : entry) :
  In x (sort_entries l) <-> In x l.
Proof. unfold sort_entries. rewrite In_sort_entries_acc. simpl. intuition. Qed.

(** Where an entry of the registry comes from. *)
Definition from_core (e : entry) : Prop :=
  In (family e) _PDF_CORE_FONTS /\ path e = None.

Definition from_file (files : list font_file) (e : entry) : Prop :=
  exists f, In f files /\ ff_family f = Some (family e).

Lemma add_core_origin (names : list string) (st : list entry * list string) :
  Forall from_core (fst st) ->
  Forall (fun n => In n _PDF_CORE_FONTS) names ->
  Forall from_core (fst (fold_left add_core names st)).
Proof.
  revert st. induction names as [| n names IH]; intros [out seen] Hout Hn; simpl.
  - assumption.
  - inversion Hn; subst. apply IH; [| assumption].
    unfold add_core. destruct (mem (lower n) seen); [assumption |]. cbn [fst].
    apply Forall_app. split; [assumption |].
    constructor; [| constructor]. split; simpl; [assumption | reflexivity].
Qed.

Lemma add_file_origin (files all : list font_file) (st : list entry * list string) :
  Forall (fun e => from_core e \/ from_file all e) (fst st) ->
  incl files all ->
  Forall (fun e => from_core e \/ from_file all e) (fst (fold_left add_file files st)).
Proof.
  revert st. induction files as [| f files IH]; intros [out seen] Hout Hincl; simpl.
  - assumption.
  - apply IH; [| intros x Hx; apply Hincl; now right].
    unfold add_file.
    destruct (ff_family f) as [[| c fam] |] eqn:Hfam; try assumption.
    destruct (mem (lower (String c fam)) seen); [assumption |]. cbn [fst].
    apply Forall_app. split; [assumption |].
    constructor; [| constructor]. right. exists f. split.
    + apply Hincl. now left.
    + simpl. assumption.
Qed.

Lemma registry_origin (files : list font_file) (e : entry) :
  In e (get_font_registry files) -> from_core e \/ from_file files e.
Proof.
  unfold get_font_registry. rewrite In_sort_entries. intros Hin.
  assert (H : Forall (fun e => from_core e \/ from_file files e)
                     (fst (fold_left add_file files
                                     (fold_left add_core _PDF_CORE_FONTS ([], []))))).
  { apply add_file_origin; [| apply incl_refl].
    eapply Forall_impl; [| apply add_core_origin].
    - intros a Ha. now left.
    - constructor.
    - apply Forall_forall. intros x Hx. exact Hx. }
  rewrite Forall_forall in H. now apply H.
Qed.

(** The request matches no font: it is not a name the renderer has
    registered, and neither a core font nor a discovered family is
    the same name when case is ignored. *)
Definition matches_no_font (w : env) (requested : string) : Prop :=
  ~ In requested (registered_names w)
  /\ (forall name, In name _PDF_CORE_FONTS -> lower name <> lower requested)
  /\ (forall f fam, In f (font_files w) -> ff_family f = Some fam ->
                    lower fam <> lower requested).

Lemma find_no_match (w : env) (requested : string) :
  matches_no_font w requested ->
  find (fun f => String.eqb (lower (or_str (family f) "")) (lower requested))
       (get_font_registry (font_files w)) = None.
Proof.
  intros (_ & Hcore & Hfile).
  destruct (find _ _) as [e |] eqn:Hfind; [| reflexivity].
  apply find_some in Hfind. destruct Hfind as [Hin Heq].
  apply String.eqb_eq in Heq. rewrite or_str_empty_r in Heq.
  apply registry_origin in Hin. destruct Hin as [[Hc _] | [f [Hf Hfam]]].
  - now apply Hcore in Hc.
  - now apply (Hfile f _ Hf) in Hfam.
Qed.

(** C8.  For every requested family, in every state of the font
    files and of the renderer (a failing registration included),
    [resolve_font_family] returns; for an empty or blank request,
    and for a request that matches no registered, core or
    discovered font, it returns [("Helvetica", "pdf-core", False)]. *)
Theorem resolve_font_family_never_raises (w : env) (requested_family : string) :
  returns (resolve_font_family w requested_family)
  /\ (strip requested_family = "" ->
      resolve_font_family w requested_family = Ok ("Helvetica", "pdf-core", false))
  /\ (matches_no_font w (strip requested_family) ->
      resolve_font_family w requested_family = Ok ("Helvetica", "pdf-core", false)).
Proof.
  unfold resolve_font_family. rewrite or_str_empty_r.
  destruct (strip requested_family) as [| c r] eqn:Hreq.
  - repeat split; intros; try reflexivity. now eexists.
  - split; [| split].
    + destruct (mem _ _ || mem _ _); [now eexists |].
      destruct (find _ _) as [hit |]; [| now eexists].
      destruct (strip (opt_or_str (path hit) "")); [now eexists |].
      destruct (embeddable hit); [| now eexists].
      destruct (register_font w (family hit) _); simpl; now eexists.
    + discriminate.
    + intros Hno.
      assert (Hreg : mem (String c r) (registered_names w) = false).
      { apply not_true_is_false. rewrite mem_In. apply Hno. }
      assert (Hcore : mem (String c r) _PDF_CORE_FONTS = false).
      { apply not_true_is_false. rewrite mem_In. intros Hin.
        destruct Hno as (_ & Hc & _). now apply (Hc _ Hin). }
      rewrite Hreg, Hcore. simpl orb. cbv iota.
      now rewrite (find_no_match w _ Hno).
Qed.
End FontFacts.

Section FontWitness.
Import FontRegistry Samples.

Lemma resolve_font_family_witness :
  resolve_font_family bare_fonts "No Such Family"
  = Ok ("Helvetica", "pdf-core", false).
Proof.
  apply (resolve_font_family_never_raises bare_fonts "No Such Family").
  repeat split.
  - simpl. tauto.
  - intros name Hin. simpl in Hin.
    repeat (destruct Hin as [<- | Hin]; [discriminate |]). contradiction.
  - intros f fam [].
Defined.
End FontWitness.

(** ** Render mode *)

Section RenderFacts.
Import Render PdfWriter.




End RenderFacts.

Section RenderCounter.
Import Render PdfWriter Samples.



End RenderCounter.

(** ** Glyph outline engine *)

Section OutlineFacts.
Import OutlinedText.
Local Open Scope float_scope.



End OutlineFacts.

(** ** Hashing *)

(** The digests of the empty message and of [abc], as FIPS 180-4
    lists them. *)
Example sha256_hex_empty :
  Hash.sha256_hex ""
  = "e3b0c44298fc1c149afbf4c8996fb92427ae41e4649b934ca495991b7852b855".
Proof. vm_compute. reflexivity. Qed.

Example sha256_hex_abc :
  Hash.sha256_hex "abc"
  = "ba7816bf8f01cfea414140de5dae2223b00361a396177a9cb410ff61f20015ad".
Proof. vm_compute. reflexivity. Qed.

(** The first and the last round constant. *)
Example round_constants :
  List.length Hash.K = 64%nat
  /\ nth 0 Hash.K 0%Z = 0x428a2f98%Z /\ nth 63 Hash.K 0%Z = 0xc67178f2%Z.
Proof. repeat split. Qed.

(** A dump: no white space, and the keys of a dict in order. *)
Example dumps_sample :
  Json.dumps Samples.sample_float_repr
             (Json.JList [Json.JInt 3; Json.JNull; Json.JBool true; Json.JFloat 30])
  = "[3,null,true,30.0]"
  /\ Json.dumps Samples.sample_float_repr
                (Json.JDict [("w", Json.JInt 2); ("h", Json.JInt 1)])
     = ("{" ++ Json.DQUOTE ++ "h" ++ Json.DQUOTE ++ ":1,"
            ++ Json.DQUOTE ++ "w" ++ Json.DQUOTE ++ ":2}")%string.
Proof. split; reflexivity. Qed.

(** ** Template identity: the order of keys *)

Section KeyOrder.

Lemma ltb_lt (a b : string) : String.ltb a b = true <-> String_as_OT.lt a b.
Proof.
  unfold String.ltb. rewrite <- String_as_OT.cmp_lt. unfold String_as_OT.cmp.
  destruct (String.compare a b); split; congruence.
Qed.

Lemma ltb_trans (a b c : string) :
  String.ltb a b = true -> String.ltb b c = true -> String.ltb a c = true.
Proof. rewrite !ltb_lt. apply String_as_OT.lt_trans. Qed.

Lemma ltb_asym (a b : string) :
  String.ltb a b = true -> String.ltb b a = false.
Proof.
  unfold String.ltb. rewrite (String.compare_antisym a b).
  destruct (String.compare b a); simpl; congruence.
Qed.

Lemma ltb_total (a b : string) :
  a <> b -> String.ltb a b = true \/ String.ltb b a = true.
Proof.
  intros Hne. unfold String.ltb. rewrite (String.compare_antisym a b).
  destruct (String.compare b a) eqn:Hc; simpl; auto.
  apply String.compare_eq_iff in Hc. congruence.
Qed.

End KeyOrder.

Section SortItems.
Import Json.
Context {A : Type}.
Implicit Types (a b x : string * A) (l : list (string * A)).

Lemma insert_item_comm a b l :
  fst a <> fst b ->
  insert_item a (insert_item b l) = insert_item b (insert_item a l).
Proof.
  intros Hne. induction l as [| x l IH]; simpl.
  - destruct (ltb_total _ _ Hne) as [H | H];
      rewrite H, (ltb_asym _ _ H); reflexivity.
  - destruct (String.ltb (fst a) (fst x)) eqn:Hax,
             (String.ltb (fst b) (fst x)) eqn:Hbx; simpl; rewrite ?Hax, ?Hbx.
    + destruct (ltb_total _ _ Hne) as [H | H];
        rewrite H, (ltb_asym _ _ H); simpl; rewrite ?Hax, ?Hbx; reflexivity.
    + destruct (String.ltb (fst b) (fst a)) eqn:Hba; [| reflexivity].
      rewrite (ltb_trans _ _ _ Hba Hax) in Hbx. discriminate.
    + destruct (String.ltb (fst a) (fst b)) eqn:Hab; [| reflexivity].
      rewrite (ltb_trans _ _ _ Hab Hbx) in Hax. discriminate.
    + now rewrite IH.
Qed.

Lemma sort_items_perm l l' :
  Permutation l l' -> NoDup (map fst l) -> sort_items l = sort_items l'.
Proof.
  induction 1 as [| x l l' Hp IH | x y l | l l' l'' Hp1 IH1 Hp2 IH2]; intros Hnd.
  - reflexivity.
  - simpl. f_equal. apply IH. now inversion Hnd.
  - simpl. apply insert_item_comm.
    simpl in Hnd. inversion Hnd as [| ? ? Hnin _]. subst.
    intros Heq. apply Hnin. left. congruence.
  - rewrite IH1 by assumption. apply IH2.
    eapply Permutation_NoDup; [| exact Hnd]. now apply Permutation_map.
Qed.

End SortItems.

Section JsonInduction.
Import Json.
Variable P : json -> Prop.
Hypothesis HNull : P JNull.
Hypothesis HBool : forall b, P (JBool b).
Hypothesis HInt : forall z, P (JInt z).
Hypothesis HFloat : forall x, P (JFloat x).
Hypothesis HStr : forall s, P (JStr s).
Hypothesis HList : forall l, Forall P l -> P (JList l).
Hypothesis HDict : forall items, Forall (fun it => P (snd it)) items -> P (JDict items).

(** Induction on a JSON value, with the hypothesis for every
    element of a list and every value of a dict. *)
Fixpoint json_nested_ind (v : json) : P v :=
  match v with
  | JNull => HNull
  | JBool b => HBool b
  | JInt z => HInt z
  | JFloat x => HFloat x
  | JStr s => HStr s
  | JList l =>
      HList l
            ((fix each (l : list json) : Forall P l :=
                match l with
                | [] => Forall_nil P
                | x :: l' => Forall_cons x (json_nested_ind x) (each l')
                end) l)
  | JDict items =>
      HDict items
            ((fix each (l : list (string * json))
                : Forall (fun it => P (snd it)) l :=
                match l with
                | [] => Forall_nil _
                | it :: l' =>
                    Forall_cons it (json_nested_ind (snd it)) (each l')
                end) items)
  end.
End JsonInduction.

Section DumpsFacts.
Import Json.
Variable float_repr : float -> string.

Lemma dumps_JList (l : list json) :
  dumps float_repr (JList l)
  = ("[" ++ join "," (map (dumps float_repr) l) ++ "]")%string.
Proof.
  reflexivity.
Qed.

Definition encoded_items (items : list (string * json)) : list (string * string) :=
  map (fun it => (fst it, dumps float_repr (snd it))) items.

Lemma dumps_JDict (items : list (string * json)) :
  dumps float_repr (JDict items)
  = ("{" ++ join "," (map render_item (sort_items (encoded_items items)))
         ++ "}")%string.
Proof.
  assert (H : forall l,
             (fix each (l : list (string * json)) : list (string * string) :=
                match l with
                | [] => []
                | (k, x) :: l' => (k, dumps float_repr x) :: each l'
                end) l = encoded_items l).
  { induction l as [| [k x] l IH]; [reflexivity | simpl; now rewrite IH]. }
  simpl. now rewrite H.
Qed.

Lemma py_eq_JList (la lb : list json) :
  py_eq (JList la) (JList lb) <-> Forall2 py_eq la lb.
Proof.
  simpl. revert lb. induction la as [| x la IH]; intros [| y lb]; split; intros H;
    try (now inversion H); try contradiction.
  - destruct H as [Hxy Hrest]. constructor; [exact Hxy | apply IH; exact Hrest].
  - inversion H; subst. split; [assumption | apply IH; assumption].
Qed.

Definition bound_alike (ib : list (string * json)) (it : string * json) : Prop :=
  exists y, lookup (fst it) ib = Some y /\ py_eq (snd it) y.

Lemma py_eq_JDict (ia ib : list (string * json)) :
  py_eq (JDict ia) (JDict ib)
  <-> List.length ia = List.length ib /\ Forall (bound_alike ib) ia.
Proof.
  simpl. apply and_iff_compat_l.
  induction ia as [| [k x] ia IH]; split; intros H.
  - constructor.
  - exact I.
  - destruct H as [Hk Hrest]. constructor.
    + unfold bound_alike. simpl.
      destruct (lookup k ib) as [y |]; [now exists y | contradiction].
    + apply IH. exact Hrest.
  - inversion H as [| ? ? [y [Hy He]] Hrest]; subst. simpl in Hy. rewrite Hy.
    split; [assumption | apply IH; assumption].
Qed.

Lemma well_formed_JList (l : list json) :
  well_formed (JList l) <-> Forall well_formed l.
Proof.
  simpl. induction l as [| x l IH]; split; intros H.
  - constructor.
  - exact I.
  - destruct H as [Hx Hrest]. constructor; [exact Hx | apply IH; exact Hrest].
  - inversion H; subst. split; [assumption | apply IH; assumption].
Qed.

Lemma well_formed_JDict (items : list (string * json)) :
  well_formed (JDict items)
  <-> NoDup (map fst items) /\ Forall (fun it => well_formed (snd it)) items.
Proof.
  simpl. apply and_iff_compat_l.
  induction items as [| [k x] l IH]; split; intros H.
  - constructor.
  - exact I.
  - destruct H as [Hx Hrest]. constructor; [exact Hx | apply IH; exact Hrest].
  - inversion H; subst. split; [assumption | apply IH; assumption].
Qed.

Lemma lookup_In {A} (k : string) (items : list (string * A)) (v : A) :
  lookup k items = Some v -> In (k, v) items.
Proof.
  induction items as [| [k' v'] l IH]; simpl; [discriminate |].
  destruct (String.eqb_spec k k') as [-> | _].
  - intros H. injection H as ->. now left.
  - intros H. right. now apply IH.
Qed.

(** Two well-formed values that are equal, dicts compared as maps,
    have the same dump. *)
Lemma dumps_py_eq (a : json) :
  forall b, well_formed a -> well_formed b -> py_eq a b -> dumps float_repr a = dumps float_repr b.
Proof.
  induction a as [| x | x | x | x | la IH | ia IH] using json_nested_ind;
    intros b Hwa Hwb Heq; destruct b; try contradiction;
    try (simpl in Heq; now subst).
  - (* lists *)
    rewrite !dumps_JList.
    enough (H : map (dumps float_repr) la = map (dumps float_repr) l) by now rewrite H.
    apply py_eq_JList in Heq.
    apply well_formed_JList in Hwa. apply well_formed_JList in Hwb.
    induction Heq as [| x y la lb Hxy Hrest IHrest]; [reflexivity |].
    inversion IH; inversion Hwa; inversion Hwb; subst. simpl. f_equal; auto.
  - (* dicts *)
    rename items into ib.
    rewrite !dumps_JDict.
    enough (H : sort_items (encoded_items ia) = sort_items (encoded_items ib))
      by now rewrite H.
    apply py_eq_JDict in Heq. destruct Heq as [Hlen Hbound].
    apply well_formed_JDict in Hwa. destruct Hwa as [Hnda Hwa].
    apply well_formed_JDict in Hwb. destruct Hwb as [_ Hwb].
    assert (Hnd : NoDup (map fst (encoded_items ia))).
    { unfold encoded_items. now rewrite map_map. }
    apply sort_items_perm; [| assumption].
    apply NoDup_Permutation_bis.
    + eapply NoDup_map_inv. exact Hnd.
    + unfold encoded_items. rewrite !length_map. lia.
    + intros it Hit. unfold encoded_items in *.
      apply in_map_iff in Hit. destruct Hit as [[k x] [<- Hin]]. simpl.
      rewrite Forall_forall in IH, Hwa, Hwb, Hbound.
      destruct (Hbound _ Hin) as [y [Hy Hxy]]. simpl in Hy, Hxy.
      apply lookup_In in Hy.
      pose proof (IH _ Hin y (Hwa _ Hin) (Hwb _ Hy) Hxy) as E. simpl in E.
      rewrite E. apply in_map_iff. now exists (k, y).
Qed.

End DumpsFacts.

Section TemplateIdentity.
Import Json TemplateCache.
Variable float_repr : float -> string.

(** C7.  The template identifier is a function of the payload as a
    map: two well-formed payloads that are equal, whatever the order
    their keys (at any depth) were inserted in, have the same
    SHA-256 digest; so have two calls of [compute_template_id] whose
    payloads are equal in that sense.  The function is pure: a
    repeated call, in this process or another, is the same value. *)
Theorem compute_template_id_deterministic :
  (forall p1 p2 : json,
      well_formed p1 -> well_formed p2 -> py_eq p1 p2 ->
      template_id_of_payload float_repr p1 = template_id_of_payload float_repr p2)
  /\ (forall svg_hash object_mm series custom_fonts overlays render_mode
             svg_hash' object_mm' series' custom_fonts' overlays' render_mode',
         let p := payload svg_hash object_mm series custom_fonts overlays
                          render_mode in
         let p' := payload svg_hash' object_mm' series' custom_fonts' overlays'
                           render_mode' in
         well_formed p -> well_formed p' -> py_eq p p' ->
         compute_template_id float_repr svg_hash object_mm series custom_fonts
                             overlays render_mode
         = compute_template_id float_repr svg_hash' object_mm' series'
                               custom_fonts' overlays' render_mode').
Proof.
  assert (H : forall p1 p2 : json,
             well_formed p1 -> well_formed p2 -> py_eq p1 p2 ->
             template_id_of_payload float_repr p1
             = template_id_of_payload float_repr p2).
  { intros p1 p2 H1 H2 Heq. unfold template_id_of_payload.
    now rewrite (dumps_py_eq float_repr p1 p2 H1 H2 Heq). }
  split; [exact H |].
  intros. unfold compute_template_id. now apply H.
Qed.

End TemplateIdentity.

Section TemplateIdentityWitness.
Import Json TemplateCache Samples.

Lemma compute_template_id_deterministic_witness :
  compute_template_id sample_float_repr "abc" sample_object_mm sample_series
                      None (Some []) "exact_mm"
  = compute_template_id sample_float_repr "abc" sample_object_mm_reordered
                        sample_series (Some []) None "exact_mm".
Proof.
  apply (proj2 (compute_template_id_deterministic sample_float_repr)).
  - simpl. repeat split; repeat constructor; simpl; intuition discriminate.
  - simpl. repeat split; repeat constructor; simpl; intuition discriminate.
  - simpl. repeat split.
Defined.

End TemplateIdentityWitness.

(** ** Template identity: an omitted list *)

Section OmittedLists.
Import Json TemplateCache.
Variable float_repr : float -> string.

(** C10.  [compute_template_id] reads an omitted ([None])
    [custom_fonts] as the empty list, and an omitted [overlays]
    likewise: whatever the other fields are, the identifier is the
    one computed with [[]] in its place. *)
Theorem compute_template_id_omitted_list
        (svg_hash : string) (object_mm series : json)
        (custom_fonts overlays : option (list json)) (render_mode : string) :
  compute_template_id float_repr svg_hash object_mm series None overlays render_mode
  = compute_template_id float_repr svg_hash object_mm series (Some []) overlays
                        render_mode
  /\ compute_template_id float_repr svg_hash object_mm series custom_fonts None
                         render_mode
     = compute_template_id float_repr svg_hash object_mm series custom_fonts
                           (Some []) render_mode.
Proof. split; reflexivity. Qed.

End OmittedLists.

(** ** Object origin at a zero offset *)

Section ZeroOffset.
Import PdfWriter Samples.
Local Open Scope float_scope.

(** X1.  In [exact_mm] mode, with a horizontal offset of zero, the
    object's origin is the left edge for every alignment but
    [right]: centring is bypassed. *)
Lemma zero_offset_left_edge (cfg : ObjectBoxMm.t) (v : float)
      (slot_x_pt slot_w_pt page_w_pt object_w_pt : float) :
  x_mm_of cfg = Some v ->
  (v =? 0) = true ->
  alignment_of cfg <> "right" ->
  exact_object_x_pt cfg slot_x_pt slot_w_pt page_w_pt object_w_pt = 0.
Proof.
  intros Hx Hv Ha. unfold exact_object_x_pt. rewrite Hx, Hv.
  destruct (String.eqb_spec (alignment_of cfg) "right"); [contradiction | reflexivity].
Qed.

(** With a zero offset and [right], the object is flush with the
    right edge of the page. *)
Lemma zero_offset_right_edge (cfg : ObjectBoxMm.t) (v : float)
      (slot_x_pt slot_w_pt page_w_pt object_w_pt : float) :
  x_mm_of cfg = Some v ->
  (v =? 0) = true ->
  alignment_of cfg = "right" ->
  exact_object_x_pt cfg slot_x_pt slot_w_pt page_w_pt object_w_pt
  = (0 + page_w_pt) - object_w_pt.
Proof.
  intros Hx Hv Ha. unfold exact_object_x_pt. rewrite Hx, Hv, Ha. reflexivity.
Qed.

(** C1, at [{w: 50, h: 30, x_mm: 0, alignment: "right"}] in
    [exact_mm] mode: the slot's left edge is at 0pt, and the object
    is placed at [mm_to_pt(210) - mm_to_pt(50)], about 453.54pt.
    The alignment is not bypassed. *)
Theorem zero_offset_right_alignment_interferes :
  let t := template_of (box_at_zero "right") (series_ab007 None) [] "exact_mm" in
  (L <- prepare plain_world t ;;
   ' (_, m) <- fill_slot plain_world t L 0 0 ;;
   Ok (fst (fst (slot_origin L 0)), fst (object_origin_pt m)))
  = Ok (0, 453.54330708661422)
  /\ (0 =? 453.54330708661422) = false.
Proof. split; reflexivity. Qed.

Lemma zero_offset_left_edge_witness :
  exact_object_x_pt (box_at_zero " Center ") 0 595 595 141 = 0.
Proof.
  apply (zero_offset_left_edge (box_at_zero " Center ") 0 0 595 595 141).
  - reflexivity.
  - reflexivity.
  - discriminate.
Defined.

End ZeroOffset.

(** ** Font size per glyph *)

Section PerLetter.
Import PdfWriter Samples.
Local Open Scope float_scope.

(** The rule in the words of the specification:
    [per_letter_font_size_mm[i]] when that entry is there and
    positive, [font_size_mm] otherwise. *)
Definition spec_glyph_size_mm (raw : option (list float))
           (font_size_mm : float) (i : nat) : float :=
  match raw with
  | None => font_size_mm
  | Some l =>
      match nth_error l i with
      | Some v => if 0 <? v then v else font_size_mm
      | None => font_size_mm
      end
  end.

Lemma filter_all_positive (l : list float) :
  Forall (fun v => (0 <? v) = true) l -> filter (fun n => 0 <? n) l = l.
Proof.
  induction 1 as [| v l Hv _ IH]; simpl; [reflexivity |].
  now rewrite Hv, IH.
Qed.

(** X3.  Where every entry of [per_letter_font_size_mm] is positive,
    glyph [i] is drawn at entry [i] when there is one and at
    [font_size_mm] otherwise. *)
Lemma glyph_size_all_positive (l : list float) (font_size_mm : float) (i : nat) :
  Forall (fun v => (0 <? v) = true) l ->
  glyph_size_mm (per_letter_sizes (Some l)) font_size_mm i
  = spec_glyph_size_mm (Some l) font_size_mm i.
Proof.
  intros Hall. unfold per_letter_sizes, glyph_size_mm, spec_glyph_size_mm.
  rewrite (filter_all_positive l Hall).
  destruct l as [| a l]; [now destruct i |].
  destruct (nth_error (a :: l) i) as [v |] eqn:Hnth; [| reflexivity].
  apply nth_error_In in Hnth. rewrite Forall_forall in Hall.
  now rewrite (Hall v Hnth).
Qed.

(** C6, at [per_letter_font_size_mm = [0, 7]], [font_size_mm = 5]:
    the entry that is not positive is dropped from the list and the
    entries after it move down, so glyph 0 is drawn at 7mm (the rule
    gives 5mm) and glyph 1 at 5mm (the rule gives 7mm). *)
Theorem per_letter_sizes_shift :
  let raw := Some [0; 7] in
  (glyph_size_mm (per_letter_sizes raw) 5 0 = 7
   /\ spec_glyph_size_mm raw 5 0 = 5)
  /\ (glyph_size_mm (per_letter_sizes raw) 5 1 = 5
      /\ spec_glyph_size_mm raw 5 1 = 7)
  /\ (L <- prepare plain_world
                   (template_of (box_at_zero "left") (series_ab007 raw) []
                                "exact_mm") ;;
      Ok (glyph_ops L 0 0 ["A"%char; "B"%char]))
     = Ok [SetFont "Helvetica" (Units.mm_to_pt 7); TextOut "A";
           SetFont "Helvetica" (Units.mm_to_pt 5); TextOut "B"].
Proof. repeat split; reflexivity. Qed.

Lemma glyph_size_all_positive_witness :
  glyph_size_mm (per_letter_sizes (Some [4; 6])) 5 1 = 6.
Proof.
  rewrite (glyph_size_all_positive [4; 6] 5 1).
  - reflexivity.
  - repeat constructor.
Defined.

End PerLetter.

(** ** Serial generator *)

Section SerialFacts.
Import Serial Samples.

Lemma list_ascii_of_string_app (a b : string) :
  list_ascii_of_string (a ++ b) = list_ascii_of_string a ++ list_ascii_of_string b.
Proof. induction a as [| c a IH]; simpl; [reflexivity | now rewrite IH]. Qed.

Lemma list_ascii_length (s : string) :
  List.length (list_ascii_of_string s) = String.length s.
Proof. induction s as [| c s IH]; simpl; [reflexivity | now rewrite IH]. Qed.

Lemma takeWhile_prefix {A} (p : A -> bool) (l rest : list A) :
  Forall (fun a => p a = true) l ->
  match rest with [] => True | a :: _ => p a = false end ->
  takeWhile p (l ++ rest) = l.
Proof.
  intros Hall Hrest. induction Hall as [| a l Ha _ IH]; simpl.
  - destruct rest as [| a rest]; [reflexivity | simpl; now rewrite Hrest].
  - now rewrite Ha, IH.
Qed.

(** The prefix does not end in a digit: the run that follows it is
    the whole of the trailing run. *)
Definition no_digit_at_end (prefix : string) : Prop :=
  match rev (list_ascii_of_string prefix) with
  | [] => True
  | c :: _ => isdigit c = false
  end.

Definition all_digits (run : string) : Prop :=
  Forall (fun c => isdigit c = true) (list_ascii_of_string run).

Lemma digit_is_not_newline (c : ascii) :
  isdigit c = true -> Ascii.eqb c "010" = false.
Proof.
  intros H. destruct (Ascii.eqb_spec c "010") as [-> |]; [discriminate | reflexivity].
Qed.

(** A start string that ends in a run of digits parses into what
    stands before the run, the run's value and the run's length. *)
Lemma parse_series_start_trailing_run (prefix run : string) :
  run <> "" ->
  all_digits run ->
  no_digit_at_end prefix ->
  _parse_series_start (prefix ++ run)
  = Ok (prefix, int_of_digits (list_ascii_of_string run), String.length run).
Proof.
  intros Hne Hdig Hpre.
  unfold _parse_series_start, search_trailing_digits.
  rewrite list_ascii_of_string_app, rev_app_distr.
  set (lr := list_ascii_of_string run) in *.
  set (lp := list_ascii_of_string prefix) in *.
  assert (Hrev : Forall (fun c => isdigit c = true) (rev lr)).
  { apply Forall_forall. intros c Hc. apply in_rev in Hc.
    unfold all_digits in Hdig. rewrite Forall_forall in Hdig. now apply Hdig. }
  assert (Hlr : lr <> []).
  { subst lr. destruct run; [contradiction | discriminate]. }
  destruct (rev lr) as [| c r] eqn:Hr.
  { exfalso. apply Hlr. rewrite <- (rev_involutive lr), Hr. reflexivity. }
  assert (Hc : isdigit c = true) by (inversion Hrev; assumption).
  cbn [app]. rewrite (digit_is_not_newline c Hc).
  change (c :: r ++ rev lp) with ((c :: r) ++ rev lp).
  rewrite (takeWhile_prefix isdigit (c :: r) (rev lp) Hrev Hpre).
  rewrite <- Hr, rev_involutive.
  rewrite length_app, !length_rev.
  replace (List.length lr + List.length lp - List.length lr)%nat
    with (List.length lp) by lia.
  unfold slice_to. rewrite list_ascii_of_string_app. fold lp lr.
  rewrite firstn_app, firstn_all, Nat.sub_diag. cbn [firstn]. rewrite app_nil_r.
  subst lp lr. now rewrite string_of_list_ascii_of_string, list_ascii_length.
Qed.

(** A start string that ends in neither a digit nor a newline is
    refused. *)
Lemma parse_series_start_refuses (s : string) :
  match rev (list_ascii_of_string s) with
  | [] => True
  | c :: _ => isdigit c = false /\ Ascii.eqb c "010" = false
  end ->
  _parse_series_start s = Raise (ValueError "Series must end with a numeric part").
Proof.
  intros H. unfold _parse_series_start, search_trailing_digits.
  destruct (rev (list_ascii_of_string s)) as [| c r]; [reflexivity |].
  destruct H as [Hd Hn]. rewrite Hn. simpl. now rewrite Hd.
Qed.


Lemma length_zeros (n : nat) : String.length (zeros n) = n.
Proof. induction n; simpl; [reflexivity | now rewrite IHn]. Qed.

Lemma string_length_app (a b : string) :
  String.length (a ++ b) = (String.length a + String.length b)%nat.
Proof. induction a as [| c a IH]; simpl; [reflexivity | now rewrite IH]. Qed.

Lemma zfill_length (s : string) (width : nat) :
  String.length (zfill s width) = Nat.max (String.length s) width.
Proof.
  unfold zfill. destruct (Nat.leb_spec width (String.length s)) as [H | H].
  - lia.
  - destruct s as [| c s].
    + rewrite length_zeros. cbn [String.length] in *. lia.
    + destruct (Ascii.eqb c "+" || Ascii.eqb c "-")%bool;
        cbn [String.length] in *;
        rewrite string_length_app, length_zeros; cbn [String.length]; lia.
Qed.

(** The width is fixed by the start string: a value is never
    shorter than prefix and width together, and a number that
    needs more digits has them all. *)
Lemma series_value_length (prefix : string) (base : Z) (width : nat) (i : Z) :
  String.length (_series_value prefix base width i)
  = (String.length prefix
     + Nat.max (String.length (str_of_int (base + i))) width)%nat.
Proof.
  unfold _series_value. now rewrite string_length_app, zfill_length.
Qed.

(** C2, at the start string ["AB007\n"]: it does not end in a run
    of digits, and it is parsed as ["AB007"] is, the newline
    dropped from every serial.  The same holds after any start
    string that ends in a digit. *)
Theorem parse_series_start_accepts_final_newline :
  _parse_series_start ("AB007" ++ NEWLINE) = Ok ("AB", 7%Z, 3%nat)
  /\ _series_value "AB" 7 3 0 = "AB007"
  /\ forall prefix run,
      run <> "" -> all_digits run -> no_digit_at_end prefix ->
      _parse_series_start (prefix ++ run ++ NEWLINE)
      = _parse_series_start (prefix ++ run).
Proof.
  split; [reflexivity | split; [reflexivity |]].
  intros prefix run Hne Hdig Hpre.
  rewrite (parse_series_start_trailing_run prefix run Hne Hdig Hpre).
  unfold _parse_series_start, search_trailing_digits.
  rewrite !list_ascii_of_string_app, !rev_app_distr. cbn [NEWLINE list_ascii_of_string rev app].
  rewrite Ascii.eqb_refl.
  set (lr := list_ascii_of_string run) in *.
  set (lp := list_ascii_of_string prefix) in *.
  assert (Hrev : Forall (fun c => isdigit c = true) (rev lr)).
  { apply Forall_forall. intros c Hc. apply in_rev in Hc.
    unfold all_digits in Hdig. rewrite Forall_forall in Hdig. now apply Hdig. }
  rewrite (takeWhile_prefix isdigit (rev lr) (rev lp) Hrev Hpre).
  destruct (rev lr) as [| c r] eqn:Hr.
  { exfalso. assert (lr = []) by (rewrite <- (rev_involutive lr), Hr; reflexivity).
    subst lr. destruct run; [contradiction | discriminate]. }
  cbv beta iota. change (rev r ++ [c]) with (rev (c :: r)).
  rewrite <- Hr, rev_involutive, length_app, !length_rev.
  replace (List.length lr + List.length lp - List.length lr)%nat
    with (List.length lp) by lia.
  unfold slice_to. rewrite !list_ascii_of_string_app. fold lp lr.
  rewrite firstn_app, firstn_all, Nat.sub_diag. cbn [firstn]. rewrite app_nil_r.
  subst lp lr. now rewrite string_of_list_ascii_of_string, list_ascii_length.
Qed.



End SerialFacts.

(** ** Pages, slots and serials in raster order *)

Section FillSlot.
Import PdfWriter Canvas.
Variable wd : world.

Lemma returns_Ok {A} (a : A) : returns (Ok a).
Proof. now exists a. Qed.

Lemma not_returns_Raise {A} (e : exn) : ~ returns (@Raise A e).
Proof. intros [a H]. discriminate. Qed.

Lemma returns_bind {A B} (m : result A) (k : A -> result B) :
  returns (bind m k) <-> exists a, m = Ok a /\ returns (k a).
Proof.
  destruct m as [a | e]; simpl; split.
  - intros H. now exists a.
  - intros [a' [Ha H]]. now injection Ha as <-.
  - intros H. now apply not_returns_Raise in H.
  - intros [a' [Ha _]]. discriminate.
Qed.

(** Whether an overlay can be drawn does not depend on where. *)
Lemma draw_overlay_returns (ov : overlay) (x y h x' y' h' : float) :
  returns (_draw_overlay wd ov x y h) -> returns (_draw_overlay wd ov x' y' h').
Proof.
  unfold _draw_overlay. destruct ov as [data_url mime xm ym wm hm rot | ty xm ym sc rot key].
  - destruct (strip (or_str data_url "")); [intros _; apply returns_Ok |].
    destruct (_decode_data_url wd _) as [[raw mime_from_url] | e]; cbn [bind];
      [| intros H; now apply not_returns_Raise in H].
    destruct (contains _ _).
    + destruct (inline_svg_page_size wd raw) as [[ow oh] | e]; cbn [bind];
        [| intros H; now apply not_returns_Raise in H].
      destruct (_ || _)%bool; [intros H; now apply not_returns_Raise in H |].
      intros _; apply returns_Ok.
    + destruct (read_image wd raw) as [[] | e]; cbn [bind];
        [intros _; apply returns_Ok | intros H; now apply not_returns_Raise in H].
  - destruct (strip (or_str key "")); [intros _; apply returns_Ok |].
    destruct (String.eqb _ _); [| intros _; apply returns_Ok].
    destruct (PrimFloat.leb sc 0); [intros _; apply returns_Ok |].
    destruct (overlay_page_size wd _) as [[ow oh] | e]; cbn [bind];
      [| intros H; now apply not_returns_Raise in H].
    destruct (_ || _)%bool; [intros H; now apply not_returns_Raise in H |].
    intros _; apply returns_Ok.
Qed.

Lemma draw_overlays_returns (ovs : list overlay) (x y h x' y' h' : float) :
  returns (draw_overlays wd ovs x y h) -> returns (draw_overlays wd ovs x' y' h').
Proof.
  induction ovs as [| ov ovs IH]; simpl; [intros _; apply returns_Ok |].
  rewrite !returns_bind. intros [ops [Hov Hrest]].
  rewrite returns_bind in Hrest. destruct Hrest as [ops' [Hovs _]].
  destruct (draw_overlay_returns ov x y h x' y' h') as [o Ho];
    [rewrite Hov; apply returns_Ok |].
  destruct IH as [o' Ho']; [rewrite Hovs; apply returns_Ok |].
  exists o. split; [assumption |]. rewrite Ho'. apply returns_Ok.
Qed.

Lemma series_ops_returns (L : locals) (sc : SeriesConfig.t)
      (x y h x' y' h' : float) (i i' : Z) :
  returns (series_ops wd L sc x y h i) -> returns (series_ops wd L sc x' y' h' i').
Proof.
  unfold series_ops.
  destruct (SeriesConfig.x_mm sc), (SeriesConfig.y_mm sc);
    try (intros H; now apply not_returns_Raise in H).
  destruct (negb _); [intros H; now apply not_returns_Raise in H |].
  intros _; apply returns_Ok.
Qed.

(** Whether a slot can be filled depends on neither the slot nor
    the serial: if the first can, every one can. *)
Lemma fill_slot_returns (t : Template) (L : locals) (slot serial slot' serial' : Z) :
  returns (fill_slot wd t L slot serial) -> returns (fill_slot wd t L slot' serial').
Proof.
  unfold fill_slot.
  destruct (slot_origin L slot) as [[sx sy] st].
  destruct (slot_origin L slot') as [[sx' sy'] st'].
  destruct (_object_size_pt (object_box_mm t)) as [[ow oh] | e]; cbn [bind];
    [| intros H; now apply not_returns_Raise in H].
  destruct (negb _ && _)%bool; [intros H; now apply not_returns_Raise in H |].
  destruct (object_origin L _ sx sy st ow oh) as [ox oy].
  destruct (object_origin L _ sx' sy' st' ow oh) as [ox' oy'].
  destruct (_ || _)%bool; [intros H; now apply not_returns_Raise in H |].
  rewrite !returns_bind. intros [ov [Hov Hrest]].
  rewrite returns_bind in Hrest. destruct Hrest as [[txt pdf] [Htxt _]].
  destruct (draw_overlays_returns (overlays t) ox oy oh ox' oy' oh) as [ov' Hov'];
    [rewrite Hov; apply returns_Ok |].
  destruct (series_ops_returns L (series_config t) ox oy oh ox' oy' oh serial serial')
    as [[txt' pdf'] Htxt']; [rewrite Htxt; apply returns_Ok |].
  exists ov'. split; [assumption |]. rewrite Htxt'. cbn [bind]. apply returns_Ok.
Qed.

End FillSlot.

Section Loops.
Import PdfWriter Canvas.
Local Open Scope Z_scope.
Variable wd : world.
Variable t : Template.
Variable L : locals.
Hypothesis Hfill : forall slot i, returns (fill_slot wd t L slot i).





End Loops.

Section Prepared.
Import PdfWriter Canvas Serial.
Local Open Scope Z_scope.

(** What [prepare] hands to the loops. *)
Lemma prepare_series (wd : world) (t : Template) (L : locals) :
  prepare wd t = Ok L ->
  count L = SeriesConfig.count (series_config t)
  /\ 0 < count L
  /\ total_pages L = (count L + 3) / 4
  /\ _parse_series_start (SeriesConfig.start (series_config t))
     = Ok (prefix L, base L, width L).
Proof.
  unfold prepare. intros H.
  destruct (Z.leb_spec (SeriesConfig.count (series_config t)) 0) as [| Hpos];
    [discriminate |].
  destruct (_register_custom_fonts _ _ _); [| discriminate]. cbn [bind] in H.
  destruct (FontRegistry.resolve_font_family _ _) as [[[? ?] ?] |]; [| discriminate].
  cbn [bind] in H.
  destruct (PrimFloat.leb _ _); [discriminate |].
  destruct (_parse_series_start _) as [[[? ?] ?] |]; [| discriminate].
  cbn [bind] in H. destruct _page_size_pt.
  destruct (background_page_size _ _) as [[? ?] |]; [| discriminate].
  cbn [bind] in H. injection H as <-. cbn. repeat split; try reflexivity; lia.
Qed.

Lemma drawn_text_app (a b : list canvas_op) :
  drawn_text (a ++ b) = drawn_text a ++ drawn_text b.
Proof.
  induction a as [| op a IH]; [reflexivity |].
  destruct op; simpl; rewrite ?IH; reflexivity.
Qed.

Lemma drawn_text_rotation (rot : float) :
  drawn_text (transform_ops_of_rotation rot) = [].
Proof. unfold transform_ops_of_rotation. now destruct (truthy rot). Qed.

Lemma draw_overlay_no_text (wd : world) (ov : overlay) (x y h : float)
      (ops : list canvas_op) :
  _draw_overlay wd ov x y h = Ok ops -> drawn_text ops = [].
Proof.
  unfold _draw_overlay. destruct ov as [data_url mime xm ym wm hm rot | ty xm ym sc rot key].
  - destruct (strip (or_str data_url "")); [intros H; now injection H as <- |].
    destruct (_decode_data_url wd _) as [[raw mime_from_url] | e]; cbn [bind];
      [| discriminate].
    destruct (contains _ _).
    + destruct (inline_svg_page_size wd raw) as [[ow oh] | e]; cbn [bind];
        [| discriminate].
      destruct (_ || _)%bool; [discriminate |].
      intros H; injection H as <-.
      cbn [drawn_text]. rewrite ?drawn_text_app, ?drawn_text_rotation. reflexivity.
    + destruct (read_image wd raw) as [[] | e]; cbn [bind]; [| discriminate].
      intros H; injection H as <-.
      cbn [drawn_text]. rewrite ?drawn_text_app, ?drawn_text_rotation. reflexivity.
  - destruct (strip (or_str key "")); [intros H; now injection H as <- |].
    destruct (String.eqb _ _); [| intros H; now injection H as <-].
    destruct (PrimFloat.leb sc 0); [intros H; now injection H as <- |].
    destruct (overlay_page_size wd _) as [[ow oh] | e]; cbn [bind]; [| discriminate].
    destruct (_ || _)%bool; [discriminate |].
    intros H; injection H as <-.
    cbn [drawn_text]. rewrite ?drawn_text_app, ?drawn_text_rotation. reflexivity.
Qed.

Lemma draw_overlays_no_text (wd : world) (ovs : list overlay) (x y h : float)
      (ops : list canvas_op) :
  draw_overlays wd ovs x y h = Ok ops -> drawn_text ops = [].
Proof.
  revert ops. induction ovs as [| ov ovs IH]; simpl; intros ops H.
  - now injection H as <-.
  - destruct (_draw_overlay wd ov x y h) as [o |] eqn:Ho; [| discriminate].
    cbn [bind] in H.
    destruct (draw_overlays wd ovs x y h) as [o' |]; [| discriminate].
    cbn [bind] in H. injection H as <-.
    rewrite drawn_text_app, (draw_overlay_no_text _ _ _ _ _ _ Ho), (IH o' eq_refl).
    reflexivity.
Qed.

Lemma text_of_app (a b : list text_op) :
  text_of (a ++ b) = (text_of a ++ text_of b)%string.
Proof.
  induction a as [| op a IH]; [reflexivity |].
  destruct op; simpl; rewrite ?IH; reflexivity.
Qed.

Lemma text_of_glyph_ops (L : locals) (advance_pt : float) (i : nat)
      (serial : list ascii) :
  text_of (glyph_ops L advance_pt i serial) = string_of_list_ascii serial.
Proof.
  revert i. induction serial as [| ch rest IH]; intros i; [reflexivity |].
  cbn [glyph_ops app text_of string_of_list_ascii]. f_equal.
  rewrite text_of_app, IH. now destruct (truthy advance_pt).
Qed.

(** The text a filled slot prints is the serial of its index. *)
Lemma series_ops_text (wd : world) (L : locals) (sc : SeriesConfig.t)
      (x y h : float) (i : Z) (ops : list canvas_op) (pdf : float * float) :
  series_ops wd L sc x y h i = Ok (ops, pdf) ->
  drawn_text ops = [_series_value (prefix L) (base L) (width L) i].
Proof.
  unfold series_ops.
  destruct (SeriesConfig.x_mm sc), (SeriesConfig.y_mm sc); try discriminate.
  destruct (negb (String.eqb _ _)); [discriminate |].
  intros H. injection H as <- _.
  cbn [drawn_text app]. rewrite drawn_text_app.
  assert (Hrot : forall r : float,
             drawn_text (if negb (PrimFloat.eqb r 0) then [Rotate r] else []) = []).
  { intros r. now destruct (negb _). }
  rewrite Hrot. cbn [drawn_text app]. f_equal.
  cbn [text_of app]. rewrite text_of_glyph_ops.
  apply string_of_list_ascii_of_string.
Qed.

Lemma fill_slot_text (wd : world) (t : Template) (L : locals) (slot i : Z)
      (ops : list canvas_op) (m : engine_metrics) :
  fill_slot wd t L slot i = Ok (ops, m) ->
  drawn_text ops = [_series_value (prefix L) (base L) (width L) i].
Proof.
  unfold fill_slot.
  destruct (slot_origin L slot) as [[sx sy] st].
  destruct (_object_size_pt (object_box_mm t)) as [[ow oh] | e]; cbn [bind];
    [| discriminate].
  destruct (negb _ && _)%bool; [discriminate |].
  destruct (object_origin L _ sx sy st ow oh) as [ox oy].
  destruct (_ || _)%bool; [discriminate |].
  destruct (draw_overlays wd (overlays t) ox oy oh) as [ov |] eqn:Hov; [| discriminate].
  cbn [bind].
  destruct (series_ops wd L (series_config t) ox oy oh i) as [[txt pdf] |] eqn:Htxt;
    [| discriminate].
  cbn [bind]. intros H. injection H as <- _.
  cbn [drawn_text].
  rewrite !drawn_text_app,
    (draw_overlays_no_text _ _ _ _ _ _ Hov), (series_ops_text _ _ _ _ _ _ _ _ _ Htxt).
  now destruct (is_exact_mm (mode L)).
Qed.

End Prepared.

Section RasterOrder.
Import PdfWriter Canvas Serial.
Local Open Scope Z_scope.

Lemma drawn_text_flat_map {A} (f : A -> list canvas_op) (xs : list A) :
  drawn_text (flat_map f xs) = flat_map (fun x => drawn_text (f x)) xs.
Proof.
  induction xs as [| x xs IH]; [reflexivity |].
  simpl. now rewrite drawn_text_app, IH.
Qed.

Section Enumeration.
Context {A : Type}.
Variable g : Z -> A.
Variable c : Z.

(** What the raster index [i] contributes. *)
Definition upto (i : Z) : list A := if i <? c then [g i] else [].

Lemma upto_prefix (n : nat) :
  flat_map upto (map Z.of_nat (seq 0 n))
  = map g (map Z.of_nat (seq 0 (Nat.min n (Z.to_nat c)))).
Proof.
  induction n as [| n IH]; [reflexivity |].
  rewrite seq_S, map_app, flat_map_app, IH. cbn [map flat_map Nat.add].
  rewrite app_nil_r. unfold upto.
  destruct (Z.ltb_spec (Z.of_nat n) c) as [Hlt | Hge].
  - replace (Nat.min (S n) (Z.to_nat c)) with (S (Nat.min n (Z.to_nat c))) by lia.
    rewrite seq_S, !map_app. cbn [map Nat.add].
    replace (Nat.min n (Z.to_nat c)) with n by lia. reflexivity.
  - replace (Nat.min (S n) (Z.to_nat c)) with (Nat.min n (Z.to_nat c)) by lia.
    now rewrite app_nil_r.
Qed.

Lemma upto_pages (pages : nat) :
  flat_map (fun page => flat_map (fun slot => upto (OBJECTS_PER_PAGE * page + slot))
                                 (range OBJECTS_PER_PAGE))
           (map Z.of_nat (seq 0 pages))
  = flat_map upto (map Z.of_nat (seq 0 (4 * pages))).
Proof.
  induction pages as [| p IH]; [reflexivity |].
  rewrite seq_S, map_app, flat_map_app, IH. cbn [map flat_map Nat.add].
  replace (4 * S p)%nat with (4 * p + 4)%nat by lia.
  rewrite seq_app, map_app, flat_map_app. f_equal.
  unfold OBJECTS_PER_PAGE, range. change (Z.to_nat 4) with 4%nat.
  cbn [seq map flat_map Nat.add]. rewrite !app_nil_r.
  replace (4 * Z.of_nat p + Z.of_nat 0) with (Z.of_nat (4 * p)) by lia.
  replace (4 * Z.of_nat p + Z.of_nat 1) with (Z.of_nat (S (4 * p))) by lia.
  replace (4 * Z.of_nat p + Z.of_nat 2) with (Z.of_nat (S (S (4 * p)))) by lia.
  replace (4 * Z.of_nat p + Z.of_nat 3) with (Z.of_nat (S (S (S (4 * p))))) by lia.
  reflexivity.
Qed.

(** Page after page and slot after slot, the indices below [c]
    come out once each and in order. *)
Lemma raster_enumeration :
  0 < c ->
  flat_map (fun page => flat_map (fun slot => upto (OBJECTS_PER_PAGE * page + slot))
                                 (range OBJECTS_PER_PAGE))
           (range ((c + 3) / 4))
  = map g (range c).
Proof.
  intros Hc. unfold range at 2 3. rewrite upto_pages, upto_prefix.
  replace (Nat.min (4 * Z.to_nat ((c + 3) / 4)) (Z.to_nat c)) with (Z.to_nat c);
    [reflexivity |].
  assert (c <= 4 * ((c + 3) / 4)).
  { pose proof (Z.mul_succ_div_gt (c + 3) 4 ltac:(lia)). lia. }
  lia.
Qed.
End Enumeration.

End RasterOrder.

Section RasterTheorem.
Import PdfWriter Canvas Serial Samples.
Local Open Scope Z_scope.



End RasterTheorem.

(** ** The clip of a slot *)

Section ClipFacts.
Import PdfWriter Canvas.

Lemma clips_from_app (g : gstate) (a b : list canvas_op) :
  clips_from g (a ++ b) = clips_from g a ++ clips_from (run g a) b.
Proof.
  revert g. induction a as [| op a IH]; intros g; [reflexivity |].
  simpl. now rewrite IH.
Qed.

Lemma run_app (g : gstate) (a b : list canvas_op) :
  run g (a ++ b) = run (run g a) b.
Proof. unfold run. apply fold_left_app. Qed.

Lemma step_unclipped (g : gstate) (op : canvas_op) :
  unclipped g -> after_background op = true -> unclipped (step g op).
Proof.
  intros [Hc Hs] Hop. destruct op; try discriminate; simpl; try (split; assumption).
  - split; [assumption |]. constructor; assumption.
  - destruct (saved g) as [| c rest] eqn:Hsaved; [split; [assumption | now rewrite Hsaved] |].
    inversion Hs; subst. split; [reflexivity | assumption].
  - split; [reflexivity | constructor].
Qed.

(** Calls that never clip, made with no clip in force, all run
    unclipped and leave the state so. *)
Lemma unclipped_run (ops : list canvas_op) (g : gstate) :
  unclipped g ->
  Forall (fun op => after_background op = true) ops ->
  Forall (fun e => snd e = []) (clips_from g ops) /\ unclipped (run g ops).
Proof.
  intros Hg Hops. revert g Hg.
  induction Hops as [| op ops Hop _ IH]; intros g Hg; [split; [constructor | assumption] |].
  destruct (IH (step g op) (step_unclipped g op Hg Hop)) as [Hall Hrun].
  split; [| exact Hrun]. constructor; [apply Hg | exact Hall].
Qed.

Lemma rotation_after_background (rot : float) :
  Forall (fun op => after_background op = true) (transform_ops_of_rotation rot).
Proof.
  unfold transform_ops_of_rotation. destruct (truthy rot); repeat constructor.
Qed.

Lemma draw_overlay_after_background (wd : world) (ov : overlay) (x y h : float)
      (ops : list canvas_op) :
  _draw_overlay wd ov x y h = Ok ops ->
  Forall (fun op => after_background op = true) ops.
Proof.
  unfold _draw_overlay.
  destruct ov as [data_url mime xm ym wm hm rot | ty xm ym sc rot key].
  - destruct (strip (or_str data_url "")); [intros H; injection H as <-; constructor |].
    destruct (_decode_data_url wd _) as [[raw mime_from_url] | e]; cbn [bind];
      [| discriminate].
    destruct (contains _ _).
    + destruct (inline_svg_page_size wd raw) as [[ow oh] | e]; cbn [bind];
        [| discriminate].
      destruct (_ || _)%bool; [discriminate |].
      intros H; injection H as <-.
      repeat (apply Forall_cons; [reflexivity |]).
      repeat (apply Forall_app; split); try apply rotation_after_background;
        repeat constructor.
    + destruct (read_image wd raw) as [[] | e]; cbn [bind]; [| discriminate].
      intros H; injection H as <-.
      repeat (apply Forall_cons; [reflexivity |]).
      repeat (apply Forall_app; split); try apply rotation_after_background;
        repeat constructor.
  - destruct (strip (or_str key "")); [intros H; injection H as <-; constructor |].
    destruct (String.eqb _ _); [| intros H; injection H as <-; constructor].
    destruct (PrimFloat.leb sc 0); [intros H; injection H as <-; constructor |].
    destruct (overlay_page_size wd _) as [[ow oh] | e]; cbn [bind]; [| discriminate].
    destruct (_ || _)%bool; [discriminate |].
    intros H; injection H as <-.
    repeat (apply Forall_cons; [reflexivity |]).
    repeat (apply Forall_app; split); try apply rotation_after_background;
      repeat constructor.
Qed.

Lemma draw_overlays_after_background (wd : world) (ovs : list overlay)
      (x y h : float) (ops : list canvas_op) :
  draw_overlays wd ovs x y h = Ok ops ->
  Forall (fun op => after_background op = true) ops.
Proof.
  revert ops. induction ovs as [| ov ovs IH]; simpl; intros ops H.
  - injection H as <-. constructor.
  - destruct (_draw_overlay wd ov x y h) as [o |] eqn:Ho; [| discriminate].
    cbn [bind] in H.
    destruct (draw_overlays wd ovs x y h) as [o' |]; [| discriminate].
    cbn [bind] in H. injection H as <-.
    apply Forall_app. split;
      [exact (draw_overlay_after_background _ _ _ _ _ _ Ho) | exact (IH o' eq_refl)].
Qed.

Lemma series_ops_after_background (wd : world) (L : locals) (sc : SeriesConfig.t)
      (x y h : float) (i : Z) (ops : list canvas_op) (pdf : float * float) :
  series_ops wd L sc x y h i = Ok (ops, pdf) ->
  Forall (fun op => after_background op = true) ops.
Proof.
  unfold series_ops.
  destruct (SeriesConfig.x_mm sc), (SeriesConfig.y_mm sc); try discriminate.
  destruct (negb (String.eqb _ _)); [discriminate |].
  intros H. injection H as <- _.
  repeat (apply Forall_cons; [reflexivity |]).
  apply Forall_app. split; [destruct (negb _) |]; repeat constructor.
Qed.

End ClipFacts.

Section ClipTheorem.
Import PdfWriter Canvas.


Lemma unclipped_eta (g : gstate) :
  unclipped g -> unclipped (mk_gstate (clip g) (saved g)).
Proof. now destruct g. Qed.

(** A filled slot is its background, from [saveState] to
    [restoreState], and then calls that neither clip nor place the
    background. *)
Lemma fill_slot_shape
      (wd : world) (t : Template) (L : locals) (slot i : Z)
      (ops : list canvas_op) (m : engine_metrics) :
  fill_slot wd t L slot i = Ok (ops, m) ->
  exists tail,
    ops = background_ops L (object_box_mm t)
                         (fst (fst (slot_origin L slot)))
                         (snd (fst (slot_origin L slot)))
                         (fst (object_origin_pt m)) (snd (object_origin_pt m))
                         (fst (object_pt m)) (snd (object_pt m))
                         (fst (scale m)) (snd (scale m))
          ++ tail
    /\ Forall (fun op => after_background op = true) tail.
Proof.
  unfold fill_slot.
  destruct (slot_origin L slot) as [[sx sy] st].
  destruct (_object_size_pt (object_box_mm t)) as [[ow oh] | e]; cbn [bind];
    [| discriminate].
  destruct (negb _ && _)%bool; [discriminate |].
  destruct (object_origin L _ sx sy st ow oh) as [ox oy].
  destruct (_ || _)%bool; [discriminate |].
  destruct (draw_overlays wd (overlays t) ox oy oh) as [ov |] eqn:Hov; [| discriminate].
  cbn [bind].
  destruct (series_ops wd L (series_config t) ox oy oh i) as [[txt pdf] |] eqn:Htxt;
    [| discriminate].
  cbn [bind]. intros H.
  exists (ov ++ txt). split.
  - injection H as <- <-. reflexivity.
  - apply Forall_app. split.
    + exact (draw_overlays_after_background _ _ _ _ _ _ Hov).
    + exact (series_ops_after_background _ _ _ _ _ _ _ _ _ Htxt).
Qed.

(** The background, call by call: the form is painted under the
    clip rectangle added to what was in force, no call paints an
    overlay or text, and [restoreState] brings the state back. *)
Lemma background_ops_clips
      (L : locals) (cfg : ObjectBoxMm.t)
      (sx sy ox oy ow oh scx scy : float) (g : gstate) :
  let r := if is_exact_mm (mode L)
           then (sx, sy, slot_w_pt L, slot_h_pt L)
           else (ox, oy, ow, oh) in
  let bg := background_ops L cfg sx sy ox oy ow oh scx scy in
  (forall op c,
      In (op, c) (clips_from g bg) ->
      (op = DoForm BackgroundForm -> c = r :: clip g)
      /\ is_overlay_draw op = false
      /\ (forall txt, op <> DrawText txt))
  /\ In (DoForm BackgroundForm, r :: clip g) (clips_from g bg)
  /\ run g bg = mk_gstate (clip g) (saved g).
Proof.
  unfold background_ops, run.
  destruct (is_exact_mm (mode L)); cbn [app clips_from fold_left step clip saved].
  all: split; [| split; [cbn [In]; tauto | reflexivity]].
  all: intros op c Hin; cbn [In] in Hin;
    repeat (destruct Hin as [Hin | Hin];
            [injection Hin as <- <-; repeat split; try discriminate; reflexivity |]);
    contradiction.
Qed.



(** The whole document: the state is unclipped wherever a slot
    starts, so no overlay anywhere is drawn under a clip. *)
Section Document.
Variable wd : world.
Variable t : Template.
Variable L : locals.

Definition overlay_unclipped (e : canvas_op * list rect) : Prop :=
  is_overlay_draw (fst e) = true -> snd e = [].

Lemma slot_drawing_unclipped (page slot : Z) (g : gstate) :
  unclipped g ->
  Forall overlay_unclipped (clips_from g (slot_drawing wd t L page slot))
  /\ unclipped (run g (slot_drawing wd t L page slot)).
Proof.
  intros Hg. unfold slot_drawing.
  destruct (_ <? _)%Z; [| split; [constructor | exact Hg]].
  destruct (fill_slot wd t L slot _) as [[ops m] |] eqn:Hfill;
    [| split; [constructor | exact Hg]].
  destruct (fill_slot_shape wd t L slot _ ops m Hfill) as (tail & -> & Htail).
  rewrite clips_from_app, run_app.
  destruct (background_ops_clips
              L (object_box_mm t)
              (fst (fst (slot_origin L slot))) (snd (fst (slot_origin L slot)))
              (fst (object_origin_pt m)) (snd (object_origin_pt m))
              (fst (object_pt m)) (snd (object_pt m))
              (fst (scale m)) (snd (scale m)) g) as (Hbg & _ & Hback).
  rewrite Hback.
  destruct (unclipped_run tail _ (unclipped_eta g Hg) Htail) as [Hall Hrun].
  split; [| exact Hrun].
  apply Forall_app. split.
  - apply Forall_forall. intros [op c] Hin Hdraw. cbn [fst] in Hdraw.
    destruct (Hbg op c Hin) as (_ & Hov & _). rewrite Hov in Hdraw. discriminate.
  - eapply Forall_impl; [| exact Hall]. intros e He _. exact He.
Qed.

Lemma flat_map_unclipped {A} (f : A -> list canvas_op) (xs : list A) :
  (forall x g, unclipped g ->
               Forall overlay_unclipped (clips_from g (f x))
               /\ unclipped (run g (f x))) ->
  forall g, unclipped g ->
            Forall overlay_unclipped (clips_from g (flat_map f xs))
            /\ unclipped (run g (flat_map f xs)).
Proof.
  intros Hf. induction xs as [| x xs IH]; intros g Hg;
    [split; [constructor | exact Hg] |].
  cbn [flat_map]. rewrite clips_from_app, run_app.
  destruct (Hf x g Hg) as [Hx Hgx]. destruct (IH _ Hgx) as [Hxs Hgxs].
  split; [apply Forall_app; split; assumption | exact Hgxs].
Qed.

Lemma initial_unclipped : unclipped INITIAL.
Proof. split; [reflexivity | constructor]. Qed.

Lemma page_drawing_unclipped (page : Z) (g : gstate) :
  unclipped g ->
  Forall overlay_unclipped (clips_from g (page_drawing wd t L page))
  /\ unclipped (run g (page_drawing wd t L page)).
Proof.
  intros Hg. unfold page_drawing. rewrite clips_from_app, run_app.
  destruct (flat_map_unclipped (slot_drawing wd t L page) (range OBJECTS_PER_PAGE)
                               (slot_drawing_unclipped page) g Hg) as [Hs Hgs].
  split.
  - apply Forall_app. split; [exact Hs |].
    constructor; [discriminate | constructor].
  - exact initial_unclipped.
Qed.

(** X4.  In the whole document, whatever the template, every call
    that paints an overlay is made with no clip in force. *)
Lemma document_overlays_unclipped (op : canvas_op) (c : list rect) :
  In (op, c) (clips_from INITIAL (document wd t L)) ->
  is_overlay_draw op = true -> c = [].
Proof.
  unfold document. rewrite clips_from_app. intros Hin Hop.
  destruct (flat_map_unclipped (page_drawing wd t L) (range (total_pages L))
                               page_drawing_unclipped INITIAL initial_unclipped)
    as [Hpages _].
  apply in_app_or in Hin. destruct Hin as [Hin | Hin].
  - rewrite Forall_forall in Hpages. exact (Hpages _ Hin Hop).
  - destruct Hin as [Hin | []]. injection Hin as <- _. discriminate.
Qed.
End Document.

End ClipTheorem.

Section ClipCounter.
Import PdfWriter Canvas Samples.


Lemma document_overlays_unclipped_witness :
  exists L,
    prepare plain_world (sample_job "exact_mm") = Ok L
    /\ In (DrawImage "AAAA" 0 0 (Units.mm_to_pt 5) (Units.mm_to_pt 5), [])
          (clips_from INITIAL (document plain_world (sample_job "exact_mm") L)).
Proof.
  destruct (prepare plain_world (sample_job "exact_mm")) as [L |] eqn:Hprep;
    [| discriminate].
  exists L. split; [reflexivity |].
  assert (Hin : exists c,
             In (DrawImage "AAAA" 0 0 (Units.mm_to_pt 5) (Units.mm_to_pt 5), c)
                (clips_from INITIAL (document plain_world (sample_job "exact_mm") L))).
  { pose proof Hprep as HL. vm_compute in HL. injection HL as <-.
    eexists. vm_compute. do 11 right. left. reflexivity. }
  destruct Hin as [c Hin].
  now rewrite <- (document_overlays_unclipped
                    plain_world (sample_job "exact_mm") L _ c Hin eq_refl).
Defined.

End ClipCounter.

(* ================================================================== *)
(** ** Serials: from digits to numbers and back *)

Section DecimalFacts.
Import Serial.
Local Open Scope Z_scope.

Lemma int_of_digits_acc (d : Decimal.uint) (acc : positive) :
  fold_left (fun a c => 10 * a + digit_value c)
            (list_ascii_of_string (NilEmpty.string_of_uint d)) (Z.pos acc)
  = Z.pos (Pos.of_uint_acc d acc).
Proof.
  revert acc. induction d as [| d IH | d IH | d IH | d IH | d IH | d IH | d IH | d IH | d IH | d IH];
    intros acc; [reflexivity | ..];
    cbn [NilEmpty.string_of_uint list_ascii_of_string fold_left Pos.of_uint_acc];
    rewrite <- IH; f_equal;
    try (match goal with
         | |- context [digit_value ?c] =>
             let v := eval vm_compute in (digit_value c) in
             change (digit_value c) with v
         end; lia).
Qed.

Lemma int_of_digits_uint (d : Decimal.uint) :
  int_of_digits (list_ascii_of_string (NilEmpty.string_of_uint d)) = Z.of_uint d.
Proof.
  unfold int_of_digits, Z.of_uint.
  induction d as [| d IH | d IH | d IH | d IH | d IH | d IH | d IH | d IH | d IH | d IH];
    [reflexivity | exact IH | ..];
    cbn [NilEmpty.string_of_uint list_ascii_of_string fold_left Pos.of_uint Z.of_N];
    rewrite <- int_of_digits_acc; f_equal.
Qed.

Lemma string_of_uint_nil (d : Decimal.uint) :
  d <> Decimal.Nil -> NilZero.string_of_uint d = NilEmpty.string_of_uint d.
Proof. destruct d; [contradiction | reflexivity ..]. Qed.

(** The characters of a number are decimal digits. *)
Lemma string_of_uint_digits (d : Decimal.uint) :
  Forall (fun c => isdigit c = true) (list_ascii_of_string (NilEmpty.string_of_uint d)).
Proof. induction d; simpl; constructor; (reflexivity || assumption). Qed.

Lemma to_int_nonneg (n : Z) :
  0 <= n -> exists d, Z.to_int n = Decimal.Pos d /\ d <> Decimal.Nil.
Proof.
  destruct n as [| p | p]; intros H; [| | lia].
  - exists (Decimal.D0 Decimal.Nil). split; [reflexivity | discriminate].
  - exists (Pos.to_uint p). split; [reflexivity |].
    intros He. pose proof (DecimalPos.Unsigned.of_to p) as E. rewrite He in E. discriminate.
Qed.

(** [str(n)] for [n >= 0]: a non-empty run of digits whose value is [n]. *)
Lemma str_of_int_nonneg (n : Z) :
  0 <= n ->
  Forall (fun c => isdigit c = true) (list_ascii_of_string (str_of_int n))
  /\ int_of_digits (list_ascii_of_string (str_of_int n)) = n
  /\ str_of_int n <> "".
Proof.
  intros Hn. destruct (to_int_nonneg n Hn) as [d [Hd Hnil]].
  unfold str_of_int. rewrite Hd. cbn [NilZero.string_of_int].
  rewrite (string_of_uint_nil d Hnil). repeat split.
  - apply string_of_uint_digits.
  - rewrite int_of_digits_uint.
    change (Z.of_uint d) with (Z.of_int (Decimal.Pos d)). rewrite <- Hd. apply DecimalZ.of_to.
  - destruct d; [contradiction | discriminate ..].
Qed.


Lemma digit_not_sign (c : ascii) :
  isdigit c = true -> (Ascii.eqb c "+" || Ascii.eqb c "-")%bool = false.
Proof.
  intros H.
  destruct (Ascii.eqb_spec c "+") as [-> |]; [discriminate |].
  destruct (Ascii.eqb_spec c "-") as [-> |]; [discriminate | reflexivity].
Qed.

Lemma string_app_empty_r (s : string) : (s ++ "")%string = s.
Proof. induction s as [| c s IH]; simpl; [reflexivity | now rewrite IH]. Qed.

(** On a run of digits [zfill] only pads. *)
Lemma zfill_digits (s : string) (width : nat) :
  Forall (fun c => isdigit c = true) (list_ascii_of_string s) ->
  zfill s width = (zeros (width - String.length s) ++ s)%string.
Proof.
  intros Hd. unfold zfill.
  destruct (Nat.leb_spec width (String.length s)) as [Hle | Hlt].
  - replace (width - String.length s)%nat with 0%nat by lia. reflexivity.
  - destruct s as [| c s]; [now rewrite string_app_empty_r |].
    inversion Hd as [| ? ? Hc _]; subst. now rewrite (digit_not_sign c Hc).
Qed.

Lemma int_of_digits_zeros (k : nat) (s : string) :
  int_of_digits (list_ascii_of_string (zeros k ++ s))
  = int_of_digits (list_ascii_of_string s).
Proof. induction k as [| k IH]; [reflexivity | exact IH]. Qed.

Lemma zeros_digits (k : nat) (s : string) :
  Forall (fun c => isdigit c = true) (list_ascii_of_string s) ->
  Forall (fun c => isdigit c = true) (list_ascii_of_string (zeros k ++ s)).
Proof. intros H. induction k as [| k IH]; [exact H | now constructor]. Qed.

(** The numeric part of a serial: digits only, and worth [n]. *)
Lemma zfill_str_of_int (n : Z) (width : nat) :
  0 <= n ->
  Forall (fun c => isdigit c = true)
         (list_ascii_of_string (zfill (str_of_int n) width))
  /\ int_of_digits (list_ascii_of_string (zfill (str_of_int n) width)) = n
  /\ zfill (str_of_int n) width <> "".
Proof.
  intros Hn. destruct (str_of_int_nonneg n Hn) as (Hd & Hv & Hne).
  rewrite (zfill_digits _ width Hd). repeat split.
  - now apply zeros_digits.
  - now rewrite int_of_digits_zeros.
  - destruct (width - _)%nat; [exact Hne | discriminate].
Qed.

Lemma string_app_inv_head (p a b : string) :
  (p ++ a)%string = (p ++ b)%string -> a = b.
Proof.
  induction p as [| c p IH]; simpl; intros H; [exact H |].
  injection H as H. now apply IH.
Qed.

(** Two indices that give the same serial are the same index. *)
Lemma series_value_injective (prefix : string) (base : Z) (width : nat) (i j : Z) :
  0 <= base + i -> 0 <= base + j ->
  _series_value prefix base width i = _series_value prefix base width j -> i = j.
Proof.
  intros Hi Hj H. unfold _series_value in H. apply string_app_inv_head in H.
  destruct (zfill_str_of_int (base + i) width Hi) as (_ & Vi & _).
  destruct (zfill_str_of_int (base + j) width Hj) as (_ & Vj & _).
  rewrite H in Vi. lia.
Qed.

(** *** Reading a start string back *)

Lemma takeWhile_split {A} (p : A -> bool) (l : list A) :
  exists rest,
    l = takeWhile p l ++ rest
    /\ match rest with [] => True | a :: _ => p a = false end
    /\ Forall (fun a => p a = true) (takeWhile p l).
Proof.
  induction l as [| a l (rest & Hl & Hrest & Hall)]; simpl.
  - exists []. repeat split; constructor.
  - destruct (p a) eqn:Ha.
    + exists rest. repeat split; [simpl; now f_equal | exact Hrest | now constructor].
    + exists (a :: l). repeat split; [exact Ha | constructor].
Qed.

Lemma string_of_list_ascii_app (a b : list ascii) :
  string_of_list_ascii (a ++ b)
  = (string_of_list_ascii a ++ string_of_list_ascii b)%string.
Proof. induction a as [| c a IH]; simpl; [reflexivity | now rewrite IH]. Qed.

(** What [_parse_series_start] accepts: a prefix that does not end
    in a digit, a run of digits, and nothing more than a newline
    after it. *)
Lemma parse_series_start_inv (start prefix : string) (base : Z) (width : nat) :
  _parse_series_start start = Ok (prefix, base, width) ->
  exists run tail,
    start = (prefix ++ run ++ tail)%string
    /\ (tail = "" \/ tail = Samples.NEWLINE)
    /\ run <> ""
    /\ Forall (fun c => isdigit c = true) (list_ascii_of_string run)
    /\ match rev (list_ascii_of_string prefix) with
       | [] => True
       | c :: _ => isdigit c = false
       end
    /\ base = int_of_digits (list_ascii_of_string run)
    /\ width = String.length run.
Proof.
  unfold _parse_series_start, search_trailing_digits.
  set (r := rev (list_ascii_of_string start)).
  assert (Hstart : start = string_of_list_ascii (rev r)).
  { subst r. now rewrite rev_involutive, string_of_list_ascii_of_string. }
  set (body := match r with
               | c :: r' => if Ascii.eqb c "010" then r' else r
               | [] => r
               end).
  assert (Hbody : exists tail,
             rev r = rev body ++ list_ascii_of_string tail
             /\ (tail = "" \/ tail = Samples.NEWLINE)).
  { subst body. destruct r as [| c r'].
    - exists "". split; [reflexivity | now left].
    - destruct (Ascii.eqb_spec c "010") as [-> | _].
      + exists Samples.NEWLINE. split; [reflexivity | now right].
      + exists "". split; [now rewrite app_nil_r | now left]. }
  destruct Hbody as (tail & Hr & Htail).
  destruct (takeWhile_split isdigit body) as (rest & Hsplit & Hrest & Hall).
  destruct (takeWhile isdigit body) as [| c run_rev] eqn:Hrun; [discriminate |].
  intros H. injection H as Hp Hb Hw.
  set (run := c :: run_rev) in *.
  change (S (List.length run_rev)) with (List.length run) in Hp.
  change (rev run_rev ++ [c]) with (rev run) in Hb, Hw.
  exists (string_of_list_ascii (rev run)), tail.
  assert (Hlen : (List.length body - List.length run)%nat = List.length (rev rest)).
  { rewrite Hsplit, length_app, length_rev. lia. }
  assert (Hchars : list_ascii_of_string start
                   = rev rest ++ rev run ++ list_ascii_of_string tail).
  { rewrite Hstart at 1. rewrite list_ascii_of_string_of_list_ascii, Hr, Hsplit.
    now rewrite rev_app_distr, <- app_assoc. }
  assert (Hprefix : prefix = string_of_list_ascii (rev rest)).
  { rewrite <- Hp, Hlen. unfold slice_to. rewrite Hchars.
    rewrite firstn_app, firstn_all, Nat.sub_diag. cbn [firstn]. now rewrite app_nil_r. }
  repeat split.
  - rewrite Hprefix, <- (string_of_list_ascii_of_string tail),
      <- !string_of_list_ascii_app, <- Hchars.
    now rewrite string_of_list_ascii_of_string.
  - exact Htail.
  - intros He. apply (f_equal list_ascii_of_string) in He.
    rewrite list_ascii_of_string_of_list_ascii in He. simpl in He.
    now apply app_eq_nil in He.
  - rewrite list_ascii_of_string_of_list_ascii.
    apply Forall_forall. intros x Hx. apply in_rev in Hx.
    rewrite Forall_forall in Hall. now apply Hall.
  - rewrite Hprefix, list_ascii_of_string_of_list_ascii, rev_involutive. exact Hrest.
  - rewrite <- Hb. now rewrite list_ascii_of_string_of_list_ascii.
  - rewrite <- Hw. clear. induction (rev run) as [| a l IH]; simpl; [reflexivity | now rewrite IH].
Qed.





End DecimalFacts.

Section SerialRoundTrip.
Import Serial Samples.
Local Open Scope Z_scope.

Lemma int_of_digits_nonneg (l : list ascii) :
  Forall (fun c => isdigit c = true) l -> 0 <= int_of_digits l.
Proof.
  unfold int_of_digits. intros H.
  enough (G : forall acc, 0 <= acc ->
                          0 <= fold_left (fun a c => 10 * a + digit_value c) l acc)
    by (apply G; lia).
  induction H as [| c l Hc _ IH]; intros acc Hacc; [exact Hacc |].
  cbn [fold_left]. apply IH. unfold isdigit in Hc. apply andb_prop in Hc. destruct Hc as [Hlo _].
  apply Nat.leb_le in Hlo. unfold digit_value. lia.
Qed.





End SerialRoundTrip.

(* ================================================================== *)
(** ** The font registry and the fonts endpoint *)

Section RegistryOrder.
Import FontRegistry.

(** [a] does not sort after [b]. *)
Definition key_le (a b : entry) : Prop :=
  String.ltb (sort_key b) (sort_key a) = false.

Lemma ltb_irrefl (a : string) : String.ltb a a = false.
Proof.
  destruct (String.ltb a a) eqn:H; [| reflexivity].
  now rewrite (ltb_asym _ _ H) in H.
Qed.

Lemma key_le_trans (a b c : entry) : key_le a b -> key_le b c -> key_le a c.
Proof.
  unfold key_le. intros Hab Hbc.
  destruct (String.ltb (sort_key c) (sort_key a)) eqn:Hca; [| reflexivity].
  destruct (String.eqb_spec (sort_key b) (sort_key c)) as [E | Hne].
  - rewrite E in Hab. congruence.
  - destruct (ltb_total _ _ Hne) as [H | H]; [| congruence].
    rewrite (ltb_trans _ _ _ H Hca) in Hab. discriminate.
Qed.

Lemma insert_sorted_perm (e : entry) (l : list entry) :
  Permutation (e :: l) (insert_sorted e l).
Proof.
  induction l as [| x l IH]; simpl; [reflexivity |].
  destruct (String.ltb _ _); [reflexivity |].
  rewrite perm_swap. now constructor.
Qed.

Lemma sort_entries_acc_perm (l acc : list entry) :
  Permutation (l ++ acc) (fold_left (fun acc e => insert_sorted e acc) l acc).
Proof.
  revert acc. induction l as [| e l IH]; intros acc; simpl; [reflexivity |].
  rewrite <- IH. rewrite <- insert_sorted_perm. apply Permutation_middle.
Qed.

Lemma sort_entries_perm (l : list entry) : Permutation l (sort_entries l).
Proof.
  unfold sort_entries. rewrite <- sort_entries_acc_perm. now rewrite app_nil_r.
Qed.

Lemma insert_sorted_sorted (e : entry) (l : list entry) :
  StronglySorted key_le l -> StronglySorted key_le (insert_sorted e l).
Proof.
  induction 1 as [| x l Hs IH Hx]; simpl.
  - constructor; constructor.
  - destruct (String.ltb (sort_key e) (sort_key x)) eqn:Hex.
    + constructor; [now constructor |].
      assert (Hle : key_le e x) by (unfold key_le; now apply ltb_asym).
      constructor; [exact Hle |].
      eapply Forall_impl; [| exact Hx]. intros y Hy. exact (key_le_trans _ _ _ Hle Hy).
    + constructor; [exact IH |].
      apply Forall_forall. intros y Hy. apply In_insert_sorted in Hy.
      destruct Hy as [-> | Hy]; [exact Hex |].
      rewrite Forall_forall in Hx. now apply Hx.
Qed.

Lemma sort_entries_sorted (l : list entry) : StronglySorted key_le (sort_entries l).
Proof.
  unfold sort_entries.
  enough (G : forall acc, StronglySorted key_le acc ->
                          StronglySorted key_le
                            (fold_left (fun acc e => insert_sorted e acc) l acc))
    by (apply G; constructor).
  induction l as [| e l IH]; intros acc Hacc; simpl; [exact Hacc |].
  apply IH. now apply insert_sorted_sorted.
Qed.

(** The two loops keep [seen] the keys of [out], each once. *)
Definition keys_seen (st : list entry * list string) : Prop :=
  snd st = rev (map sort_key (fst st)) /\ NoDup (snd st).

Lemma sort_key_lower (e : entry) : sort_key e = lower (family e).
Proof. unfold sort_key. now rewrite or_str_empty_r. Qed.

Lemma mem_false (x : string) (xs : list string) : mem x xs = false -> ~ In x xs.
Proof. intros H Hin. apply mem_In in Hin. congruence. Qed.

Lemma keys_seen_push (out : list entry) (seen : list string) (e : entry) :
  keys_seen (out, seen) -> mem (sort_key e) seen = false ->
  keys_seen (out ++ [e], sort_key e :: seen).
Proof.
  intros [Hs Hnd] Hm. cbn [fst snd] in *. split; cbn [fst snd].
  - rewrite map_app, rev_app_distr. cbn [map rev app]. now f_equal.
  - constructor; [now apply mem_false | exact Hnd].
Qed.

Lemma add_core_keys (st : list entry * list string) (name : string) :
  keys_seen st -> keys_seen (add_core st name).
Proof.
  destruct st as [out seen]. intros H. unfold add_core.
  destruct (mem (lower name) seen) eqn:Hm; [exact H |].
  pose proof (keys_seen_push out seen (mk_entry name "pdf-core" None false) H) as P.
  rewrite sort_key_lower in P. now apply P.
Qed.

Lemma add_file_keys (st : list entry * list string) (p : font_file) :
  keys_seen st -> keys_seen (add_file st p).
Proof.
  destruct st as [out seen]. intros H. unfold add_file.
  destruct (ff_family p) as [[| c fam] |]; try exact H.
  destruct (mem (lower (String c fam)) seen) eqn:Hm; [exact H |].
  pose proof (keys_seen_push out seen
                (mk_entry (String c fam) "system" (Some (ff_path p)) (ff_embeddable p))
                H) as P.
  rewrite sort_key_lower in P. now apply P.
Qed.

Lemma fold_keys {A} (f : list entry * list string -> A -> list entry * list string)
      (xs : list A) (st : list entry * list string) :
  (forall st x, keys_seen st -> keys_seen (f st x)) ->
  keys_seen st -> keys_seen (fold_left f xs st).
Proof.
  intros Hf. revert st. induction xs as [| x xs IH]; intros st H; simpl; [exact H |].
  apply IH. now apply Hf.
Qed.

(** The state after the first loop, and after both. *)
Definition core_state : list entry * list string :=
  fold_left add_core _PDF_CORE_FONTS ([], []).

Definition scanned (files : list font_file) : list entry * list string :=
  fold_left add_file files core_state.

Lemma registry_scanned (files : list font_file) :
  get_font_registry files = sort_entries (fst (scanned files)).
Proof. reflexivity. Qed.

Lemma scanned_keys (files : list font_file) : keys_seen (scanned files).
Proof.
  apply fold_keys; [exact add_file_keys |].
  apply fold_keys; [exact add_core_keys |].
  split; [reflexivity | constructor].
Qed.

Lemma registry_keys_nodup (files : list font_file) :
  NoDup (map sort_key (get_font_registry files)).
Proof.
  rewrite registry_scanned.
  destruct (scanned_keys files) as [Hs Hnd].
  eapply Permutation_NoDup; [apply Permutation_map, sort_entries_perm |].
  rewrite Hs in Hnd. apply NoDup_rev in Hnd. now rewrite rev_involutive in Hnd.
Qed.

End RegistryOrder.

Section RegistryContents.
Import FontRegistry.

(** The entry the first loop makes for a core font. *)
Definition core_entry (name : string) : entry := mk_entry name "pdf-core" None false.

(** The entry the second loop makes for a font file. *)
Definition file_entry (f : font_file) (fam : string) : entry :=
  mk_entry fam "system" (Some (ff_path f)) (ff_embeddable f).

Lemma core_state_eq :
  core_state = (map core_entry _PDF_CORE_FONTS, rev (map lower _PDF_CORE_FONTS)).
Proof. reflexivity. Qed.

Lemma add_file_extends (files : list font_file) (st : list entry * list string) :
  exists extra, fst (fold_left add_file files st) = fst st ++ extra.
Proof.
  revert st. induction files as [| f files IH]; intros st; simpl.
  - exists []. now rewrite app_nil_r.
  - destruct (IH (add_file st f)) as [extra He]. rewrite He.
    destruct st as [out seen]. unfold add_file.
    destruct (ff_family f) as [[| c fam] |]; try (now exists extra).
    destruct (mem _ seen); [now exists extra |].
    cbn [fst]. rewrite <- app_assoc. now eexists.
Qed.

Lemma registry_core_in (files : list font_file) (name : string) :
  In name _PDF_CORE_FONTS -> In (core_entry name) (get_font_registry files).
Proof.
  intros Hin. rewrite registry_scanned, In_sort_entries.
  destruct (add_file_extends files core_state) as [extra He].
  unfold scanned. rewrite He, core_state_eq. cbn [fst].
  apply in_or_app. left. now apply in_map.
Qed.

Lemma NoDup_map_eq {A B} (f : A -> B) (l : list A) (a b : A) :
  NoDup (map f l) -> In a l -> In b l -> f a = f b -> a = b.
Proof.
  induction l as [| x l IH]; simpl; intros Hnd Ha Hb Hf; [contradiction |].
  inversion Hnd as [| ? ? Hnin Hnd']; subst.
  destruct Ha as [-> | Ha], Hb as [-> | Hb]; try reflexivity.
  - exfalso. apply Hnin. rewrite Hf. now apply in_map.
  - exfalso. apply Hnin. rewrite <- Hf. now apply in_map.
  - now apply IH.
Qed.

(** Two entries of the registry whose families differ at most in
    case are the same entry. *)
Lemma registry_same_key (files : list font_file) (a b : entry) :
  In a (get_font_registry files) -> In b (get_font_registry files) ->
  lower (family a) = lower (family b) -> a = b.
Proof.
  intros Ha Hb Hk.
  apply (NoDup_map_eq sort_key _ a b (registry_keys_nodup files) Ha Hb).
  now rewrite !sort_key_lower.
Qed.

(** Where an entry comes from, with all of its fields. *)
Definition made_from (files : list font_file) (e : entry) : Prop :=
  (exists name, In name _PDF_CORE_FONTS /\ e = core_entry name)
  \/ (exists f fam, In f files /\ ff_family f = Some fam /\ fam <> ""
                    /\ e = file_entry f fam).

Lemma add_file_made (files all : list font_file) (st : list entry * list string) :
  Forall (made_from all) (fst st) -> incl files all ->
  Forall (made_from all) (fst (fold_left add_file files st)).
Proof.
  revert st. induction files as [| f files IH]; intros [out seen] Hout Hincl; simpl.
  - assumption.
  - apply IH; [| intros x Hx; apply Hincl; now right].
    unfold add_file.
    destruct (ff_family f) as [[| c fam] |] eqn:Hfam; try assumption.
    destruct (mem (lower (String c fam)) seen); [assumption |]. cbn [fst].
    apply Forall_app. split; [assumption |].
    constructor; [| constructor]. right. exists f, (String c fam).
    repeat split; [apply Hincl; now left | assumption | discriminate].
Qed.

Lemma registry_made (files : list font_file) (e : entry) :
  In e (get_font_registry files) -> made_from files e.
Proof.
  rewrite registry_scanned, In_sort_entries. intros Hin.
  assert (H : Forall (made_from files) (fst (scanned files))).
  { apply add_file_made; [| apply incl_refl].
    rewrite core_state_eq. cbn [fst]. apply Forall_forall. intros x Hx.
    apply in_map_iff in Hx. destruct Hx as [name [<- Hname]].
    left. now exists name. }
  rewrite Forall_forall in H. now apply H.
Qed.

(** The keys seen after some files: those of the core fonts and
    those of the files. *)
Definition key_from (files : list font_file) (k : string) : Prop :=
  (exists name, In name _PDF_CORE_FONTS /\ k = lower name)
  \/ (exists g fam, In g files /\ ff_family g = Some fam /\ k = lower fam).

Lemma add_file_seen (files all : list font_file) (st : list entry * list string) :
  Forall (key_from all) (snd st) -> incl files all ->
  Forall (key_from all) (snd (fold_left add_file files st)).
Proof.
  revert st. induction files as [| f files IH]; intros [out seen] Hseen Hincl; simpl.
  - assumption.
  - apply IH; [| intros x Hx; apply Hincl; now right].
    unfold add_file.
    destruct (ff_family f) as [[| c fam] |] eqn:Hfam; try assumption.
    destruct (mem (lower (String c fam)) seen); [assumption |]. cbn [snd].
    constructor; [| assumption]. right. exists f, (String c fam).
    repeat split; [apply Hincl; now left | assumption].
Qed.

Lemma core_seen (files : list font_file) : Forall (key_from files) (snd core_state).
Proof.
  rewrite core_state_eq. cbn [snd]. apply Forall_forall. intros k Hk.
  apply in_rev, in_map_iff in Hk. destruct Hk as [name [<- Hname]].
  left. now exists name.
Qed.

End RegistryContents.

Section RegistryTheorems.
Import FontRegistry.

(** The registry in order and without a repeated key. *)
Lemma registry_sorted_keys (files : list font_file) :
  StronglySorted
    (fun a b => String.ltb (lower (family b)) (lower (family a)) = false)
    (get_font_registry files)
  /\ NoDup (map (fun e => lower (family e)) (get_font_registry files)).
Proof.
  split.
  - pose proof (sort_entries_sorted (fst (scanned files))) as H.
    rewrite <- registry_scanned in H.
    induction H as [| x l Hs IH Hx]; constructor; [exact IH |].
    eapply Forall_impl; [| exact Hx].
    intros y Hy. unfold key_le in Hy. now rewrite !sort_key_lower in Hy.
  - pose proof (registry_keys_nodup files) as H.
    erewrite map_ext; [exact H |]. intros e. now rewrite sort_key_lower.
Qed.

(** X7.  Whatever font files are found, the registry is in strictly
    increasing order of family, case ignored: it is sorted, and no
    two of its entries have families that differ at most in case. *)
Theorem registry_strictly_sorted (files : list font_file) :
  StronglySorted
    (fun a b => String.ltb (lower (family a)) (lower (family b)) = true)
    (get_font_registry files).
Proof.
  destruct (registry_sorted_keys files) as [Hs Hnd].
  induction Hs as [| x l Hs IH Hx]; constructor.
  - apply IH. now inversion Hnd.
  - inversion Hnd as [| ? ? Hnin _]; subst.
    apply Forall_forall. intros y Hy.
    rewrite Forall_forall in Hx. specialize (Hx y Hy).
    assert (Hne : lower (family x) <> lower (family y)).
    { intros E. apply Hnin. rewrite E.
      exact (in_map (fun e => lower (family e)) l y Hy). }
    destruct (ltb_total _ _ Hne) as [H | H]; [exact H | congruence].
Qed.

(** X8.  Each of the fourteen core fonts is in the registry, as a
    [pdf-core] entry with no path that cannot be embedded, whatever
    font files are found; and a font file whose family is a core
    name in any case adds nothing: the entry of that name is the
    core one. *)
Theorem registry_core_fonts (files : list font_file) (name : string) :
  In name _PDF_CORE_FONTS ->
  In (mk_entry name "pdf-core" None false) (get_font_registry files)
  /\ forall e, In e (get_font_registry files) ->
               lower (family e) = lower name ->
               e = mk_entry name "pdf-core" None false.
Proof.
  intros Hname. split; [exact (registry_core_in files name Hname) |].
  intros e He Hk.
  exact (registry_same_key files e _ He (registry_core_in files name Hname) Hk).
Qed.

Lemma registry_core_fonts_witness :
  In (mk_entry "Times-Roman" "pdf-core" None false)
     (get_font_registry [mk_font_file "/usr/share/fonts/t.ttf" (Some "times-roman") true]).
Proof.
  apply (registry_core_fonts
           [mk_font_file "/usr/share/fonts/t.ttf" (Some "times-roman") true]
           "Times-Roman").
  simpl. tauto.
Defined.

(** X9.  Of the font files that name a family, the first one wins:
    a file whose family is not empty, is no core name, and is the
    family of no earlier file (case ignored throughout) is in the
    registry as a [system] entry with its own path and
    embeddability, and it is the only entry of that family. *)
Theorem registry_first_file_wins
        (pre post : list font_file) (f : font_file) (fam : string) :
  ff_family f = Some fam ->
  fam <> "" ->
  (forall name, In name _PDF_CORE_FONTS -> lower name <> lower fam) ->
  (forall g fam', In g pre -> ff_family g = Some fam' -> lower fam' <> lower fam) ->
  let files := pre ++ f :: post in
  In (mk_entry fam "system" (Some (ff_path f)) (ff_embeddable f))
     (get_font_registry files)
  /\ forall e, In e (get_font_registry files) ->
               lower (family e) = lower fam ->
               e = mk_entry fam "system" (Some (ff_path f)) (ff_embeddable f).
Proof.
  intros Hfam Hne Hcore Hpre files.
  assert (Hin : In (file_entry f fam) (get_font_registry files)).
  { rewrite registry_scanned, In_sort_entries.
    unfold files, scanned. rewrite fold_left_app. cbn [fold_left].
    set (st := fold_left add_file pre core_state).
    assert (Hseen : ~ In (lower fam) (snd st)).
    { intros Hk.
      pose proof (add_file_seen pre pre core_state (core_seen pre) (incl_refl pre)) as H.
      rewrite Forall_forall in H.
      destruct (H _ Hk) as [(name & Hname & E) | (g & fam' & Hg & Hgf & E)].
      - exact (Hcore name Hname (eq_sym E)).
      - exact (Hpre g fam' Hg Hgf (eq_sym E)). }
    destruct (add_file_extends post (add_file st f)) as [extra He]. rewrite He.
    apply in_or_app. left.
    destruct st as [out seen]. unfold add_file. rewrite Hfam.
    destruct fam as [| c fam]; [contradiction |].
    destruct (mem (lower (String c fam)) seen) eqn:Hm.
    - exfalso. apply Hseen. now apply mem_In.
    - cbn [fst]. apply in_or_app. right. now left. }
  split; [exact Hin |].
  intros e He Hk. exact (registry_same_key files e _ He Hin Hk).
Qed.

Lemma registry_first_file_wins_witness :
  In (mk_entry "Arial" "system" (Some "/a.ttf") true)
     (get_font_registry [mk_font_file "/a.ttf" (Some "Arial") true;
                         mk_font_file "/b.ttf" (Some "ARIAL") false]).
Proof.
  apply (registry_first_file_wins
           [] [mk_font_file "/b.ttf" (Some "ARIAL") false]
           (mk_font_file "/a.ttf" (Some "Arial") true) "Arial" eq_refl).
  - discriminate.
  - intros name Hin. simpl in Hin.
    repeat (destruct Hin as [<- | Hin]; [discriminate |]). contradiction.
  - intros g fam' [].
Defined.

(** X10.  [resolve_font_family] never names a font the renderer
    cannot set: the family it returns is a core font, or a name the
    renderer had registered, or the font this very call registered
    with success.  The family is [Helvetica] or the request in some
    case, and [embedded] is true exactly when it is no core font. *)
Theorem resolve_font_family_usable
        (w : env) (requested_family fam src : string) (emb : bool) :
  resolve_font_family w requested_family = Ok (fam, src, emb) ->
  (In fam _PDF_CORE_FONTS
   \/ In fam (registered_names w)
   \/ exists path, register_font w fam path = Ok tt)
  /\ (fam = "Helvetica" \/ lower fam = lower (strip requested_family))
  /\ emb = negb (mem fam _PDF_CORE_FONTS).
Proof.
  unfold resolve_font_family. rewrite or_str_empty_r.
  assert (Hhelv : In "Helvetica" _PDF_CORE_FONTS) by (simpl; tauto).
  destruct (strip requested_family) as [| c r] eqn:Hreq.
  { intros H. injection H as <- _ <-. repeat split; auto. }
  set (requested := String c r) in *.
  destruct (mem requested (registered_names w) || mem requested _PDF_CORE_FONTS) eqn:Hknown.
  { intros H. injection H as <- _ <-. repeat split; [| now right].
    apply orb_true_iff in Hknown. destruct Hknown as [H | H]; apply mem_In in H; auto. }
  destruct (find _ _) as [hit |] eqn:Hfind.
  2:{ intros H. injection H as <- _ <-. repeat split; auto. }
  apply find_some in Hfind. destruct Hfind as [Hin Hkey].
  apply String.eqb_eq in Hkey. rewrite or_str_empty_r in Hkey.
  destruct (strip (opt_or_str (path hit) "")) as [| pc pr] eqn:Hpath.
  { intros H. injection H as <- _ <-. repeat split; auto. }
  destruct (embeddable hit).
  2:{ intros H. injection H as <- _ <-. repeat split; auto. }
  destruct (register_font w (family hit) (String pc pr)) as [[] |] eqn:Hregister;
    cbn [bind try_except].
  2:{ intros H. injection H as <- _ <-. repeat split; auto. }
  intros H. injection H as <- _ <-. repeat split.
  - right. right. now exists (String pc pr).
  - now right.
  - destruct (mem (family hit) _PDF_CORE_FONTS) eqn:Hcore; [| reflexivity].
    exfalso. apply mem_In in Hcore.
    pose proof (registry_same_key _ hit _ Hin
                  (registry_core_in (font_files w) _ Hcore) eq_refl) as E.
    rewrite E in Hpath. discriminate.
Qed.

Lemma resolve_font_family_usable_witness :
  let w := mk_env [mk_font_file "/a.ttf" (Some "Arial") true] [] (fun _ _ => Ok tt) in
  resolve_font_family w " arial " = Ok ("Arial", "system", true)
  /\ exists path, register_font w "Arial" path = Ok tt.
Proof.
  intros w. split; [reflexivity |].
  destruct (resolve_font_family_usable w " arial " "Arial" "system" true eq_refl)
    as [[Hcore | [Hreg | Hpath]] _].
  - exfalso. simpl in Hcore.
    repeat (destruct Hcore as [Hcore | Hcore]; [discriminate |]). contradiction.
  - destruct Hreg.
  - exact Hpath.
Defined.

End RegistryTheorems.

Section FontsEndpoint.
Import FontRegistry Main.

Lemma StronglySorted_filter {A} (R : A -> A -> Prop) (p : A -> bool) (l : list A) :
  StronglySorted R l -> StronglySorted R (filter p l).
Proof.
  induction 1 as [| x l Hs IH Hx]; simpl; [constructor |].
  destruct (p x); [| exact IH].
  constructor; [exact IH |].
  apply Forall_forall. intros y Hy. apply filter_In in Hy.
  rewrite Forall_forall in Hx. now apply Hx.
Qed.

Lemma StronglySorted_map {A B} (R : B -> B -> Prop) (g : A -> B) (l : list A) :
  StronglySorted (fun a b => R (g a) (g b)) l -> StronglySorted R (map g l).
Proof.
  induction 1 as [| x l Hs IH Hx]; simpl; constructor; [exact IH |].
  apply Forall_forall. intros y Hy. apply in_map_iff in Hy.
  destruct Hy as [a [<- Ha]]. rewrite Forall_forall in Hx. now apply Hx.
Qed.

Lemma core_font_not_blank (name : string) :
  In name _PDF_CORE_FONTS -> strip name <> "".
Proof.
  intros Hin. simpl in Hin.
  repeat (destruct Hin as [<- | Hin]; [discriminate |]). contradiction.
Qed.

(** X11.  [GET /fonts]: a request whose key is not the service's is
    answered 401 whatever fonts there are.  With the key, the answer
    lists every core font as [pdf-core]; every item has a family
    that is not blank and [pdf-core] or [system] for its source; and
    the items are ordered by family, case ignored. *)
Theorem fonts_endpoint_answer
        (INTERNAL_API_KEY : string) (files : list font_file) (x_internal_key : string) :
  (x_internal_key <> INTERNAL_API_KEY ->
   fonts_endpoint INTERNAL_API_KEY files x_internal_key
   = HTTPException 401 "Unauthorized")
  /\ exists body,
      fonts_endpoint INTERNAL_API_KEY files INTERNAL_API_KEY = Response body
      /\ (forall name, In name _PDF_CORE_FONTS -> In (name, "pdf-core") body)
      /\ (forall fam src, In (fam, src) body ->
                          strip fam <> "" /\ (src = "pdf-core" \/ src = "system"))
      /\ StronglySorted
           (fun a b => String.ltb (lower (fst b)) (lower (fst a)) = false) body.
Proof.
  unfold fonts_endpoint. split.
  { intros Hne. apply String.eqb_neq in Hne. now rewrite Hne. }
  rewrite String.eqb_refl. cbn [negb]. eexists. split; [reflexivity |].
  split; [| split].
  - intros name Hname. apply in_map_iff. exists (core_entry name).
    split; [cbn; now rewrite or_str_empty_r |].
    apply filter_In. split; [exact (registry_core_in files name Hname) |].
    cbn [family core_entry]. rewrite or_str_empty_r.
    pose proof (core_font_not_blank name Hname) as Hb.
    now destruct (strip name).
  - intros fam src Hin. apply in_map_iff in Hin.
    destruct Hin as [e [He Hin]]. apply filter_In in Hin. destruct Hin as [Hin Hkeep].
    injection He as <- <-. rewrite or_str_empty_r in *. split.
    + intros Hb. now rewrite Hb in Hkeep.
    + destruct (registry_made files e Hin)
        as [(name & _ & ->) | (f & fam & _ & _ & _ & ->)]; [now left | now right].
  - apply StronglySorted_map, StronglySorted_filter.
    destruct (registry_sorted_keys files) as [H _].
    induction H as [| x l Hs IH Hx]; constructor; [exact IH |].
    eapply Forall_impl; [| exact Hx].
    intros y Hy. cbn [fst]. now rewrite !or_str_empty_r.
Qed.

End FontsEndpoint.

(* ================================================================== *)
(** ** Data URLs and custom fonts *)

Section DataUrl.
Import PdfWriter.












End DataUrl.

Section DataUrlTheorems.
Import PdfWriter.
Local Open Scope string_scope.







End DataUrlTheorems.

Section CustomFonts.
Import PdfWriter.

(** One custom font: [registered] only grows, by the family of
    this font at most, and holds it afterwards unless the font is
    skipped for a blank family or data URL. *)
Lemma register_custom_font_step
      (wd : world) (registered registered' : list string) (f : CustomFont.t) :
  register_custom_font wd registered f = Ok registered' ->
  incl registered registered'
  /\ (strip (CustomFont.family f) <> "" -> strip (CustomFont.data_url f) <> "" ->
      In (strip (CustomFont.family f)) registered')
  /\ (forall name, In name registered' ->
                   In name registered \/ name = strip (CustomFont.family f)).
Proof.
  unfold register_custom_font. rewrite !or_str_empty_r.
  destruct (strip (CustomFont.family f)) as [| c fam] eqn:Hfam.
  { intros H. injection H as <-. repeat split; auto using incl_refl. contradiction. }
  destruct (strip (CustomFont.data_url f)) as [| d url] eqn:Hurl.
  { intros H. injection H as <-. repeat split; auto using incl_refl. contradiction. }
  destruct (mem (String c fam) registered) eqn:Hmem.
  { intros H. injection H as <-. apply mem_In in Hmem.
    repeat split; auto using incl_refl. }
  destruct (_decode_data_url wd _) as [[raw mime] |]; cbn [bind]; [| discriminate].
  destruct (register_ttfont wd _ _ _) as [[] |]; cbn [bind]; [| discriminate].
  intros H. injection H as <-. repeat split.
  - intros x Hx. now right.
  - intros _ _. now left.
  - intros name [<- | Hin]; auto.
Qed.

Lemma register_custom_fonts_member
      (wd : world) (fonts : list CustomFont.t) (registered registered' : list string)
      (f : CustomFont.t) :
  _register_custom_fonts wd registered fonts = Ok registered' ->
  In f fonts ->
  strip (CustomFont.family f) <> "" -> strip (CustomFont.data_url f) <> "" ->
  In (strip (CustomFont.family f)) registered'.
Proof.
  revert registered. induction fonts as [| g fonts IH]; intros registered H Hin Hfam Hurl;
    [contradiction |].
  simpl in H.
  destruct (register_custom_font wd registered g) as [r1 |] eqn:Hstep; [| discriminate].
  cbn [bind] in H.
  destruct Hin as [-> | Hin]; [| exact (IH r1 H Hin Hfam Hurl)].
  destruct (register_custom_font_step _ _ _ _ Hstep) as (_ & Hnow & _).
  assert (Hgrow : forall fs r r', _register_custom_fonts wd r fs = Ok r' -> incl r r').
  { clear. induction fs as [| g fs IH]; intros r r' H; simpl in H.
    - injection H as <-. apply incl_refl.
    - destruct (register_custom_font wd r g) as [r1 |] eqn:Hstep; [| discriminate].
      cbn [bind] in H.
      destruct (register_custom_font_step _ _ _ _ Hstep) as (Hinc & _).
      exact (incl_tran Hinc (IH _ _ H)). }
  exact (Hgrow _ _ _ H _ (Hnow Hfam Hurl)).
Qed.

(** X14.  When [_register_custom_fonts] returns, the set of
    registered names has only grown; it holds the family (trimmed)
    of every custom font whose family and data URL are not blank,
    and nothing but what it held and those families.  A list of
    fonts that are all blank or already registered is passed over
    without decoding or registering anything: it cannot fail. *)
Theorem register_custom_fonts_result
        (wd : world) (fonts : list CustomFont.t) (registered : list string) :
  (forall registered',
      _register_custom_fonts wd registered fonts = Ok registered' ->
      incl registered registered'
      /\ (forall f, In f fonts ->
                    strip (CustomFont.family f) <> "" ->
                    strip (CustomFont.data_url f) <> "" ->
                    In (strip (CustomFont.family f)) registered')
      /\ (forall name, In name registered' ->
                       In name registered
                       \/ exists f, In f fonts /\ name = strip (CustomFont.family f)))
  /\ ((forall f, In f fonts ->
                 strip (CustomFont.family f) = ""
                 \/ strip (CustomFont.data_url f) = ""
                 \/ In (strip (CustomFont.family f)) registered) ->
      _register_custom_fonts wd registered fonts = Ok registered).
Proof.
  split.
  - revert registered. induction fonts as [| g fonts IH]; intros registered r' H.
    + injection H as <-. repeat split; auto using incl_refl. contradiction.
    + simpl in H.
      destruct (register_custom_font wd registered g) as [r1 |] eqn:Hstep; [| discriminate].
      cbn [bind] in H.
      destruct (register_custom_font_step _ _ _ _ Hstep) as (Hinc1 & Hnow & Hfrom1).
      destruct (IH r1 r' H) as (Hinc & Hall & Hfrom).
      repeat split.
      * exact (incl_tran Hinc1 Hinc).
      * intros f [-> | Hin] Hfam Hurl; [apply Hinc; now apply Hnow | now apply Hall].
      * intros name Hname. destruct (Hfrom name Hname) as [Hr1 | (f & Hf & E)].
        -- destruct (Hfrom1 name Hr1) as [Hr | E]; [now left |].
           right. exists g. split; [now left | exact E].
        -- right. exists f. split; [now right | exact E].
  - induction fonts as [| g fonts IH]; intros Hskip; [reflexivity |].
    simpl.
    assert (Hg : register_custom_font wd registered g = Ok registered).
    { unfold register_custom_font. rewrite !or_str_empty_r.
      destruct (Hskip g (or_introl eq_refl)) as [E | [E | Hin]].
      - now rewrite E.
      - rewrite E. now destruct (strip (CustomFont.family g)).
      - destruct (strip (CustomFont.family g)) as [| c fam]; [reflexivity |].
        destruct (strip (CustomFont.data_url g)); [reflexivity |].
        apply mem_In in Hin. now rewrite Hin. }
    rewrite Hg. cbn [bind]. apply IH. intros f Hf. apply Hskip. now right.
Qed.

(** X15.  A custom font the series asks for is the font the serial
    is set in: when the preparation succeeds and the series' family,
    trimmed, is the family of a custom font of the template with a
    data URL, the resolved family is that family, whatever the font
    files and the core fonts are. *)
Theorem custom_font_is_used (wd : world) (t : Template) (L : locals) (f : CustomFont.t) :
  prepare wd t = Ok L ->
  In f (custom_fonts t) ->
  strip (CustomFont.family f) <> "" ->
  strip (CustomFont.data_url f) <> "" ->
  strip (SeriesConfig.font_family (series_config t)) = strip (CustomFont.family f) ->
  resolved_font_family L = strip (CustomFont.family f).
Proof.
  intros Hprep Hin Hfam Hurl Hreq. unfold prepare in Hprep.
  destruct (_ <=? _)%Z; [discriminate |].
  destruct (_register_custom_fonts _ _ _) as [registered |] eqn:Hreg; [| discriminate].
  cbn [bind] in Hprep.
  pose proof (register_custom_fonts_member _ _ _ _ f Hreg Hin Hfam Hurl) as Hmem.
  rewrite or_str_empty_r, Hreq in Hprep.
  assert (Hres : exists src emb,
             FontRegistry.resolve_font_family
               (FontRegistry.mk_env (FontRegistry.font_files (fonts wd)) registered
                                    (FontRegistry.register_font (fonts wd)))
               (strip (CustomFont.family f))
             = Ok (strip (CustomFont.family f), src, emb)).
  { unfold FontRegistry.resolve_font_family.
    rewrite or_str_empty_r, strip_idempotent.
    destruct (strip (CustomFont.family f)) as [| c fam]; [contradiction |].
    cbn [FontRegistry.registered_names].
    apply mem_In in Hmem. rewrite Hmem. cbn [orb]. now eexists; eexists. }
  destruct Hres as (src & emb & Hres). rewrite Hres in Hprep. cbn [bind] in Hprep.
  destruct (PrimFloat.leb _ _); [discriminate |].
  destruct (Serial._parse_series_start _) as [[[? ?] ?] |]; [| discriminate].
  cbn [bind] in Hprep. destruct _page_size_pt.
  destruct (background_page_size _ _) as [[? ?] |]; [| discriminate].
  cbn [bind] in Hprep. injection Hprep as <-. reflexivity.
Qed.

Lemma custom_font_is_used_witness :
  let brand := CustomFont.mk " Brand Sans " "data:font/ttf;base64,AAEAAAALAIAAAwAw"
                             "font/ttf" in
  let series := SeriesConfig.mk "AB007" 3 "object_mm" "Brand Sans" 5 None
                                (Some 2%float) (Some 2%float) 0 0 "#000000" in
  let t := mk_template "t" "bg.pdf" (Samples.box_at_zero "left") series [brand] []
                       "exact_mm" in
  exists L, prepare Samples.plain_world t = Ok L /\ resolved_font_family L = "Brand Sans".
Proof.
  intros brand series t.
  destruct (prepare Samples.plain_world t) as [L |] eqn:Hprep; [| discriminate].
  exists L. split; [reflexivity |].
  apply (custom_font_is_used Samples.plain_world t L brand Hprep).
  - now left.
  - discriminate.
  - discriminate.
  - reflexivity.
Defined.

End CustomFonts.

(* ================================================================== *)
(** ** The whole document *)

Section LoopsWithMetrics.
Import PdfWriter Canvas.
Local Open Scope Z_scope.
Variable wd : world.
Variable t : Template.
Variable L : locals.
Variable ops0 : list canvas_op.
Variable m0 : engine_metrics.
Hypothesis Hfirst : fill_slot wd t L 0 0 = Ok (ops0, m0).

(** The diagnostics the loops hold once [n] objects are drawn. *)
Definition metrics_after (n : Z) : option engine_metrics :=
  if n =? 0 then None else Some m0.

Lemma slot_step_metrics (st : loop_state) (page slot : Z) :
  0 <= page -> 0 <= slot ->
  serial_index st = Z.min (OBJECTS_PER_PAGE * page + slot) (count L) ->
  metrics st = metrics_after (serial_index st) ->
  slot_step wd t L st slot
  = Ok (mk_loop_state (Z.min (OBJECTS_PER_PAGE * page + slot + 1) (count L))
                      (canvas st ++ slot_drawing wd t L page slot)
                      (metrics_after
                         (Z.min (OBJECTS_PER_PAGE * page + slot + 1) (count L)))).
Proof.
  intros Hp Hs Hidx Hm. unfold slot_step, slot_drawing, OBJECTS_PER_PAGE in *.
  destruct (Z.leb_spec (count L) (serial_index st)) as [Hle | Hlt].
  - assert (Hfull : count L <= 4 * page + slot) by lia.
    apply Z.ltb_ge in Hfull. rewrite Hfull.
    replace (Z.min (4 * page + slot + 1) (count L)) with (serial_index st) by lia.
    rewrite <- Hm, app_nil_r. now destruct st.
  - assert (Hsi : serial_index st = 4 * page + slot) by lia.
    assert (Hin : 4 * page + slot < count L) by lia.
    replace (Z.min (4 * page + slot + 1) (count L)) with (4 * page + slot + 1) by lia.
    apply Z.ltb_lt in Hin. rewrite Hin, <- Hsi.
    destruct (fill_slot wd t L slot (serial_index st)) as [[ops m] |] eqn:Hops.
    + cbn [bind]. f_equal. f_equal. unfold metrics_after.
      destruct (Z.eqb_spec (serial_index st + 1) 1) as [E | E].
      * assert (slot = 0 /\ serial_index st = 0) as [-> E0] by lia.
        rewrite E0, Hfirst in Hops. injection Hops as _ <-.
        now destruct (Z.eqb_spec (serial_index st + 1) 0); [lia |].
      * rewrite Hm. unfold metrics_after.
        destruct (Z.eqb_spec (serial_index st) 0); [lia |].
        now destruct (Z.eqb_spec (serial_index st + 1) 0); [lia |].
    + exfalso. destruct (fill_slot_returns wd t L 0 0 slot (serial_index st))
        as [a Ha]; [rewrite Hfirst; now eexists | congruence].
Qed.

Lemma slots_loop_metrics (page : Z) (n a : nat) (st : loop_state) :
  0 <= page ->
  serial_index st = Z.min (OBJECTS_PER_PAGE * page + Z.of_nat a) (count L) ->
  metrics st = metrics_after (serial_index st) ->
  for_each (slot_step wd t L) (map Z.of_nat (seq a n)) st
  = Ok (mk_loop_state
          (Z.min (OBJECTS_PER_PAGE * page + Z.of_nat (a + n)) (count L))
          (canvas st ++ flat_map (slot_drawing wd t L page) (map Z.of_nat (seq a n)))
          (if (n =? 0)%nat then metrics st
           else metrics_after
                  (Z.min (OBJECTS_PER_PAGE * page + Z.of_nat (a + n)) (count L)))).
Proof.
  intros Hp. revert a st. induction n as [| n IH]; intros a st Hidx Hm.
  - destruct st as [si cv me]. simpl in *.
    rewrite app_nil_r, Nat.add_0_r. now rewrite Hidx.
  - cbn [seq map for_each flat_map].
    rewrite (slot_step_metrics st page (Z.of_nat a) Hp ltac:(lia) Hidx Hm). cbn [bind].
    rewrite IH; cbn [serial_index canvas metrics]; [| f_equal; lia | reflexivity].
    rewrite <- app_assoc.
    replace (Z.of_nat (S a + n)) with (Z.of_nat (a + S n)) by lia.
    f_equal. f_equal. destruct n; [| reflexivity].
    cbn [Nat.eqb]. f_equal. f_equal. lia.
Qed.

Lemma page_step_metrics (st : loop_state) (page : Z) :
  0 <= page ->
  serial_index st = Z.min (OBJECTS_PER_PAGE * page) (count L) ->
  metrics st = metrics_after (serial_index st) ->
  page_step wd t L st page
  = Ok (mk_loop_state (Z.min (OBJECTS_PER_PAGE * (page + 1)) (count L))
                      (canvas st ++ page_drawing wd t L page)
                      (metrics_after (Z.min (OBJECTS_PER_PAGE * (page + 1)) (count L)))).
Proof.
  intros Hp Hidx Hm. unfold page_step, page_drawing.
  change (range OBJECTS_PER_PAGE) with (map Z.of_nat (seq 0 4)).
  rewrite (slots_loop_metrics page 4 0 st Hp); [| rewrite Hidx; f_equal; lia | exact Hm].
  cbn [bind serial_index canvas metrics Nat.eqb]. rewrite <- app_assoc.
  replace (OBJECTS_PER_PAGE * page + Z.of_nat (0 + 4))
    with (OBJECTS_PER_PAGE * (page + 1)) by (unfold OBJECTS_PER_PAGE; lia).
  reflexivity.
Qed.

Lemma pages_loop_metrics (n a : nat) (st : loop_state) :
  serial_index st = Z.min (OBJECTS_PER_PAGE * Z.of_nat a) (count L) ->
  metrics st = metrics_after (serial_index st) ->
  for_each (page_step wd t L) (map Z.of_nat (seq a n)) st
  = Ok (mk_loop_state
          (Z.min (OBJECTS_PER_PAGE * Z.of_nat (a + n)) (count L))
          (canvas st ++ flat_map (page_drawing wd t L) (map Z.of_nat (seq a n)))
          (if (n =? 0)%nat then metrics st
           else metrics_after (Z.min (OBJECTS_PER_PAGE * Z.of_nat (a + n)) (count L)))).
Proof.
  revert a st. induction n as [| n IH]; intros a st Hidx Hm.
  - destruct st as [si cv me]. simpl in *.
    rewrite app_nil_r, Nat.add_0_r. now rewrite Hidx.
  - cbn [seq map for_each flat_map].
    rewrite (page_step_metrics st (Z.of_nat a) ltac:(lia) Hidx Hm). cbn [bind].
    rewrite IH; cbn [serial_index canvas metrics]; [| f_equal; lia | reflexivity].
    rewrite <- app_assoc.
    replace (Z.of_nat (S a + n)) with (Z.of_nat (a + S n)) by lia.
    f_equal. f_equal. destruct n; [| reflexivity].
    cbn [Nat.eqb]. f_equal. f_equal. lia.
Qed.

End LoopsWithMetrics.

Section WholeDocument.
Import PdfWriter Canvas Serial.
Local Open Scope Z_scope.

(** A prepared job whose first object can be drawn is written out
    whole, with the diagnostics of that first object. *)
Lemma write_final_pdf_ok (wd : world) (t : Template) (L : locals)
      (ops0 : list canvas_op) (m0 : engine_metrics) :
  prepare wd t = Ok L ->
  fill_slot wd t L 0 0 = Ok (ops0, m0) ->
  write_final_pdf wd t = Ok (total_pages L, document wd t L, Some m0).
Proof.
  intros Hprep Hfirst.
  destruct (prepare_series wd t L Hprep) as (_ & Hpos & Hpages & _).
  unfold write_final_pdf. rewrite Hprep. cbn [bind]. unfold range at 1.
  rewrite (pages_loop_metrics wd t L ops0 m0 Hfirst
             (Z.to_nat (total_pages L)) 0 (mk_loop_state 0 [] None));
    [| cbn [serial_index]; unfold OBJECTS_PER_PAGE; lia | reflexivity].
  cbn [bind canvas metrics app serial_index].
  assert (Hp : 1 <= total_pages L).
  { rewrite Hpages. apply (Z.div_le_lower_bound (count L + 3) 4 1); lia. }
  assert (Hge : count L <= 4 * total_pages L).
  { rewrite Hpages. pose proof (Z.mul_succ_div_gt (count L + 3) 4 ltac:(lia)). lia. }
  destruct (Z.to_nat (total_pages L)) as [| n] eqn:Hn; [lia |].
  cbn [Nat.eqb]. unfold document, range. rewrite Hn.
  unfold metrics_after, OBJECTS_PER_PAGE.
  destruct (Z.eqb_spec (Z.min (4 * Z.of_nat (0 + S n)) (count L)) 0); [lia | reflexivity].
Qed.

(** A job that is written out was prepared, and its first object
    could be drawn. *)
Lemma write_final_pdf_first (wd : world) (t : Template)
      (r : Z * list canvas_op * option engine_metrics) :
  write_final_pdf wd t = Ok r ->
  exists L ops0 m0, prepare wd t = Ok L /\ fill_slot wd t L 0 0 = Ok (ops0, m0).
Proof.
  unfold write_final_pdf. intros H.
  destruct (prepare wd t) as [L |] eqn:Hprep; [| discriminate]. cbn [bind] in H.
  destruct (prepare_series wd t L Hprep) as (_ & Hpos & Hpages & _).
  assert (Hp : 1 <= total_pages L).
  { rewrite Hpages. apply (Z.div_le_lower_bound (count L + 3) 4 1); lia. }
  unfold range in H at 1.
  destruct (Z.to_nat (total_pages L)) as [| n] eqn:Hn; [lia |].
  cbn [seq map for_each] in H. unfold page_step in H at 1.
  change (range OBJECTS_PER_PAGE) with (map Z.of_nat (seq 0 4)) in H.
  cbn [seq map for_each] in H. unfold slot_step in H at 1.
  cbn [serial_index] in H.
  destruct (Z.leb_spec (count L) 0) as [| _]; [lia |].
  change (Z.of_nat 0) with 0 in H.
  destruct (fill_slot wd t L 0 0) as [[ops0 m0] |] eqn:Hfirst; [| discriminate].
  now exists L, ops0, m0.
Qed.


(** The serials of a document, in the order they are printed. *)
Lemma document_serials (wd : world) (t : Template) (L : locals) :
  prepare wd t = Ok L ->
  returns (fill_slot wd t L 0 0) ->
  drawn_text (document wd t L)
  = map (_series_value (prefix L) (base L) (width L)) (range (count L)).
Proof.
  intros Hprep Hfirst.
  assert (Hfill : forall slot i, returns (fill_slot wd t L slot i)).
  { intros slot i. exact (fill_slot_returns wd t L 0 0 slot i Hfirst). }
  destruct (prepare_series wd t L Hprep) as (_ & Hpos & Hpages & _).
  unfold document. rewrite drawn_text_app, drawn_text_flat_map.
  cbn [drawn_text]. rewrite app_nil_r.
  rewrite (flat_map_ext _
             (fun page =>
                flat_map (fun slot =>
                            upto (_series_value (prefix L) (base L) (width L))
                                 (count L) (OBJECTS_PER_PAGE * page + slot))
                         (range OBJECTS_PER_PAGE))).
  - rewrite Hpages. now apply raster_enumeration.
  - intros page. unfold page_drawing.
    rewrite drawn_text_app, drawn_text_flat_map. cbn [drawn_text].
    rewrite app_nil_r. apply flat_map_ext. intros slot.
    unfold slot_drawing, upto.
    destruct (_ <? _); [| reflexivity].
    destruct (Hfill slot (OBJECTS_PER_PAGE * page + slot)) as [[ops m] Hops].
    rewrite Hops. exact (fill_slot_text _ _ _ _ _ _ _ Hops).
Qed.

Lemma NoDup_map_on {A B} (f : A -> B) (l : list A) :
  NoDup l -> (forall x y, In x l -> In y l -> f x = f y -> x = y) -> NoDup (map f l).
Proof.
  induction 1 as [| a l Hnin Hnd IH]; intros Hinj; simpl; constructor.
  - intros Hin. apply in_map_iff in Hin. destruct Hin as [y [Hy Hyl]].
    apply Hnin. rewrite <- (Hinj y a (or_intror Hyl) (or_introl eq_refl) Hy). exact Hyl.
  - apply IH. intros x y Hx Hy. apply Hinj; now right.
Qed.

Lemma range_spec (n i : Z) : In i (range n) <-> 0 <= i < n.
Proof.
  unfold range. rewrite in_map_iff. split.
  - intros [k [<- Hk]]. apply in_seq in Hk. lia.
  - intros H. exists (Z.to_nat i). split; [lia | apply in_seq; lia].
Qed.

Lemma range_NoDup (n : Z) : NoDup (range n).
Proof.
  unfold range. apply NoDup_map_on; [apply seq_NoDup |]. intros; lia.
Qed.

(** X17.  No serial is printed twice: the texts of a document that
    [write_final_pdf] returns are [count] strings, no two the same. *)
Theorem printed_serials_distinct
        (wd : world) (t : Template) (pages : Z) (doc : list canvas_op)
        (m : option engine_metrics) :
  write_final_pdf wd t = Ok (pages, doc, m) ->
  NoDup (drawn_text doc)
  /\ List.length (drawn_text doc) = Z.to_nat (SeriesConfig.count (series_config t)).
Proof.
  intros H.
  destruct (write_final_pdf_first wd t _ H) as (L & ops0 & m0 & Hprep & Hfirst).
  rewrite (write_final_pdf_ok wd t L ops0 m0 Hprep Hfirst) in H.
  injection H as _ <- _.
  rewrite (document_serials wd t L Hprep (ex_intro _ _ Hfirst)).
  destruct (prepare_series wd t L Hprep) as (Hcount & _ & _ & Hparse).
  destruct (parse_series_start_inv _ _ _ _ Hparse)
    as (run & tail & _ & _ & _ & Hd & _ & Hb & _).
  assert (Hbase : 0 <= base L) by (rewrite Hb; now apply int_of_digits_nonneg).
  split.
  - apply NoDup_map_on; [apply range_NoDup |].
    intros i j Hi Hj. apply range_spec in Hi, Hj.
    apply series_value_injective; lia.
  - rewrite length_map. unfold range. now rewrite length_map, length_seq, Hcount.
Qed.

Lemma printed_serials_distinct_witness :
  exists pages doc m,
    write_final_pdf Samples.plain_world (Samples.sample_job "legacy") = Ok (pages, doc, m)
    /\ NoDup (drawn_text doc) /\ List.length (drawn_text doc) = 3%nat.
Proof.
  destruct (write_final_pdf Samples.plain_world (Samples.sample_job "legacy"))
    as [[[pages doc] m] |] eqn:Hw; [| vm_compute in Hw; discriminate].
  exists pages, doc, m. split; [reflexivity |].
  destruct (printed_serials_distinct _ _ pages doc m Hw) as [Hnd Hlen].
  split; [exact Hnd | exact Hlen].
Defined.

End WholeDocument.

Section Nesting.
Import PdfWriter Canvas.

(** How deep [saveState] is nested after [ops], starting at
    [depth]; [None] when a [restoreState] has no [saveState] to
    close, when a page or the document ends with a state still
    saved, or when the nesting goes deeper than [limit]. *)
Fixpoint nesting (limit depth : nat) (ops : list canvas_op) : option nat :=
  match ops with
  | [] => Some depth
  | SaveState :: rest =>
      if (depth <? limit)%nat then nesting limit (S depth) rest else None
  | RestoreState :: rest =>
      match depth with
      | O => None
      | S d => nesting limit d rest
      end
  | ShowPage :: rest | Save :: rest =>
      match depth with
      | O => nesting limit O rest
      | S _ => None
      end
  | _ :: rest => nesting limit depth rest
  end.

Lemma nesting_app (limit d d' : nat) (a b : list canvas_op) :
  nesting limit d a = Some d' -> nesting limit d (a ++ b) = nesting limit d' b.
Proof.
  revert d. induction a as [| op a IH]; intros d H; simpl in *.
  - now injection H as ->.
  - destruct op; try (now apply IH).
    + destruct (d <? limit)%nat; [now apply IH | discriminate].
    + destruct d; [discriminate | now apply IH].
    + destruct d; [now apply IH | discriminate].
    + destruct d; [now apply IH | discriminate].
Qed.

Lemma background_ops_nesting
      (L : locals) (cfg : ObjectBoxMm.t) (sx sy ox oy ow oh scx scy : float) :
  nesting 1 0 (background_ops L cfg sx sy ox oy ow oh scx scy) = Some 0%nat.
Proof. unfold background_ops. now destruct (is_exact_mm (mode L)). Qed.

Lemma draw_overlay_nesting (wd : world) (ov : overlay) (x y h : float)
      (ops : list canvas_op) :
  _draw_overlay wd ov x y h = Ok ops -> nesting 1 0 ops = Some 0%nat.
Proof.
  unfold _draw_overlay, transform_ops_of_rotation.
  destruct ov as [data_url mime xm ym wm hm rot | ty xm ym sc rot key].
  - destruct (strip (or_str data_url "")); [intros H; now injection H as <- |].
    destruct (_decode_data_url wd _) as [[raw mime_from_url] | e]; cbn [bind];
      [| discriminate].
    destruct (contains _ _).
    + destruct (inline_svg_page_size wd raw) as [[ow oh] | e]; cbn [bind];
        [| discriminate].
      destruct (_ || _)%bool; [discriminate |].
      intros H; injection H as <-. now destruct (truthy _).
    + destruct (read_image wd raw) as [[] | e]; cbn [bind]; [| discriminate].
      intros H; injection H as <-. now destruct (truthy _).
  - destruct (strip (or_str key "")); [intros H; now injection H as <- |].
    destruct (String.eqb _ _); [| intros H; now injection H as <-].
    destruct (PrimFloat.leb sc 0); [intros H; now injection H as <- |].
    destruct (overlay_page_size wd _) as [[ow oh] | e]; cbn [bind]; [| discriminate].
    destruct (_ || _)%bool; [discriminate |].
    intros H; injection H as <-. now destruct (truthy _).
Qed.

Lemma draw_overlays_nesting (wd : world) (ovs : list overlay) (x y h : float)
      (ops : list canvas_op) :
  draw_overlays wd ovs x y h = Ok ops -> nesting 1 0 ops = Some 0%nat.
Proof.
  revert ops. induction ovs as [| ov ovs IH]; simpl; intros ops H.
  - now injection H as <-.
  - destruct (_draw_overlay wd ov x y h) as [o |] eqn:Ho; [| discriminate].
    cbn [bind] in H.
    destruct (draw_overlays wd ovs x y h) as [o' |]; [| discriminate].
    cbn [bind] in H. injection H as <-.
    rewrite (nesting_app _ _ _ _ _ (draw_overlay_nesting _ _ _ _ _ _ Ho)).
    now apply IH.
Qed.

Lemma series_ops_nesting (wd : world) (L : locals) (sc : SeriesConfig.t)
      (x y h : float) (i : Z) (ops : list canvas_op) (pdf : float * float) :
  series_ops wd L sc x y h i = Ok (ops, pdf) -> nesting 1 0 ops = Some 0%nat.
Proof.
  unfold series_ops.
  destruct (SeriesConfig.x_mm sc), (SeriesConfig.y_mm sc); try discriminate.
  destruct (negb (String.eqb _ _)); [discriminate |].
  intros H. injection H as <- _. now destruct (negb _).
Qed.

Lemma fill_slot_nesting (wd : world) (t : Template) (L : locals) (slot i : Z)
      (ops : list canvas_op) (m : engine_metrics) :
  fill_slot wd t L slot i = Ok (ops, m) -> nesting 1 0 ops = Some 0%nat.
Proof.
  unfold fill_slot.
  destruct (slot_origin L slot) as [[sx sy] st].
  destruct (_object_size_pt (object_box_mm t)) as [[ow oh] | e]; cbn [bind];
    [| discriminate].
  destruct (negb _ && _)%bool; [discriminate |].
  destruct (object_origin L _ sx sy st ow oh) as [ox oy].
  destruct (_ || _)%bool; [discriminate |].
  destruct (draw_overlays wd (overlays t) ox oy oh) as [ov |] eqn:Hov; [| discriminate].
  cbn [bind].
  destruct (series_ops wd L (series_config t) ox oy oh i) as [[txt pdf] |] eqn:Htxt;
    [| discriminate].
  cbn [bind]. intros H.
  apply (f_equal (fun r => match r with Ok (o, _) => o | Raise _ => [] end)) in H.
  cbv beta iota in H. rewrite <- H.
  rewrite (nesting_app _ _ _ _ _ (background_ops_nesting _ _ _ _ _ _ _ _ _ _)).
  rewrite (nesting_app _ _ _ _ _ (draw_overlays_nesting _ _ _ _ _ _ Hov)).
  exact (series_ops_nesting _ _ _ _ _ _ _ _ _ Htxt).
Qed.

Lemma flat_map_nesting {A} (f : A -> list canvas_op) (xs : list A) :
  (forall x, nesting 1 0 (f x) = Some 0%nat) ->
  nesting 1 0 (flat_map f xs) = Some 0%nat.
Proof.
  intros Hf. induction xs as [| x xs IH]; [reflexivity |].
  cbn [flat_map]. now rewrite (nesting_app _ _ _ _ _ (Hf x)).
Qed.

Lemma document_nesting (wd : world) (t : Template) (L : locals) :
  nesting 1 0 (document wd t L) = Some 0%nat.
Proof.
  unfold document.
  rewrite (nesting_app 1 0 0 _ [Save]); [reflexivity |].
  apply flat_map_nesting. intros page. unfold page_drawing.
  rewrite (nesting_app 1 0 0 _ [ShowPage]); [reflexivity |].
  apply flat_map_nesting. intros slot. unfold slot_drawing.
  destruct (_ <? _)%Z; [| reflexivity].
  destruct (fill_slot wd t L slot _) as [[ops m] |] eqn:Hfill; [| reflexivity].
  exact (fill_slot_nesting _ _ _ _ _ _ _ Hfill).
Qed.

(** X18.  The canvas calls of a document are well nested: every
    [restoreState] closes a [saveState], no state is left saved when
    a page is shown or the document saved, and [saveState] is never
    nested. *)
Theorem document_well_nested
        (wd : world) (t : Template) (pages : Z) (doc : list canvas_op)
        (m : option engine_metrics) :
  write_final_pdf wd t = Ok (pages, doc, m) -> nesting 1 0 doc = Some 0%nat.
Proof.
  intros H.
  destruct (write_final_pdf_first wd t _ H) as (L & ops0 & m0 & Hprep & Hfirst).
  rewrite (write_final_pdf_ok wd t L ops0 m0 Hprep Hfirst) in H.
  injection H as _ <- _. apply document_nesting.
Qed.

Lemma document_well_nested_witness :
  exists pages doc m,
    write_final_pdf Samples.plain_world (Samples.sample_job "exact_mm") = Ok (pages, doc, m)
    /\ nesting 1 0 doc = Some 0%nat.
Proof.
  destruct (write_final_pdf Samples.plain_world (Samples.sample_job "exact_mm"))
    as [[[pages doc] m] |] eqn:Hw; [| vm_compute in Hw; discriminate].
  exists pages, doc, m. split; [reflexivity |].
  exact (document_well_nested _ _ pages doc m Hw).
Defined.







End Nesting.

(* ================================================================== *)
(** ** The outline engine: advances and anchor *)

Section OutlineLoop.
Import OutlinedText.

Lemma glyph_step_advances (f : font) (scale : float) (st st' : loop_state) (ch : ascii) :
  glyph_step f scale st ch = Ok st' ->
  List.length (advances_pt st') = S (List.length (advances_pt st)).
Proof.
  unfold glyph_step.
  destruct (glyph_outline f _) as [g |]; [| destruct (glyph_outline f ".notdef") as [g |]];
    cbn [bind]; try discriminate.
  all: destruct (fold_left _ _ _) as [ops e]; intros H; injection H as <-;
    cbn [advances_pt]; rewrite length_app; cbn [List.length]; lia.
Qed.

Lemma glyph_loop_advances (f : font) (scale : float) (text : list ascii)
      (st st' : loop_state) :
  glyph_loop f scale st text = Ok st' ->
  List.length (advances_pt st')
  = (List.length (advances_pt st) + List.length text)%nat.
Proof.
  revert st. induction text as [| ch text IH]; intros st H; simpl in H.
  - injection H as <-. simpl. lia.
  - destruct (glyph_step f scale st ch) as [st1 |] eqn:Hstep; [| discriminate].
    cbn [bind] in H. rewrite (IH st1 H), (glyph_step_advances _ _ _ _ _ Hstep).
    simpl. lia.
Qed.

Lemma glyph_step_returns (f : font) (scale : float) (st : loop_state) (ch : ascii) :
  glyph_outline f ".notdef" <> None -> returns (glyph_step f scale st ch).
Proof.
  intros Hnd. unfold glyph_step.
  destruct (glyph_outline f ".notdef") as [g0 |]; [| contradiction].
  destruct (glyph_outline f _) as [g |]; cbn [bind];
    destruct (fold_left _ _ _) as [ops e]; now eexists.
Qed.

Lemma glyph_loop_returns (f : font) (scale : float) (text : list ascii)
      (st : loop_state) :
  glyph_outline f ".notdef" <> None -> returns (glyph_loop f scale st text).
Proof.
  intros Hnd. revert st. induction text as [| ch text IH]; intros st; simpl.
  - now eexists.
  - destruct (glyph_step_returns f scale st ch Hnd) as [st1 Hst]. rewrite Hst.
    cbn [bind]. apply IH.
Qed.

Lemma finish_parts (st : loop_state) (x_pt y_pt : float) :
  snd (finish st x_pt y_pt) = advances_pt st
  /\ (fst (fst (finish st x_pt y_pt)) = [] ->
      snd (fst (finish st x_pt y_pt)) = ZERO_BBOX).
Proof.
  unfold finish. destruct (ext st) as [[[mnx mny] mxx] mxy].
  destruct (raw_ops st) as [| o ops]; [now split |].
  destruct (PrimFloat.eqb mnx infinity); [now split |].
  split; [reflexivity | discriminate].
Qed.

Lemma finish_anchor (st : loop_state) (x y x' y' : float) :
  snd (finish st x y) = snd (finish st x' y')
  /\ snd (fst (finish st x y)) = snd (fst (finish st x' y'))
  /\ List.length (fst (fst (finish st x y)))
     = List.length (fst (fst (finish st x' y'))).
Proof.
  unfold finish. destruct (ext st) as [[[mnx mny] mxx] mxy].
  destruct (raw_ops st) as [| o ops]; [now repeat split |].
  destruct (PrimFloat.eqb mnx infinity); [now repeat split |].
  cbn [fst snd]. repeat split. now rewrite !length_map.
Qed.

End OutlineLoop.

Section OutlineTheorems.
Import OutlinedText.

(** X20.  The glyph outline engine gives one advance for every
    character of the text, whatever it draws, and a result with no
    operation always carries the zero box.  With a font that has a
    [.notdef] glyph and a positive units-per-em it returns for every
    text: a character the font does not map falls back on [.notdef];
    with units-per-em at zero or below it raises
    [INVALID_FONT_UNITS_PER_EM] for every text. *)
Theorem outline_advances_and_totality
        (f : font) (text : string) (font_size_pt x_pt y_pt : float) :
  (forall ops box adv,
      outline_text_ops_pt_with_metrics f text font_size_pt x_pt y_pt
      = Ok (ops, box, adv) ->
      List.length adv = String.length text /\ (ops = [] -> box = ZERO_BBOX))
  /\ (PrimFloat.leb (unitsPerEm f) 0 = false ->
      glyph_outline f ".notdef" <> None ->
      returns (outline_text_ops_pt_with_metrics f text font_size_pt x_pt y_pt))
  /\ (PrimFloat.leb (unitsPerEm f) 0 = true ->
      outline_text_ops_pt_with_metrics f text font_size_pt x_pt y_pt
      = Raise (ValueError "INVALID_FONT_UNITS_PER_EM")).
Proof.
  unfold outline_text_ops_pt_with_metrics, outline_scale.
  split; [| split].
  - intros ops box adv.
    destruct (PrimFloat.leb (unitsPerEm f) 0); [discriminate |]. cbn [bind].
    destruct (glyph_loop f _ INITIAL_STATE _) as [st |] eqn:Hloop; [| discriminate].
    cbn [bind]. intros H. injection H as H.
    destruct (finish_parts st x_pt y_pt) as [Hadv Hzero].
    rewrite H in Hadv, Hzero. cbn [fst snd] in Hadv, Hzero.
    split; [| exact Hzero].
    rewrite Hadv, (glyph_loop_advances _ _ _ _ _ Hloop).
    cbn [INITIAL_STATE advances_pt List.length]. apply list_ascii_length.
  - intros Hupem Hnd. rewrite Hupem. cbn [bind].
    destruct (glyph_loop_returns f (PrimFloat.div font_size_pt (unitsPerEm f))
                                 (list_ascii_of_string text) INITIAL_STATE Hnd)
      as [st Hst].
    rewrite Hst. cbn [bind]. now eexists.
  - intros Hupem. now rewrite Hupem.
Qed.

(** X21.  The box and the advances do not depend on the anchor:
    wherever the text is placed, the engine fails alike or returns
    the same box (measured from the first glyph's origin, before the
    shift to the anchor), the same advances and as many
    operations. *)
Theorem outline_metrics_ignore_anchor
        (f : font) (text : string) (font_size_pt x_pt y_pt x_pt' y_pt' : float) :
  match outline_text_ops_pt_with_metrics f text font_size_pt x_pt y_pt,
        outline_text_ops_pt_with_metrics f text font_size_pt x_pt' y_pt' with
  | Ok (ops, box, adv), Ok (ops', box', adv') =>
      box = box' /\ adv = adv' /\ List.length ops = List.length ops'
  | Raise e, Raise e' => e = e'
  | _, _ => False
  end.
Proof.
  unfold outline_text_ops_pt_with_metrics.
  destruct (outline_scale f font_size_pt) as [scale |]; cbn [bind]; [| reflexivity].
  destruct (glyph_loop f scale INITIAL_STATE _) as [st |]; cbn [bind]; [| reflexivity].
  destruct (finish_anchor st x_pt y_pt x_pt' y_pt') as (Hadv & Hbox & Hlen).
  destruct (finish st x_pt y_pt) as [[ops box] adv].
  destruct (finish st x_pt' y_pt') as [[ops' box'] adv']. cbn [fst snd] in *.
  now repeat split.
Qed.

End OutlineTheorems.

(* ================================================================== *)
(** ** The shape of a template id *)

Section DigestFormat.
Import Hash.
Local Open Scope Z_scope.

(** A lower-case hexadecimal digit. *)
Definition is_lower_hex (c : ascii) : bool :=
  let n := nat_of_ascii c in
  (((48 <=? n) && (n <=? 57)) || ((97 <=? n) && (n <=? 102)))%nat.

Lemma hex_digit_lower (m : Z) : 0 <= m < 16 -> is_lower_hex (hex_digit m) = true.
Proof.
  intros H.
  assert (E : m = 0 \/ m = 1 \/ m = 2 \/ m = 3 \/ m = 4 \/ m = 5 \/ m = 6 \/ m = 7
              \/ m = 8 \/ m = 9 \/ m = 10 \/ m = 11 \/ m = 12 \/ m = 13 \/ m = 14
              \/ m = 15) by lia.
  repeat (destruct E as [-> | E]; [reflexivity |]). now subst.
Qed.

Lemma hex_of_word_format (digits : nat) (n : Z) (acc : string) :
  String.length (hex_of_word digits n acc) = (digits + String.length acc)%nat
  /\ (Forall (fun c => is_lower_hex c = true) (list_ascii_of_string acc) ->
      Forall (fun c => is_lower_hex c = true)
             (list_ascii_of_string (hex_of_word digits n acc))).
Proof.
  revert n acc. induction digits as [| d IH]; intros n acc; [now split |].
  cbn [hex_of_word].
  destruct (IH (n / 16) (String (hex_digit (n mod 16)) acc)) as [Hlen Hhex].
  split; [rewrite Hlen; cbn [String.length]; lia |].
  intros Hacc. apply Hhex. cbn [list_ascii_of_string]. constructor; [| exact Hacc].
  apply hex_digit_lower. apply Z.mod_pos_bound. lia.
Qed.

Lemma hex_words_format (ws : list Z) :
  let s := fold_right (fun w acc => hex_of_word 8 w acc) "" ws in
  String.length s = (8 * List.length ws)%nat
  /\ Forall (fun c => is_lower_hex c = true) (list_ascii_of_string s).
Proof.
  induction ws as [| w ws [Hlen Hhex]]; [split; [reflexivity | constructor] |].
  cbn [fold_right].
  destruct (hex_of_word_format 8 w (fold_right (fun w acc => hex_of_word 8 w acc) "" ws))
    as [Hl Hh].
  split; [rewrite Hl, Hlen; cbn [List.length]; lia | now apply Hh].
Qed.

Lemma sha256_hexdigest_format (data : list Z) :
  String.length (sha256_hexdigest data) = 64%nat
  /\ Forall (fun c => is_lower_hex c = true)
            (list_ascii_of_string (sha256_hexdigest data)).
Proof.
  unfold sha256_hexdigest.
  destruct (fold_left compress _ initial_state) as [[[[[[[a b] c] d] e] f] g] h].
  exact (hex_words_format [a; b; c; d; e; f; g; h]).
Qed.

End DigestFormat.

Section DigestTheorem.
Import Hash Json TemplateCache.

(** X22.  A digest is 64 lower-case hexadecimal digits whatever is
    hashed; so is every template identifier, whatever the payload:
    it holds no path separator and no dot, and names a file of the
    cache directory. *)
Theorem template_id_format
        (float_repr : float -> string) (svg_hash : string) (object_mm series : json)
        (custom_fonts overlays : option (list json)) (render_mode : string) :
  (forall data, String.length (sha256_hex data) = 64%nat
                /\ Forall (fun c => is_lower_hex c = true)
                          (list_ascii_of_string (sha256_hex data)))
  /\ let id := compute_template_id float_repr svg_hash object_mm series
                                   custom_fonts overlays render_mode in
     String.length id = 64%nat
     /\ Forall (fun c => is_lower_hex c = true) (list_ascii_of_string id)
     /\ ~ In "/"%char (list_ascii_of_string id)
     /\ ~ In "."%char (list_ascii_of_string id).
Proof.
  assert (H : forall data, String.length (sha256_hex data) = 64%nat
                           /\ Forall (fun c => is_lower_hex c = true)
                                     (list_ascii_of_string (sha256_hex data))).
  { intros data. apply sha256_hexdigest_format. }
  split; [exact H |].
  unfold compute_template_id, template_id_of_payload.
  destruct (H (dumps float_repr
                     (payload svg_hash object_mm series custom_fonts overlays
                              render_mode))) as [Hlen Hhex].
  repeat split; try assumption.
  - intros Hin. rewrite Forall_forall in Hhex. now apply Hhex in Hin.
  - intros Hin. rewrite Forall_forall in Hhex. now apply Hhex in Hin.
Qed.

End DigestTheorem.

(* ================================================================== *)
(** ** Settings *)

Section ConfigFacts.
Import Config.

(** What a variable is worth: unset and empty are the same. *)
Definition var (getenv : environ) (key : string) : string :=
  opt_or_str (getenv key) "".

Lemma env_optional (getenv : environ) (key : string) (default : option string) :
  env getenv key default false
  = Ok (or_str (var getenv key) (match default with None => "" | Some d => d end)).
Proof.
  unfold env, var. destruct (getenv key) as [[| c v] |]; reflexivity.
Qed.

Lemma env_required (getenv : environ) (key : string) :
  env getenv key None true
  = match var getenv key with
    | EmptyString => Raise (RuntimeError ("Missing required env var: " ++ key))
    | v => Ok v
    end.
Proof.
  unfold env, var. destruct (getenv key) as [[| c v] |]; reflexivity.
Qed.

(** The text the port is read from. *)
Definition port_text (getenv : environ) : string :=
  or_str (var getenv "PORT") (or_str (var getenv "SERVICE_PORT") "9000").

Lemma int_of_str_raises (s : string) (e : exn) :
  int_of_str s = Raise e -> exists msg, e = ValueError msg.
Proof.
  unfold int_of_str.
  destruct (match int_strip (list_ascii_of_string s) with
            | [] => _ | c :: r => _ end) as [negative rest].
  destruct (digit_run rest) as [ds |].
  - destruct (_ <? _)%nat; [| discriminate].
    intros H. injection H as <-. now eexists.
  - intros H. injection H as <-. now eexists.
Qed.

(** [load_settings], one variable after another. *)
Lemma load_settings_unfold (getenv : environ) :
  load_settings getenv
  = (service_port <-
       except_ValueError (int_of_str (port_text getenv))
                         (fun _ => Raise (RuntimeError "SERVICE_PORT must be an integer")) ;;
     internal_api_key <- env getenv "INTERNAL_API_KEY" None true ;;
     s3_bucket <- env getenv "S3_BUCKET" None true ;;
     s3_region <- env getenv "S3_REGION" None true ;;
     s3_access_key_id <- env getenv "S3_ACCESS_KEY_ID" None true ;;
     s3_secret_access_key <- env getenv "S3_SECRET_ACCESS_KEY" None true ;;
     Ok (mk_settings (or_str (var getenv "APP_ENV") "development")
                     service_port internal_api_key s3_bucket s3_region
                     (var getenv "S3_ENDPOINT") s3_access_key_id
                     s3_secret_access_key)).
Proof.
  unfold load_settings. rewrite !env_optional. cbn [bind].
  assert (Hport : match or_str (var getenv "PORT") "" with
                  | EmptyString => Ok (or_str (var getenv "SERVICE_PORT") "9000")
                  | String a s => Ok (or_str (var getenv "PORT") "")
                  end = Ok (port_text getenv)).
  { unfold port_text. now destruct (var getenv "PORT"). }
  rewrite Hport. cbn [bind].
  destruct (except_ValueError _ _) as [p |]; [| reflexivity]. cbn [bind].
  destruct (env getenv "INTERNAL_API_KEY" None true); [| reflexivity]. cbn [bind].
  destruct (env getenv "S3_BUCKET" None true); [| reflexivity]. cbn [bind].
  destruct (env getenv "S3_REGION" None true); [| reflexivity]. cbn [bind].
  now rewrite or_str_empty_r.
Qed.

End ConfigFacts.

Section ConfigTheorems.
Import Config.

(** X23.  [load_settings] returns exactly when the port text is an
    integer literal and the five required variables are set and not
    empty; the settings are then the values of the variables, with
    [development] for an [APP_ENV] that is unset or empty.  Every
    failure is a [RuntimeError]: for the port first, and otherwise
    for the first required variable, in the order they are read,
    that is unset or empty. *)
Theorem load_settings_outcome (getenv : environ) :
  match load_settings getenv with
  | Ok s =>
      int_of_str (port_text getenv) = Ok (SERVICE_PORT s)
      /\ APP_ENV s = or_str (var getenv "APP_ENV") "development"
      /\ S3_ENDPOINT s = var getenv "S3_ENDPOINT"
      /\ INTERNAL_API_KEY s = var getenv "INTERNAL_API_KEY"
      /\ S3_BUCKET s = var getenv "S3_BUCKET"
      /\ S3_REGION s = var getenv "S3_REGION"
      /\ S3_ACCESS_KEY_ID s = var getenv "S3_ACCESS_KEY_ID"
      /\ S3_SECRET_ACCESS_KEY s = var getenv "S3_SECRET_ACCESS_KEY"
      /\ Forall (fun k => var getenv k <> "") REQUIRED
  | Raise e =>
      (e = RuntimeError "SERVICE_PORT must be an integer"
       /\ ~ returns (int_of_str (port_text getenv)))
      \/ (returns (int_of_str (port_text getenv))
          /\ exists before k after,
              REQUIRED = before ++ k :: after
              /\ Forall (fun k' => var getenv k' <> "") before
              /\ var getenv k = ""
              /\ e = RuntimeError ("Missing required env var: " ++ k))
  end.
Proof.
  rewrite load_settings_unfold.
  destruct (int_of_str (port_text getenv)) as [p | e0] eqn:Hint.
  2:{ destruct (int_of_str_raises _ _ Hint) as [msg ->]. cbn. left.
      split; [reflexivity |]. intros [a Ha]. discriminate. }
  cbn [except_ValueError bind]. rewrite !env_required.
  assert (Hret : returns (Ok p)) by now eexists.
  destruct (var getenv "INTERNAL_API_KEY") as [| c1 v1] eqn:H1.
  { cbn. right. split; [exact Hret |].
    exists [], "INTERNAL_API_KEY", (tl REQUIRED). repeat split; auto. }
  cbn [bind].
  destruct (var getenv "S3_BUCKET") as [| c2 v2] eqn:H2.
  { cbn. right. split; [exact Hret |].
    exists ["INTERNAL_API_KEY"], "S3_BUCKET", (tl (tl REQUIRED)).
    repeat split; auto. repeat constructor; congruence. }
  cbn [bind].
  destruct (var getenv "S3_REGION") as [| c3 v3] eqn:H3.
  { cbn. right. split; [exact Hret |].
    exists ["INTERNAL_API_KEY"; "S3_BUCKET"], "S3_REGION", (tl (tl (tl REQUIRED))).
    repeat split; auto. repeat constructor; congruence. }
  cbn [bind].
  destruct (var getenv "S3_ACCESS_KEY_ID") as [| c4 v4] eqn:H4.
  { cbn. right. split; [exact Hret |].
    exists ["INTERNAL_API_KEY"; "S3_BUCKET"; "S3_REGION"], "S3_ACCESS_KEY_ID",
      ["S3_SECRET_ACCESS_KEY"].
    repeat split; auto. repeat constructor; congruence. }
  cbn [bind].
  destruct (var getenv "S3_SECRET_ACCESS_KEY") as [| c5 v5] eqn:H5.
  { cbn. right. split; [exact Hret |].
    exists ["INTERNAL_API_KEY"; "S3_BUCKET"; "S3_REGION"; "S3_ACCESS_KEY_ID"],
      "S3_SECRET_ACCESS_KEY", [].
    repeat split; auto. repeat constructor; congruence. }
  cbn [bind APP_ENV SERVICE_PORT INTERNAL_API_KEY S3_BUCKET S3_REGION S3_ENDPOINT
       S3_ACCESS_KEY_ID S3_SECRET_ACCESS_KEY].
  repeat split; try reflexivity.
  unfold REQUIRED. repeat constructor; congruence.
Qed.

Lemma skip_spaces_digit (c : ascii) (l : list ascii) :
  isdigit c = true -> skip_spaces (c :: l) = c :: l.
Proof.
  intros H. cbn [skip_spaces].
  assert (Hs : int_isspace c = false).
  { unfold isdigit in H. unfold int_isspace.
    apply andb_prop in H. destruct H as [Hlo Hhi].
    apply Nat.leb_le in Hlo. apply Nat.leb_le in Hhi.
    destruct (Nat.leb_spec (nat_of_ascii c) 13); [lia |]. rewrite andb_false_r.
    destruct (Nat.eqb_spec (nat_of_ascii c) 32); [lia |].
    destruct (Nat.eqb_spec (nat_of_ascii c) 133); [lia |].
    destruct (Nat.eqb_spec (nat_of_ascii c) 160); [lia | reflexivity]. }
  now rewrite Hs.
Qed.

Lemma int_strip_digits (l : list ascii) :
  Forall (fun c => isdigit c = true) l -> int_strip l = l.
Proof.
  intros H. unfold int_strip.
  assert (Hskip : forall l', Forall (fun c => isdigit c = true) l' -> skip_spaces l' = l').
  { intros l' H'. destruct H' as [| c l' Hc _]; [reflexivity | now apply skip_spaces_digit]. }
  rewrite (Hskip l H), Hskip, rev_involutive; [reflexivity |].
  apply Forall_forall. intros c Hc. apply in_rev in Hc.
  rewrite Forall_forall in H. now apply H.
Qed.

Lemma digit_not_underscore (c : ascii) : isdigit c = true -> Ascii.eqb c "_" = false.
Proof.
  intros H. destruct (Ascii.eqb_spec c "_") as [-> |]; [discriminate | reflexivity].
Qed.

Lemma digit_run_digits (l : list ascii) :
  l <> [] -> Forall (fun c => isdigit c = true) l -> digit_run l = Some l.
Proof.
  induction l as [| c l IH]; intros Hne H; [contradiction |].
  inversion H as [| ? ? Hc Hl]; subst. cbn [digit_run]. rewrite Hc.
  destruct l as [| u l']; [reflexivity |].
  inversion Hl as [| ? ? Hu _]; subst. rewrite (digit_not_underscore u Hu).
  rewrite IH; [reflexivity | discriminate | exact Hl].
Qed.

(** [int] on a run of digits that is not too long. *)
Lemma int_of_str_digits (run : string) :
  run <> "" ->
  Forall (fun c => isdigit c = true) (list_ascii_of_string run) ->
  (String.length run <= INT_MAX_STR_DIGITS)%nat ->
  int_of_str run = Ok (int_of_digits (list_ascii_of_string run)).
Proof.
  intros Hne Hd Hlen. unfold int_of_str. rewrite (int_strip_digits _ Hd).
  destruct (list_ascii_of_string run) as [| c l] eqn:Hl.
  { destruct run; [contradiction | discriminate]. }
  inversion Hd as [| ? ? Hc _]; subst.
  pose proof (digit_not_sign c Hc) as Hsign. apply orb_false_elim in Hsign.
  destruct Hsign as [Hplus Hminus]. rewrite Hminus, Hplus.
  rewrite (digit_run_digits (c :: l) ltac:(discriminate) Hd).
  rewrite <- Hl, list_ascii_length.
  apply Nat.ltb_ge in Hlen. now rewrite Hlen.
Qed.

(** X24.  The port: [PORT] when it is set and not empty, whatever
    [SERVICE_PORT] holds; [SERVICE_PORT] otherwise; and 9000 when
    neither is.  A run of at most 4300 digits is read as its
    value. *)
Theorem load_settings_port (getenv : environ) (s : Settings) :
  load_settings getenv = Ok s ->
  (var getenv "PORT" = "" -> var getenv "SERVICE_PORT" = "" ->
   SERVICE_PORT s = 9000%Z)
  /\ (var getenv "PORT" <> "" ->
      int_of_str (var getenv "PORT") = Ok (SERVICE_PORT s))
  /\ (var getenv "PORT" = "" -> var getenv "SERVICE_PORT" <> "" ->
      int_of_str (var getenv "SERVICE_PORT") = Ok (SERVICE_PORT s))
  /\ (forall run,
         port_text getenv = run ->
         Forall (fun c => isdigit c = true) (list_ascii_of_string run) ->
         (String.length run <= 4300)%nat ->
         SERVICE_PORT s = int_of_digits (list_ascii_of_string run)).
Proof.
  intros H. rewrite load_settings_unfold in H.
  destruct (int_of_str (port_text getenv)) as [p | e0] eqn:Hint.
  2:{ destruct (int_of_str_raises _ _ Hint) as [msg ->]. discriminate. }
  cbn [except_ValueError bind] in H.
  destruct (env getenv "INTERNAL_API_KEY" None true); [| discriminate]. cbn [bind] in H.
  destruct (env getenv "S3_BUCKET" None true); [| discriminate]. cbn [bind] in H.
  destruct (env getenv "S3_REGION" None true); [| discriminate]. cbn [bind] in H.
  destruct (env getenv "S3_ACCESS_KEY_ID" None true); [| discriminate]. cbn [bind] in H.
  destruct (env getenv "S3_SECRET_ACCESS_KEY" None true); [| discriminate].
  cbn [bind] in H. injection H as <-. cbn [SERVICE_PORT].
  unfold port_text in Hint.
  split; [| split; [| split]].
  - intros Hp Hs. rewrite Hp, Hs in Hint. cbn in Hint. now injection Hint as <-.
  - intros Hp. destruct (var getenv "PORT"); [contradiction | exact Hint].
  - intros Hp Hs. rewrite Hp in Hint. cbn [or_str] in Hint.
    destruct (var getenv "SERVICE_PORT"); [contradiction | exact Hint].
  - intros run Hrun Hd Hlen. unfold port_text in Hrun. rewrite Hrun in Hint.
    assert (Hne : run <> "").
    { intros ->. vm_compute in Hint. discriminate. }
    rewrite (int_of_str_digits run Hne Hd Hlen) in Hint. now injection Hint as <-.
Qed.

(** An environment given as a list of bindings. *)
Definition environ_of (bindings : list (string * string)) : environ :=
  fun key => Json.lookup key bindings.

Lemma load_settings_port_witness :
  let getenv := environ_of [("PORT", "8080"); ("SERVICE_PORT", "x");
                            ("INTERNAL_API_KEY", "k"); ("S3_BUCKET", "b");
                            ("S3_REGION", "r"); ("S3_ACCESS_KEY_ID", "i");
                            ("S3_SECRET_ACCESS_KEY", "s")] in
  exists s, load_settings getenv = Ok s /\ SERVICE_PORT s = 8080%Z.
Proof.
  intros getenv.
  destruct (load_settings getenv) as [s |] eqn:Hs; [| vm_compute in Hs; discriminate].
  exists s. split; [reflexivity |].
  destruct (load_settings_port getenv s Hs) as (_ & _ & _ & Hrun).
  rewrite (Hrun "8080" eq_refl); [reflexivity | repeat constructor | simpl; lia].
Defined.

End ConfigTheorems.

(* ================================================================== *)
(** ** The cache of converted backgrounds *)

Section NormalizeFacts.
Import Normalize.

Lemma put_same (st : fs) (path : string) (n : option node) : put st path n path = n.
Proof. unfold put. now rewrite String.eqb_refl. Qed.

Lemma put_other (st : fs) (path q : string) (n : option node) :
  q <> path -> put st path n q = st q.
Proof. intros H. unfold put. apply String.eqb_neq in H. now rewrite H. Qed.

(** Two states that differ at most at [path]. *)
Definition same_but (path : string) (a b : fs) : Prop :=
  forall q, q <> path -> a q = b q.

Lemma same_but_refl (path : string) (a : fs) : same_but path a a.
Proof. now intros q _. Qed.

Lemma same_but_trans (path : string) (a b c : fs) :
  same_but path a b -> same_but path b c -> same_but path a c.
Proof. intros H1 H2 q Hq. now rewrite (H1 q Hq), (H2 q Hq). Qed.

Lemma same_but_put (path : string) (a : fs) (n : option node) :
  same_but path a (put a path n).
Proof. intros q Hq. now rewrite put_other. Qed.

Lemma same_but_unlink (path : string) (a : fs) : same_but path a (unlink_quietly a path).
Proof.
  unfold unlink_quietly. destruct (is_dir a CACHE_DIR); [| apply same_but_refl].
  destruct (a path) as [[c |] |]; try apply same_but_refl. apply same_but_put.
Qed.

Lemma cached_path_not_dir (h : string) : cached_path h <> CACHE_DIR.
Proof.
  unfold cached_path. intros H.
  apply (f_equal String.length) in H.
  rewrite !string_length_app in H. cbn [String.length] in H. lia.
Qed.

(** [head == b"%PDF-"] *)
Definition is_pdf (content : string) : Prop := substring 0 5 content = "%PDF-".

(** What a successful check of the head tells. *)
Lemma read_head_pdf (st : fs) (path head : string) :
  read_head st path = Ok head -> String.eqb head "%PDF-" = true ->
  is_dir st CACHE_DIR = true
  /\ exists content, st path = Some (File content) /\ is_pdf content.
Proof.
  unfold read_head. intros H He. apply String.eqb_eq in He.
  destruct (is_dir st CACHE_DIR); [| discriminate]. split; [reflexivity |].
  destruct (st path) as [[content |] |]; try discriminate.
  injection H as <-. now exists content.
Qed.

(** [convert]: it touches the cached file alone.  When it returns,
    the file is a PDF; when the converter returns and what it wrote
    is no PDF, the failure is [INVALID_SVG_TO_PDF_OUTPUT] and no file
    is left; a failure of the converter is passed on. *)
Lemma convert_spec (w : world) (st st' : fs) (svg h p : string)
      (r : result (string * string)) :
  convert w st svg h p = (r, st') ->
  same_but p st st'
  /\ match r, fst (svg2pdf w svg (writable st p)) with
     | Ok (h', p'), _ =>
         h' = h /\ p' = p /\ is_dir st' CACHE_DIR = true
         /\ exists content, st' p = Some (File content) /\ is_pdf content
     | Raise e, Ok _ =>
         e = RuntimeError "INVALID_SVG_TO_PDF_OUTPUT: expected PDF"
         /\ (is_dir st CACHE_DIR = true -> p <> CACHE_DIR ->
             forall content, st' p <> Some (File content))
     | Raise e, Raise e' => e = e'
     end.
Proof.
  unfold convert.
  destruct (svg2pdf w svg (writable st p)) as [outcome written]. cbn [fst].
  set (st1 := match written with
              | Some content =>
                  if writable st p then put st p (Some (File content)) else st
              | None => st
              end).
  assert (H1 : same_but p st st1).
  { subst st1. destruct written as [c |]; [| apply same_but_refl].
    destruct (writable st p); [apply same_but_put | apply same_but_refl]. }
  assert (Hgone : is_dir st CACHE_DIR = true -> p <> CACHE_DIR ->
                  forall content, unlink_quietly st1 p p <> Some (File content)).
  { intros Hdir Hne content.
    assert (Hd1 : is_dir st1 CACHE_DIR = true).
    { unfold is_dir. rewrite <- (H1 CACHE_DIR); [exact Hdir | congruence]. }
    unfold unlink_quietly. rewrite Hd1.
    destruct (st1 p) as [[c |] |] eqn:Hp; [| now rewrite Hp | now rewrite Hp].
    now rewrite put_same. }
  destruct outcome as [[] | e].
  - destruct (read_head st1 p) as [head |] eqn:Hhead.
    + destruct (String.eqb head "%PDF-") eqn:He; cbn [negb].
      * intros H. injection H as <- <-. split; [exact H1 |].
        destruct (read_head_pdf _ _ _ Hhead He) as [Hd Hc]. now repeat split.
      * intros H. injection H as <- <-.
        split; [exact (same_but_trans _ _ _ _ H1 (same_but_unlink p st1)) |].
        split; [reflexivity | exact Hgone].
    + cbn [negb String.eqb]. intros H. injection H as <- <-.
      split; [exact (same_but_trans _ _ _ _ H1 (same_but_unlink p st1)) |].
      split; [reflexivity | exact Hgone].
  - intros H. injection H as <- <-. split; [exact H1 | reflexivity].
Qed.

Lemma ensure_dir_spec (st : fs) :
  same_but CACHE_DIR st (_ensure_dir st CACHE_DIR)
  /\ ((forall content, st CACHE_DIR <> Some (File content)) ->
      is_dir (_ensure_dir st CACHE_DIR) CACHE_DIR = true).
Proof.
  unfold _ensure_dir, is_dir. destruct (st CACHE_DIR) as [[c |] |] eqn:Hd.
  - split; [apply same_but_refl |]. intros Hf. now contradiction (Hf c).
  - split; [apply same_but_refl |]. intros _. now rewrite Hd.
  - split; [apply same_but_put |]. intros _. now rewrite put_same.
Qed.

End NormalizeFacts.

Section NormalizeTheorems.
Import Normalize.

(** What holds when the function returns. *)
Lemma svg_to_pdf_post (w : world) (st st' : fs) (key h p : string) :
  svg_to_pdf_cached_original_size w st key = (Ok (h, p), st') ->
  exists svg,
    _read_svg_bytes w st key = Ok svg
    /\ h = Hash.sha256_hex svg
    /\ p = cached_path h
    /\ is_dir st' CACHE_DIR = true
    /\ (exists content, st' p = Some (File content) /\ is_pdf content)
    /\ same_but p (_ensure_dir st CACHE_DIR) st'.
Proof.
  unfold svg_to_pdf_cached_original_size.
  destruct (_read_svg_bytes w st key) as [svg |]; [| discriminate].
  set (st1 := _ensure_dir st CACHE_DIR).
  set (h0 := Hash.sha256_hex svg). set (p0 := cached_path h0).
  intros H. exists svg. split; [reflexivity |].
  assert (Hconv : forall st2,
             same_but p0 st1 st2 ->
             convert w st2 svg h0 p0 = (Ok (h, p), st') ->
             h = h0 /\ p = cached_path h /\ is_dir st' CACHE_DIR = true
             /\ (exists content, st' p = Some (File content) /\ is_pdf content)
             /\ same_but p st1 st').
  { intros st2 H12 Hc. destruct (convert_spec _ _ _ _ _ _ _ Hc) as [Hsame Hr].
    cbn in Hr. destruct Hr as (-> & -> & Hd & Hfile).
    repeat split; try assumption; try reflexivity.
    exact (same_but_trans _ _ _ _ H12 Hsame). }
  destruct (path_exists st1 p0).
  - destruct (read_head st1 p0) as [head |] eqn:Hhead.
    + destruct (String.eqb head "%PDF-") eqn:He.
      * injection H as <- <- <-.
        destruct (read_head_pdf _ _ _ Hhead He) as [Hd Hfile].
        repeat split; try assumption; try reflexivity; try apply same_but_refl.
      * exact (Hconv _ (same_but_unlink p0 st1) H).
    + exact (Hconv _ (same_but_unlink p0 st1) H).
  - exact (Hconv _ (same_but_refl p0 st1) H).
Qed.

(** Any other path is as it was. *)
Lemma svg_to_pdf_returns_pdf_frame (w : world) (st st' : fs) (key h p q : string) :
  svg_to_pdf_cached_original_size w st key = (Ok (h, p), st') ->
  q = p \/ q = CACHE_DIR \/ st' q = st q.
Proof.
  intros H.
  destruct (svg_to_pdf_post w st st' key h p H) as (svg & _ & _ & _ & _ & _ & Hsame).
  destruct (String.eqb_spec q p) as [-> | Hq]; [now left |].
  destruct (String.eqb_spec q CACHE_DIR) as [-> | Hd]; [right; now left |].
  right. right. rewrite <- (Hsame q Hq).
  symmetry. exact (proj1 (ensure_dir_spec st) q Hd).
Qed.


(** A world where the SVG is on S3 and converts to a small PDF. *)
Definition sample_world : world :=
  mk_world (fun _ => Ok "<svg/>") (fun _ _ => (Ok tt, Some "%PDF-1.5 sample")).

Definition empty_fs : fs := fun _ => None.


(** X26.  A second call is served from the cache: after a call
    that returned, a call for an SVG with the same bytes returns the
    same hash and path and leaves the file system as it is, whatever
    the converter would do now. *)
Theorem svg_to_pdf_second_call_hits
        (w w' : world) (st st' : fs) (key key' h p : string) :
  svg_to_pdf_cached_original_size w st key = (Ok (h, p), st') ->
  _read_svg_bytes w' st' key' = _read_svg_bytes w st key ->
  svg_to_pdf_cached_original_size w' st' key' = (Ok (h, p), st').
Proof.
  intros H Hread.
  destruct (svg_to_pdf_post w st st' key h p H)
    as (svg & Hsvg & Hh & Hp & Hdir & (content & Hfile & Hpdf) & _).
  unfold svg_to_pdf_cached_original_size. rewrite Hread, Hsvg, <- Hh, <- Hp.
  assert (Hens : _ensure_dir st' CACHE_DIR = st').
  { unfold _ensure_dir. unfold is_dir in Hdir.
    now destruct (st' CACHE_DIR) as [[c |] |]. }
  rewrite Hens. unfold path_exists, read_head. rewrite Hdir, Hfile. cbn [andb].
  unfold is_pdf in Hpdf. now rewrite Hpdf.
Qed.

Lemma svg_to_pdf_second_call_hits_witness :
  exists h p st',
    svg_to_pdf_cached_original_size sample_world empty_fs "designs/a.svg"
    = (Ok (h, p), st')
    /\ svg_to_pdf_cached_original_size
         (mk_world (fun _ => Ok "<svg/>") (fun _ _ => (Raise (OSError "down"), None)))
         st' "designs/copy-of-a.svg"
       = (Ok (h, p), st').
Proof.
  destruct (svg_to_pdf_cached_original_size sample_world empty_fs "designs/a.svg")
    as [[[h p] |] st'] eqn:H; [| vm_compute in H; discriminate].
  exists h, p, st'. split; [reflexivity |].
  apply (svg_to_pdf_second_call_hits sample_world _ empty_fs st' "designs/a.svg"
                                     "designs/copy-of-a.svg" h p H).
  assert (Hnone : st' "designs/copy-of-a.svg" = None).
  { destruct (svg_to_pdf_returns_pdf_frame sample_world empty_fs st' "designs/a.svg" h p
                "designs/copy-of-a.svg" H) as [E | [E | E]]; [| | exact E].
    - vm_compute in H. injection H as _ <- _. discriminate E.
    - discriminate E. }
  unfold _read_svg_bytes. now rewrite Hnone.
Defined.

(** X27.  The cache never keeps what is no PDF.  When the SVG can
    be read and the converter returns, the function ends with a PDF
    at the cached path and returns, or with no file there and
    [INVALID_SVG_TO_PDF_OUTPUT]: a cached file that is no PDF is
    replaced, and an output that is no PDF is removed. *)
Theorem svg_to_pdf_never_keeps_invalid (w : world) (st : fs) (key svg : string) :
  (forall content, st CACHE_DIR <> Some (File content)) ->
  _read_svg_bytes w st key = Ok svg ->
  (forall can_write, fst (svg2pdf w svg can_write) = Ok tt) ->
  let p := cached_path (Hash.sha256_hex svg) in
  match svg_to_pdf_cached_original_size w st key with
  | (Ok (h', p'), st') =>
      h' = Hash.sha256_hex svg /\ p' = p
      /\ exists content, st' p = Some (File content) /\ is_pdf content
  | (Raise e, st') =>
      e = RuntimeError "INVALID_SVG_TO_PDF_OUTPUT: expected PDF"
      /\ forall content, st' p <> Some (File content)
  end.
Proof.
  intros Hdir Hread Hconv p. unfold svg_to_pdf_cached_original_size. rewrite Hread.
  fold p. set (st1 := _ensure_dir st CACHE_DIR).
  assert (Hd1 : is_dir st1 CACHE_DIR = true) by exact (proj2 (ensure_dir_spec st) Hdir).
  assert (Hne : p <> CACHE_DIR) by apply cached_path_not_dir.
  assert (Hc : forall st2,
             is_dir st2 CACHE_DIR = true ->
             match convert w st2 svg (Hash.sha256_hex svg) p with
             | (Ok (h', p'), st') =>
                 h' = Hash.sha256_hex svg /\ p' = p
                 /\ exists content, st' p = Some (File content) /\ is_pdf content
             | (Raise e, st') =>
                 e = RuntimeError "INVALID_SVG_TO_PDF_OUTPUT: expected PDF"
                 /\ forall content, st' p <> Some (File content)
             end).
  { intros st2 Hd2.
    destruct (convert w st2 svg (Hash.sha256_hex svg) p) as [r st'] eqn:E.
    destruct (convert_spec _ _ _ _ _ _ _ E) as [_ Hr].
    rewrite (Hconv (writable st2 p)) in Hr.
    destruct r as [[h' p'] | e].
    - destruct Hr as (-> & -> & _ & Hfile). now repeat split.
    - destruct Hr as [-> Hgone]. split; [reflexivity | exact (Hgone Hd2 Hne)]. }
  assert (Hu : is_dir (unlink_quietly st1 p) CACHE_DIR = true).
  { unfold is_dir. rewrite <- (same_but_unlink p st1 CACHE_DIR); [exact Hd1 | congruence]. }
  destruct (path_exists st1 p).
  - destruct (read_head st1 p) as [head |] eqn:Hhead.
    + destruct (String.eqb head "%PDF-") eqn:He.
      * destruct (read_head_pdf _ _ _ Hhead He) as [_ Hfile]. now repeat split.
      * exact (Hc _ Hu).
    + exact (Hc _ Hu).
  - exact (Hc _ Hd1).
Qed.

Lemma svg_to_pdf_never_keeps_invalid_witness :
  let broken := mk_world (fun _ => Ok "<svg/>") (fun _ _ => (Ok tt, Some "<html>")) in
  let p := cached_path (Hash.sha256_hex "<svg/>") in
  let st := put empty_fs p (Some (File "%PD")) in
  exists st',
    svg_to_pdf_cached_original_size broken st "designs/a.svg"
    = (Raise (RuntimeError "INVALID_SVG_TO_PDF_OUTPUT: expected PDF"), st')
    /\ st' p = None.
Proof.
  intros broken p st.
  pose proof (svg_to_pdf_never_keeps_invalid broken st "designs/a.svg" "<svg/>") as H.
  destruct (svg_to_pdf_cached_original_size broken st "designs/a.svg")
    as [[[h' p'] | e] st'] eqn:E; [vm_compute in E; discriminate |].
  exists st'.
  destruct H as [-> Hgone].
  - intros content. vm_compute. discriminate.
  - vm_compute. reflexivity.
  - intros can_write. reflexivity.
  - split; [reflexivity |].
    vm_compute in E. injection E as <-. vm_compute. reflexivity.
Defined.

End NormalizeTheorems.

(* ================================================================== *)
(** ** Font tables *)

Section FontTablesFacts.
Import FontTables.

(** A record that names a family: [nameID] 1 and a value that is
    not empty. *)
Definition family_of (rec : name_record) : option string :=
  if attr_is (nameID rec) 1 then
    match record_value rec with
    | Some (String c v) => Some (String c v)
    | _ => None
    end
  else None.


Lemma last_cons_default {A} (l : list A) (a d : A) : last (a :: l) d = last l a.
Proof.
  revert a d. induction l as [| b l IH]; intros a d; [reflexivity |].
  change (last (a :: b :: l) d) with (last (b :: l) d). now rewrite !IH.
Qed.

Definition is_family (rec : name_record) : bool :=
  match family_of rec with Some _ => true | None => false end.

Lemma family_loop_step (rec : name_record) (rest : list name_record)
      (best : option string) :
  family_loop (rec :: rest) best
  = match family_of rec with
    | None => family_loop rest best
    | Some value =>
        if attr_is (platformID rec) 3 then Some value
        else family_loop rest (Some value)
    end.
Proof.
  cbn [family_loop]. unfold family_of.
  destruct (attr_is (nameID rec) 1); cbn [negb]; [| reflexivity].
  now destruct (record_value rec) as [[| c v] |].
Qed.

Lemma family_loop_rule (names : list name_record) (best : option string) :
  family_loop names best
  = match find (fun rec => is_family rec && attr_is (platformID rec) 3) names with
    | Some rec => family_of rec
    | None => last (map family_of (filter is_family names)) best
    end.
Proof.
  revert best. induction names as [| rec rest IH]; intros best; [reflexivity |].
  rewrite family_loop_step. cbn [find filter]. unfold is_family at 1 3.
  destruct (family_of rec) as [value |] eqn:Hf; cbn [andb]; [| exact (IH best)].
  destruct (attr_is (platformID rec) 3); [now rewrite Hf |].
  rewrite IH. destruct (find _ rest); [reflexivity |].
  cbn [map]. now rewrite Hf, last_cons_default.
Qed.

End FontTablesFacts.

Section FontTablesTheorems.
Import FontTables.

(** X28.  The family a font file is listed under: the first record
    of the [name] table that names a family (name 1, a value that is
    not empty) on the Windows platform (3) if there is one, and the
    last record that names a family otherwise.  It is never the
    empty string, and a font that cannot be read has none. *)
Theorem font_family_windows_name_wins (names : list name_record) :
  _font_family_from_file (Ok (Ok names))
  = match find (fun rec => is_family rec && attr_is (platformID rec) 3) names with
    | Some rec => family_of rec
    | None => last (map family_of (filter is_family names)) None
    end
  /\ (forall font, _font_family_from_file font <> Some "")
  /\ (forall e, _font_family_from_file (Raise e) = None
                /\ _font_family_from_file (Ok (Raise e)) = None).
Proof.
  split; [exact (family_loop_rule names None) |].
  split; [| split; reflexivity].
  assert (Hfam : forall rec, family_of rec <> Some "").
  { intros rec. unfold family_of. destruct (attr_is (nameID rec) 1); [| discriminate].
    destruct (record_value rec) as [[| c v] |]; discriminate. }
  intros [[l | e] | e]; try discriminate.
  cbn [_font_family_from_file]. rewrite family_loop_rule.
  destruct (find _ l) as [rec |]; [apply Hfam |].
  induction (filter is_family l) as [| rec rest IH]; [discriminate |].
  cbn [map]. rewrite last_cons_default.
  destruct rest as [| rec' rest']; [apply Hfam |].
  cbn [map] in *. rewrite last_cons_default in IH. now rewrite last_cons_default.
Qed.

(** The values the horizontal subtables give a pair, zeros left
    out, in the order they are read. *)
Definition pair_values (kernTables : list kern_subtable) (l r : string) : list Z :=
  flat_map
    (fun st =>
       if (Z.land (coverage st) 1 =? 0)%Z then []
       else
         map snd
             (filter (fun item : string * string * Z =>
                        String.eqb l (fst (fst item))
                        && String.eqb r (snd (fst item))
                        && negb (snd item =? 0)%Z)
                     (kernTable st)))
    kernTables.

Definition kerned (v : Z) : option float := Some (OutlinedText.float_of_int v).

Lemma last_app_default {A} (a b : list A) (d : A) : last (a ++ b) d = last b (last a d).
Proof.
  revert d. induction a as [| x a IH]; intros d; [reflexivity |].
  change ((x :: a) ++ b) with (x :: (a ++ b)).
  now rewrite !last_cons_default, IH.
Qed.

Lemma add_items_last (items : list (string * string * Z)) (p : pairs) (l r : string) :
  fold_left add_item items p l r
  = last (map kerned
              (map snd
                   (filter (fun item : string * string * Z =>
                              String.eqb l (fst (fst item))
                              && String.eqb r (snd (fst item))
                              && negb (snd item =? 0)%Z)
                           items)))
         (p l r).
Proof.
  revert p. induction items as [| [[a b] v] items IH]; intros p; [reflexivity |].
  cbn [fold_left filter fst snd]. rewrite IH. unfold add_item.
  destruct (Z.eqb_spec v 0) as [-> | Hv]; cbn [negb].
  - now rewrite andb_false_r.
  - rewrite andb_true_r. unfold set_pair.
    destruct (String.eqb l a && String.eqb r b); [| reflexivity].
    cbn [map]. now rewrite last_cons_default.
Qed.

Lemma add_subtables_last (kernTables : list kern_subtable) (p : pairs) (l r : string) :
  fold_left add_subtable kernTables p l r
  = last (map kerned (pair_values kernTables l r)) (p l r).
Proof.
  revert p. induction kernTables as [| st rest IH]; intros p; [reflexivity |].
  cbn [fold_left]. rewrite IH. unfold pair_values. cbn [flat_map].
  rewrite map_app, last_app_default. f_equal.
  unfold add_subtable. destruct (Z.land (coverage st) 1 =? 0)%Z; [reflexivity |].
  apply add_items_last.
Qed.

(** X29.  What a pair of glyphs is kerned by: the last value that
    is not zero among those the horizontal subtables (coverage bit 0
    set) give it, as a float.  A zero never enters the table, so it
    does not undo an earlier value; a pair with no such value, a
    font with no [kern] table and a table that cannot be read give
    no kerning. *)
Theorem build_kern_pairs_last_nonzero (kernTables : list kern_subtable) (l r : string) :
  _build_kern_pairs (Ok (Some kernTables)) l r
  = last (map kerned (pair_values kernTables l r)) None
  /\ _build_kern_pairs (Ok None) l r = None
  /\ forall e, _build_kern_pairs (Raise e) l r = None.
Proof.
  split; [exact (add_subtables_last kernTables (fun _ _ => None) l r) |].
  split; reflexivity.
Qed.

End FontTablesTheorems.

(* ================================================================== *)
(** ** Which jobs are accepted *)

Section Acceptance.
Import PdfWriter Canvas Serial.
Local Open Scope float_scope.










End Acceptance.

Section AcceptanceTheorem.
Import PdfWriter Canvas Serial.
Local Open Scope float_scope.



End AcceptanceTheorem.
